(** * Shallow-water stepper ([swe.py]): the time loop and its setup

    The script advances three [N_x] x [N_y] fields (the velocities [u], [v]
    and the surface elevation [eta]) with numpy slice arithmetic.  Arrays are
    lists of rows, [a[i, j]] being element [j] of row [i]; every slice, every
    element-wise operation and every slice assignment of the loop body is
    embedded as the list operation numpy performs, and the module-level
    arrays the body assigns are threaded through it as an explicit store.
    A second model keeps the arrays as objects in a heap, with names bound
    to addresses and assignments in place, and is proved to agree with the
    first.
    The float64 scalars are abstracted by an operation signature ([Scalar]):
    what is proved for every instance holds whatever the arithmetic does;
    the conservation results are proved for the instance of exact real
    arithmetic, and the instance of rational numbers runs the body. *)

From Stdlib Require Import ZArith QArith Reals Lra Lia.
From stdpp Require Import base option list.

Set Default Proof Using "Type".

(** * The embedding *)

(** ** Scalars *)

Class Scalar (F : Type) := {
  fzero : F;                 (* the literal [0.0] (and the [0] of [> 0]) *)
  fadd : F → F → F;
  fsub : F → F → F;
  fmul : F → F → F;
  fdiv : F → F → F;
  fgt : F → F → bool         (* [x > y] *)
}.

Declare Scope scalar_scope.
Delimit Scope scalar_scope with S.
Notation "x + y" := (fadd x y) : scalar_scope.
Notation "x - y" := (fsub x y) : scalar_scope.
Notation "x * y" := (fmul x y) : scalar_scope.
Notation "x / y" := (fdiv x y) : scalar_scope.

(** ** numpy arrays as lists *)

Section Slices.
Context {A : Type}.

(** [a[:-1]] *)
Definition front (a : list A) : list A := take (length a - 1) a.
(** [a[1:]] *)
Definition back (a : list A) : list A := drop 1 a.
(** [a[0]] and [a[-1]]: IndexError ([None]) on an empty axis *)
Definition first (a : list A) : option A := head a.
Definition final (a : list A) : option A := last a.

(** [a[:-1] = b]: the last entry of the buffer is kept *)
Definition set_front (a b : list A) : list A := b ++ drop (length a - 1) a.
(** [a[1:] = b]: the first entry of the buffer is kept *)
Definition set_back (a b : list A) : list A := take 1 a ++ b.
(** [a[0] = x] *)
Definition set_first (a : list A) (x : A) : option (list A) :=
  match a with
  | [] => None
  | _ :: t => Some (x :: t)
  end.
(** [a[-1] = x] *)
Definition set_final (a : list A) (x : A) : option (list A) :=
  match a with
  | [] => None
  | _ :: _ => Some (front a ++ [x])
  end.
(** [a[:] = b] *)
Definition set_all (a b : list A) : list A := zip_with (λ _ y, y) a b.
End Slices.

Section Columns.
Context {A : Type}.

(** [a[:, :-1]], [a[:, 1:]], [a[:, 0]], [a[:, -1]] *)
Definition cols_front (a : list (list A)) : list (list A) := front <$> a.
Definition cols_back (a : list (list A)) : list (list A) := back <$> a.
Definition col_first (a : list (list A)) : option (list A) := mapM first a.
Definition col_final (a : list (list A)) : option (list A) := mapM final a.

(** [a[:, :-1] = b], [a[:, 1:] = b], [a[:, 0] = c], [a[:, -1] = c], [a[:, :] = b] *)
Definition set_cols_front (a b : list (list A)) : list (list A) :=
  zip_with set_front a b.
Definition set_cols_back (a b : list (list A)) : list (list A) :=
  zip_with set_back a b.
Definition set_col_first (a : list (list A)) (c : list A) : option (list (list A)) :=
  mapM (λ rx, set_first rx.1 rx.2) (zip a c).
Definition set_col_final (a : list (list A)) (c : list A) : option (list (list A)) :=
  mapM (λ rx, set_final rx.1 rx.2) (zip a c).
Definition set_all2 (a b : list (list A)) : list (list A) :=
  zip_with set_all a b.
End Columns.

Section Elementwise.
Context {F : Type} {SF : Scalar F}.
Local Open Scope scalar_scope.

(** array (op) array, on arrays of one shape *)
Definition arr_add (a b : list (list F)) : list (list F) := zip_with (zip_with fadd) a b.
Definition arr_sub (a b : list (list F)) : list (list F) := zip_with (zip_with fsub) a b.
Definition arr_mul (a b : list (list F)) : list (list F) := zip_with (zip_with fmul) a b.
(** scalar [*] array, array [/] scalar, array [+] scalar *)
Definition scal_mul (k : F) (a : list (list F)) : list (list F) :=
  fmap (M := list) (fmul k) <$> a.
Definition arr_div_scal (a : list (list F)) (k : F) : list (list F) :=
  fmap (M := list) (λ x, x / k) <$> a.
Definition arr_add_scal (a : list (list F)) (k : F) : list (list F) :=
  fmap (M := list) (λ x, x + k) <$> a.
(** [f * a] with [f] one-dimensional: broadcast along the last axis, [f[j] * a[i, j]] *)
Definition row_mul (f : list F) (a : list (list F)) : list (list F) :=
  zip_with fmul f <$> a.
(** [a > 0] and [np.where(c, a, b)] *)
Definition arr_gt0 (a : list (list F)) : list (list bool) :=
  fmap (M := list) (λ x, fgt x fzero) <$> a.
Definition where_ (c : list (list bool)) (a b : list (list F)) : list (list F) :=
  zip_with (λ cr ab, zip_with (λ (t : bool) (xy : F * F), if t then xy.1 else xy.2) cr ab)
           c (zip_with zip a b).
(** [a.sum()]; numpy does not fix the order of the additions, which is
    immaterial in exact arithmetic *)
Definition sum1 (r : list F) : F := foldr fadd fzero r.
Definition arr_sum (a : list (list F)) : F := sum1 (sum1 <$> a).
(** [a[i, j]], read as [0.0] outside the array *)
Definition get (a : list (list F)) (i j : nat) : F :=
  default fzero (a !! i ≫= (.!! j)).
(** [r[j]], read as [0.0] outside the array *)
Definition get1 (r : list F) j : F := default fzero (r !! j).
End Elementwise.

(** the array has [n] rows of [m] entries *)
Definition shape {B : Type} (n m : nat) (a : list (list B)) : Prop :=
  length a = n ∧ Forall (λ r, length r = m) a.

(** ** The module-level names of the script *)

(** The names the loop body only reads.  [f], [source] and [sink] are bound
    by the script only when their flag is set; they are read only under that
    flag. *)
Module Cfg.
Record t {F : Type} := mk {
  g : F;
  H : F;
  dt : F;
  dx : F;
  dy : F;
  use_coriolis : bool;
  use_source : bool;
  use_sink : bool;
  f : list F;
  source : list (list F);
  sink : list (list F);
  max_time_step : Z
}.
Global Arguments t : clear implicits.
End Cfg.

(** The arrays the loop body assigns, and the step counter. *)
Record State {F : Type} := mkState {
  u_n : list (list F);
  u_np1 : list (list F);
  v_n : list (list F);
  v_np1 : list (list F);
  eta_n : list (list F);
  eta_np1 : list (list F);
  h_e : list (list F);
  h_w : list (list F);
  h_n : list (list F);
  h_s : list (list F);
  uhwe : list (list F);
  vhns : list (list F);
  time_step : Z
}.
Global Arguments State : clear implicits.

Section Store.
Context {F : Type}.
Implicit Types (s : State F) (a : list (list F)).

Definition with_u_np1 s a : State F :=
  mkState F (u_n s) a (v_n s) (v_np1 s) (eta_n s) (eta_np1 s)
    (h_e s) (h_w s) (h_n s) (h_s s) (uhwe s) (vhns s) (time_step s).
Definition with_v_np1 s a : State F :=
  mkState F (u_n s) (u_np1 s) (v_n s) a (eta_n s) (eta_np1 s)
    (h_e s) (h_w s) (h_n s) (h_s s) (uhwe s) (vhns s) (time_step s).
Definition with_eta_np1 s a : State F :=
  mkState F (u_n s) (u_np1 s) (v_n s) (v_np1 s) (eta_n s) a
    (h_e s) (h_w s) (h_n s) (h_s s) (uhwe s) (vhns s) (time_step s).
Definition with_h_e s a : State F :=
  mkState F (u_n s) (u_np1 s) (v_n s) (v_np1 s) (eta_n s) (eta_np1 s)
    a (h_w s) (h_n s) (h_s s) (uhwe s) (vhns s) (time_step s).
Definition with_h_w s a : State F :=
  mkState F (u_n s) (u_np1 s) (v_n s) (v_np1 s) (eta_n s) (eta_np1 s)
    (h_e s) a (h_n s) (h_s s) (uhwe s) (vhns s) (time_step s).
Definition with_h_n s a : State F :=
  mkState F (u_n s) (u_np1 s) (v_n s) (v_np1 s) (eta_n s) (eta_np1 s)
    (h_e s) (h_w s) a (h_s s) (uhwe s) (vhns s) (time_step s).
Definition with_h_s s a : State F :=
  mkState F (u_n s) (u_np1 s) (v_n s) (v_np1 s) (eta_n s) (eta_np1 s)
    (h_e s) (h_w s) (h_n s) a (uhwe s) (vhns s) (time_step s).
Definition with_uhwe s a : State F :=
  mkState F (u_n s) (u_np1 s) (v_n s) (v_np1 s) (eta_n s) (eta_np1 s)
    (h_e s) (h_w s) (h_n s) (h_s s) a (vhns s) (time_step s).
Definition with_vhns s a : State F :=
  mkState F (u_n s) (u_np1 s) (v_n s) (v_np1 s) (eta_n s) (eta_np1 s)
    (h_e s) (h_w s) (h_n s) (h_s s) (uhwe s) a (time_step s).
End Store.

(** What running the loop gives: the final store, an exception of the body,
    or no answer within the given number of iterations. *)
Inductive outcome (A : Type) :=
  | Finished (a : A)
  | IndexError
  | OutOfFuel.
Global Arguments Finished {A} a.
Global Arguments IndexError {A}.
Global Arguments OutOfFuel {A}.

(** ** The body of the time loop (lines 150-201)

    The sampling that follows the counter increment (lines 203-216) only
    appends the new arrays to lists kept for plotting and is left out. *)

Section Step.
Context {F : Type} {SF : Scalar F}.
Variable c : Cfg.t F.
Local Open Scope scalar_scope.
Implicit Types (s : State F).

(** lines 150-151 *)
Definition momentum_predictor s : State F :=
  let s := with_u_np1 s (set_front (u_np1 s)
    (arr_sub (front (u_n s))
       (scal_mul (Cfg.g c * Cfg.dt c / Cfg.dx c)
          (arr_sub (back (eta_n s)) (front (eta_n s)))))) in
  with_v_np1 s (set_cols_front (v_np1 s)
    (arr_sub (cols_front (v_n s))
       (scal_mul (Cfg.g c * Cfg.dt c / Cfg.dy c)
          (arr_sub (cols_back (eta_n s)) (cols_front (eta_n s)))))).

(** lines 154-156 *)
Definition coriolis_corrector s : State F :=
  if Cfg.use_coriolis c then
    let s := with_u_np1 s (set_all2 (u_np1 s)
               (arr_add (u_np1 s) (row_mul (Cfg.f c) (v_n s)))) in
    with_v_np1 s (set_all2 (v_np1 s)
               (arr_sub (v_np1 s) (row_mul (Cfg.f c) (u_n s))))
  else s.

(** lines 158-159; the scalar [0.0] is broadcast over the selected column or row *)
Definition boundary_conditions s : option (State F) :=
  v ← set_col_final (v_np1 s) ((λ _, fzero) <$> v_np1 s);
  let s := with_v_np1 s v in
  r ← final (u_np1 s);
  u ← set_final (u_np1 s) ((λ _, fzero) <$> r);
  Some (with_u_np1 s u).

(** lines 166-176 *)
Definition upwind_depths s : option (State F) :=
  let s := with_h_e s (set_front (h_e s)
    (where_ (arr_gt0 (front (u_np1 s)))
       (arr_add_scal (front (eta_n s)) (Cfg.H c))
       (arr_add_scal (back (eta_n s)) (Cfg.H c)))) in
  r ← final (eta_n s);
  a ← set_final (h_e s) ((λ x, x + Cfg.H c) <$> r);
  let s := with_h_e s a in
  r ← first (eta_n s);
  a ← set_first (h_w s) ((λ x, x + Cfg.H c) <$> r);
  let s := with_h_w s a in
  let s := with_h_w s (set_back (h_w s)
    (where_ (arr_gt0 (front (u_np1 s)))
       (arr_add_scal (front (eta_n s)) (Cfg.H c))
       (arr_add_scal (back (eta_n s)) (Cfg.H c)))) in
  let s := with_h_n s (set_cols_front (h_n s)
    (where_ (arr_gt0 (cols_front (v_np1 s)))
       (arr_add_scal (cols_front (eta_n s)) (Cfg.H c))
       (arr_add_scal (cols_back (eta_n s)) (Cfg.H c)))) in
  k ← col_final (eta_n s);
  a ← set_col_final (h_n s) ((λ x, x + Cfg.H c) <$> k);
  let s := with_h_n s a in
  k ← col_first (eta_n s);
  a ← set_col_first (h_s s) ((λ x, x + Cfg.H c) <$> k);
  let s := with_h_s s a in
  Some (with_h_s s (set_cols_back (h_s s)
    (where_ (arr_gt0 (cols_front (v_np1 s)))
       (arr_add_scal (cols_front (eta_n s)) (Cfg.H c))
       (arr_add_scal (cols_back (eta_n s)) (Cfg.H c))))).

(** lines 178-182 *)
Definition net_fluxes s : option (State F) :=
  r1 ← first (u_np1 s);
  r2 ← first (h_e s);
  a ← set_first (uhwe s) (zip_with fmul r1 r2);
  let s := with_uhwe s a in
  let s := with_uhwe s (set_back (uhwe s)
    (arr_sub (arr_mul (back (u_np1 s)) (back (h_e s)))
             (arr_mul (front (u_np1 s)) (back (h_w s))))) in
  k1 ← col_first (v_np1 s);
  k2 ← col_first (h_n s);
  a ← set_col_first (vhns s) (zip_with fmul k1 k2);
  let s := with_vhns s a in
  Some (with_vhns s (set_cols_back (vhns s)
    (arr_sub (arr_mul (cols_back (v_np1 s)) (cols_back (h_n s)))
             (arr_mul (cols_front (v_np1 s)) (cols_back (h_s s)))))).

(** lines 186-194 *)
Definition continuity s : State F :=
  let s := with_eta_np1 s (set_all2 (eta_np1 s)
    (arr_sub (eta_n s)
       (scal_mul (Cfg.dt c)
          (arr_add (arr_div_scal (uhwe s) (Cfg.dx c))
                   (arr_div_scal (vhns s) (Cfg.dy c)))))) in
  let s := if Cfg.use_source c
    then with_eta_np1 s (set_all2 (eta_np1 s)
           (arr_add (eta_np1 s) (scal_mul (Cfg.dt c) (Cfg.source c))))
    else s in
  if Cfg.use_sink c
    then with_eta_np1 s (set_all2 (eta_np1 s)
           (arr_sub (eta_np1 s) (scal_mul (Cfg.dt c) (Cfg.sink c))))
    else s.

(** lines 197-201: the [_n] names are rebound to fresh copies of the
    [_np1] buffers, which stay allocated, and the counter advances *)
Definition advance s : State F :=
  mkState F (u_np1 s) (u_np1 s) (v_np1 s) (v_np1 s) (eta_np1 s) (eta_np1 s)
    (h_e s) (h_w s) (h_n s) (h_s s) (uhwe s) (vhns s) (time_step s + 1)%Z.

Definition step s : option (State F) :=
  s ← boundary_conditions (coriolis_corrector (momentum_predictor s));
  s ← upwind_depths s;
  s ← net_fluxes s;
  Some (advance (continuity s)).

(** line 144: [while time_step < max_time_step].  The body can only raise
    IndexError (a first or last index on an empty axis). *)
Fixpoint main_loop (fuel : nat) s : outcome (State F) :=
  if (time_step s <? Cfg.max_time_step c)%Z then
    match fuel with
    | O => OutOfFuel
    | S fuel =>
        match step s with
        | Some s => main_loop fuel s
        | None => IndexError
        end
    end
  else Finished s.

(** [t] passes through the loop body, one after the other *)
Fixpoint steps (t : nat) s : option (State F) :=
  match t with
  | O => Some s
  | S t => s ← step s; steps t s
  end.
End Step.

(** ** Allocation and initial conditions (lines 87-112) *)

Section Init.
Context {F : Type} {SF : Scalar F}.

(** [np.zeros((n, m))] *)
Definition zeros (n m : nat) : list (list F) := replicate n (replicate m fzero).

(** Every array is allocated as zeros; [eta_n] is then rebound to the
    initial elevation [eta0], and the counter starts at 1 (line 52). *)
Definition init_state (n m : nat) (eta0 : list (list F)) : State F :=
  mkState F (zeros n m) (zeros n m) (zeros n m) (zeros n m) eta0 (zeros n m)
    (zeros n m) (zeros n m) (zeros n m) (zeros n m) (zeros n m) (zeros n m) 1.
End Init.

(** ** Vocabulary of the statements *)

(** Well-formed stores: every array of the script has the shape [(N_x, N_y)]
    it was allocated with.  numpy raises ValueError when two operands cannot
    be broadcast to one shape; on well-formed stores every operation of the
    loop body combines arrays of one shape. *)

Record wf {F : Type} (n m : nat) (s : State F) : Prop := mk_wf {
  wf_u_n : shape n m (u_n s);
  wf_u_np1 : shape n m (u_np1 s);
  wf_v_n : shape n m (v_n s);
  wf_v_np1 : shape n m (v_np1 s);
  wf_eta_n : shape n m (eta_n s);
  wf_eta_np1 : shape n m (eta_np1 s);
  wf_h_e : shape n m (h_e s);
  wf_h_w : shape n m (h_w s);
  wf_h_n : shape n m (h_n s);
  wf_h_s : shape n m (h_s s);
  wf_uhwe : shape n m (uhwe s);
  wf_vhns : shape n m (vhns s)
}.

(** [f], [source] and [sink] have the shapes the setup gives them, where
    the flags say they exist *)
Record wf_cfg {F : Type} (n m : nat) (c : Cfg.t F) : Prop := mk_wf_cfg {
  wf_f : Cfg.use_coriolis c = true → length (Cfg.f c) = m;
  wf_source : Cfg.use_source c = true → shape n m (Cfg.source c);
  wf_sink : Cfg.use_sink c = true → shape n m (Cfg.sink c)
}.

Section PassVocabulary.
Context {F : Type} {SF : Scalar F}.
Variable c : Cfg.t F.
Variables n m : nat.
Local Open Scope scalar_scope.
Implicit Types (s : State F).

(** the [np.where] of lines 166 and 170, and the one of lines 172 and 176 *)
Definition donor_x s : list (list F) :=
  where_ (arr_gt0 (front (u_np1 s)))
    (arr_add_scal (front (eta_n s)) (Cfg.H c))
    (arr_add_scal (back (eta_n s)) (Cfg.H c)).
Definition donor_y s : list (list F) :=
  where_ (arr_gt0 (cols_front (v_np1 s)))
    (arr_add_scal (cols_front (eta_n s)) (Cfg.H c))
    (arr_add_scal (cols_back (eta_n s)) (Cfg.H c)).

(** How the store [s'] left by one pass relates to the store [s] it started
    from, cell by cell. *)
Record stepped s s' : Prop := mk_stepped {
  st_wf : wf n m s';
  st_time : time_step s' = (time_step s + 1)%Z;
  st_u : ∀ i j, i < n → j < m →
    get (u_n s') i j =
      if decide (i = n - 1)%nat then fzero
      else get (u_np1 (coriolis_corrector c (momentum_predictor c s))) i j;
  st_v : ∀ i j, i < n → j < m →
    get (v_n s') i j =
      if decide (j = m - 1)%nat then fzero
      else get (v_np1 (coriolis_corrector c (momentum_predictor c s))) i j;
  st_h_e : ∀ i j, i < n → j < m →
    get (h_e s') i j =
      if decide (i + 1 < n) then
        if fgt (get (u_n s') i j) fzero
        then get (eta_n s) i j + Cfg.H c else get (eta_n s) (S i) j + Cfg.H c
      else get (eta_n s) i j + Cfg.H c;
  st_h_w : ∀ i j, i < n → j < m →
    get (h_w s') i j =
      match i with
      | O => get (eta_n s) 0 j + Cfg.H c
      | S i' => if fgt (get (u_n s') i' j) fzero
                then get (eta_n s) i' j + Cfg.H c else get (eta_n s) (S i') j + Cfg.H c
      end;
  st_h_n : ∀ i j, i < n → j < m →
    get (h_n s') i j =
      if decide (j + 1 < m) then
        if fgt (get (v_n s') i j) fzero
        then get (eta_n s) i j + Cfg.H c else get (eta_n s) i (S j) + Cfg.H c
      else get (eta_n s) i j + Cfg.H c;
  st_h_s : ∀ i j, i < n → j < m →
    get (h_s s') i j =
      match j with
      | O => get (eta_n s) i 0 + Cfg.H c
      | S j' => if fgt (get (v_n s') i j') fzero
                then get (eta_n s) i j' + Cfg.H c else get (eta_n s) i (S j') + Cfg.H c
      end;
  st_uhwe : ∀ i j, i < n → j < m →
    get (uhwe s') i j =
      match i with
      | O => get (u_n s') 0 j * get (h_e s') 0 j
      | S i' => get (u_n s') (S i') j * get (h_e s') (S i') j
                - get (u_n s') i' j * get (h_w s') (S i') j
      end;
  st_vhns : ∀ i j, i < n → j < m →
    get (vhns s') i j =
      match j with
      | O => get (v_n s') i 0 * get (h_n s') i 0
      | S j' => get (v_n s') i (S j') * get (h_n s') i (S j')
                - get (v_n s') i j' * get (h_s s') i (S j')
      end;
  st_eta : ∀ i j, i < n → j < m →
    get (eta_n s') i j =
      let e := get (eta_n s) i j
               - Cfg.dt c * (get (uhwe s') i j / Cfg.dx c + get (vhns s') i j / Cfg.dy c) in
      let e := if Cfg.use_source c then e + Cfg.dt c * get (Cfg.source c) i j else e in
      if Cfg.use_sink c then e - Cfg.dt c * get (Cfg.sink c) i j else e
}.
End PassVocabulary.

(** ** Exact arithmetic: the scalars are real numbers *)

#[export] Instance R_scalar : Scalar R := {|
  fzero := 0%R;
  fadd := Rplus;
  fsub := Rminus;
  fmul := Rmult;
  fdiv := Rdiv;
  fgt x y := if Rlt_dec y x then true else false
|}.

(** ** Exact arithmetic that computes: the scalars are rational numbers *)

#[export] Instance Q_scalar : Scalar Q := {|
  fzero := 0%Q;
  fadd x y := Qred (x + y);
  fsub x y := Qred (x - y);
  fmul x y := Qred (x * y);
  fdiv x y := Qred (x / y);
  fgt x y := match (x ?= y)%Q with Gt => true | _ => false end
|}.

Section RealSumDefs.
Local Open Scope R_scope.

(** [rsum f n] is [f 0 + ... + f (n - 1)] *)
Fixpoint rsum f n : R :=
  match n with
  | O => 0
  | S n => rsum f n + f n
  end.

(** sums over a grid *)
Definition rsum2 (h : nat → nat → R) n m : R := rsum (λ i, rsum (h i) m) n.
End RealSumDefs.

Section Forcing.
Variable c : Cfg.t R.
Local Open Scope R_scope.

(** the forcing a pass adds to the total of [eta] *)
Definition net_forcing : R :=
  (if Cfg.use_source c then Cfg.dt c * arr_sum (Cfg.source c) else 0)
  - (if Cfg.use_sink c then Cfg.dt c * arr_sum (Cfg.sink c) else 0).
End Forcing.

(** ** The parameter section of the script (lines 33-75) and its initial state *)

(** The literals the script starts from. *)
Module Par.
Record t := mk {
  L_x : R;
  L_y : R;
  g : R;
  H : R;
  f_0 : R;
  latitude : R;
  use_coriolis : bool;
  use_source : bool;
  use_sink : bool;
  N_x : Z;
  N_y : Z;
  max_time_step : Z
}.
End Par.

Module Setup.
Section Script.
Variable p : Par.t.
Local Open Scope R_scope.

(** lines 49-51 *)
Definition dx : R := Par.L_x p / IZR (Par.N_x p - 1).
Definition dy : R := Par.L_y p / IZR (Par.N_y p - 1).
Definition dt : R := 0.1 * Rmin dx dy / sqrt (Par.g p * Par.H p).

(** [np.linspace(a, b, N)], for [N >= 2] *)
Definition linspace (a b : R) (N : nat) : list R :=
  (λ k, INR k * ((b - a) / INR (N - 1)) + a) <$> seq 0 N.

(** lines 54-58: [X[i, j] = x[i]] and [Y[i, j] = y[j]] after the transposition *)
Definition x : list R := linspace (- Par.L_x p / 2) (Par.L_x p / 2) (Z.to_nat (Par.N_x p)).
Definition y : list R := linspace (- Par.L_y p / 2) (Par.L_y p / 2) (Z.to_nat (Par.N_y p)).
Definition X : list (list R) := (λ xi, (λ _, xi) <$> y) <$> x.
Definition Y : list (list R) := (λ _, y) <$> x.

(** [np.ones(...)] *)
Definition ones1 (m : nat) : list R := replicate m 1.
Definition ones (n m : nat) : list (list R) := replicate n (ones1 m).

(** line 63 *)
Definition f : list R := (λ o, Par.f_0 p * sin (Par.latitude p) * o) <$> ones1 (length y).

(** line 71 *)
Definition source : list (list R) :=
  zip_with (zip_with (λ X Y,
    0.0001 * exp (- ((X - Par.L_x p / 2) ^ 2 / (2 * 1E+5 ^ 2)
                     + (Y - Par.L_y p / 2) ^ 2 / (2 * 1E+5 ^ 2))))) X Y.

(** line 75 *)
Definition sink : list (list R) :=
  arr_div_scal (fmap (M := list) (λ o, o * arr_sum source)
                  <$> ones (Z.to_nat (Par.N_x p)) (Z.to_nat (Par.N_y p)))
               (IZR (Par.N_x p * Par.N_y p)).

(** line 112 *)
Definition eta_0 : list (list R) :=
  zip_with (zip_with (λ X Y,
    exp (- ((X - Par.L_x p / 2.7) ^ 2 / (2 * 0.05E+6 ^ 2)
            + (Y - Par.L_y p / 4) ^ 2 / (2 * 0.05E+6 ^ 2))))) X Y.

(** The names the loop will read.  [f], [source] and [sink] stay unbound
    in the script when their flag is off; they are then given as empty. *)
Definition config : Cfg.t R :=
  Cfg.mk R (Par.g p) (Par.H p) dt dx dy
    (Par.use_coriolis p) (Par.use_source p) (Par.use_sink p)
    (if Par.use_coriolis p then f else [])
    (if Par.use_source p then source else [])
    (if Par.use_sink p then sink else [])
    (Par.max_time_step p).

(** Everything before the loop.  The script raises before it reaches the
    loop when an axis has fewer than two points (ZeroDivisionError in
    line 49 or 50 for one point, IndexError in line 106 or 107 for none,
    ValueError in line 54 or 55 for a negative count) and when the sink is
    enabled without the source (NameError in line 75): [None]. *)
Definition setup : option (Cfg.t R * State R) :=
  if bool_decide (Par.N_x p ≤ 1)%Z || bool_decide (Par.N_y p ≤ 1)%Z then None
  else if Par.use_sink p && negb (Par.use_source p) then None
  else Some (config, init_state (Z.to_nat (Par.N_x p)) (Z.to_nat (Par.N_y p)) eta_0).
End Script.
End Setup.


(** ** Concrete configurations and stores *)

Section DemoDefs.
Local Open Scope R_scope.

(** a 2 x 2 grid with Coriolis on and no forcing *)
Definition demo_cfg : Cfg.t R :=
  Cfg.mk R 10 1 0.01 1 1 true false false [0.1; 0.1] [] [] 3.
Definition demo_state : State R := init_state 2 2 [[1; 0]; [0; 0]].

(** the same grid at rest *)
Definition rest_state : State R := init_state 2 2 (zeros 2 2).

(** the reference parameters of lines 33-53, and with source and sink on *)
Definition reference : Par.t :=
  Par.mk 1E+6 1E+6 9.81 100 (2 * PI / 12 / (60 * 60)) (PI / 4)
    true false false 150 150 500.
Definition reference_forced : Par.t :=
  Par.mk 1E+6 1E+6 9.81 100 (2 * PI / 12 / (60 * 60)) (PI / 4)
    true true true 150 150 500.

End DemoDefs.

Section ScenarioDefs.
Local Open Scope Q_scope.

(** a 4 x 4 grid with one raised cell, no Coriolis and no forcing *)
Definition scenario_cfg : Cfg.t Q :=
  Cfg.mk Q 10 1 0.01 1 1 false false false [] [] [] 3.
Definition scenario_state : State Q :=
  init_state 4 4 [[0; 0; 0; 0]; [0; 1; 0; 0]; [0; 0; 0; 0]; [0; 0; 0; 0]].

(** what is read off a store: [u[0, 1]], [v[1, 0]], [u[3, 1]], [v[1, 3]],
    [h_e[0, 1]], [h_w[1, 1]] and the total of [eta] *)
Definition readings (s : State Q) : list Q :=
  [get (u_n s) 0 1; get (v_n s) 1 0; get (u_n s) 3 1; get (v_n s) 1 3;
   get (h_e s) 0 1; get (h_w s) 1 1; arr_sum (eta_n s)].
End ScenarioDefs.

(** ** Sampling for the plots (lines 125-136 and 203-216) *)

(** The names the sampling code reads besides the store: the grid size and
    the two intervals (lines 47-48, 135-136). *)
Module Rec.
Record t := mk {
  N_x : nat;
  N_y : nat;
  anim_interval : Z;
  sample_interval : Z
}.
End Rec.

(** The lists the script appends to, and what it prints (lines 211-213:
    the time in hours, the counter and the total of [eta]).  An appended
    array is never assigned again: [u_n], [v_n], [eta_n] are rebound to
    fresh copies in every pass, so a list of values is a faithful image. *)
Record Samples {F : Type} := mkSamples {
  eta_list : list (list (list F));
  u_list : list (list (list F));
  v_list : list (list (list F));
  hm_sample : list (list F);
  ts_sample : list F;
  t_sample : list F;
  printed : list (F * Z * F)
}.
Global Arguments Samples : clear implicits.

(** the exceptions the sampled loop can raise *)
Inductive exn := ExIndexError | ExZeroDivisionError.

Inductive res (A : Type) :=
  | Ok (a : A)
  | Raise (e : exn).
Global Arguments Ok {A} a.
Global Arguments Raise {A} e.

Definition res_bind {A B : Type} (x : res A) (k : A → res B) : res B :=
  match x with
  | Ok a => k a
  | Raise e => Raise e
  end.

(** what running the sampled loop gives *)
Inductive run (A : Type) :=
  | Done (a : A)
  | Raised (e : exn)
  | NoFuel.
Global Arguments Done {A} a.
Global Arguments Raised {A} e.
Global Arguments NoFuel {A}.

Section Sampling.
Context {F : Type} {SF : Scalar F}.
(** the conversion of a Python int in [int * float] and [float / int] *)
Variable of_int : Z → F.
Variable c : Cfg.t F.
Variable r : Rec.t.
Local Open Scope scalar_scope.
Implicit Types (s : State F) (q : Samples F).

(** [a[:, k]] and [a[i, k]] on an array of [N_y] columns: IndexError when
    the index is out of range *)
Definition read_col (a : list (list F)) (k : nat) : res (list F) :=
  if decide (k < Rec.N_y r)%nat then
    match mapM (λ row : list F, row !! k) a with
    | Some col => Ok col
    | None => Raise ExIndexError
    end
  else Raise ExIndexError.
Definition read_cell (a : list (list F)) (i k : nat) : res F :=
  match a !! i ≫= (.!! k) with
  | Some x => Ok x
  | None => Raise ExIndexError
  end.

(** [a % b]: ZeroDivisionError when [b] is zero *)
Definition py_mod (a b : Z) : res Z :=
  if decide (b = 0)%Z then Raise ExZeroDivisionError else Ok (a mod b)%Z.

(** lines 126-134; [int(N / 2)] is [N // 2] for a count [N] *)
Definition initial_samples s : res (Samples F) :=
  res_bind (read_col (eta_n s) (Rec.N_y r / 2)) (λ col,
  res_bind (read_cell (eta_n s) (Rec.N_x r / 2) (Rec.N_y r / 2)) (λ x,
  Ok (mkSamples F [] [] [] [col] [x] [fzero] []))).

(** lines 204-207 *)
Definition sample_series s q : res (Samples F) :=
  res_bind (py_mod (time_step s) (Rec.sample_interval r)) (λ k,
  if decide (k = 0)%Z then
    res_bind (read_col (eta_n s) (Rec.N_y r / 2)) (λ col,
    res_bind (read_cell (eta_n s) (Rec.N_x r / 2) (Rec.N_y r / 2)) (λ x,
    Ok (mkSamples F (eta_list q) (u_list q) (v_list q)
          (hm_sample q ++ [col]) (ts_sample q ++ [x])
          (t_sample q ++ [of_int (time_step s) * Cfg.dt c]) (printed q))))
  else Ok q).

(** lines 210-216 *)
Definition sample_animation s q : res (Samples F) :=
  res_bind (py_mod (time_step s) (Rec.anim_interval r)) (λ k,
  if decide (k = 0)%Z then
    Ok (mkSamples F (eta_list q ++ [eta_n s]) (u_list q ++ [u_n s])
          (v_list q ++ [v_n s]) (hm_sample q) (ts_sample q) (t_sample q)
          (printed q ++ [(of_int (time_step s) * Cfg.dt c / of_int 3600,
                          time_step s, arr_sum (eta_n s))]))
  else Ok q).

(** lines 150-216: the pass of the loop body followed by the sampling *)
Definition sampled_pass (sq : State F * Samples F) : res (State F * Samples F) :=
  match step c sq.1 with
  | None => Raise ExIndexError
  | Some s =>
      res_bind (sample_series s sq.2) (λ q,
      res_bind (sample_animation s q) (λ q, Ok (s, q)))
  end.

(** line 144 with the whole body *)
Fixpoint sampled_loop (fuel : nat) (sq : State F * Samples F)
    : run (State F * Samples F) :=
  if (time_step sq.1 <? Cfg.max_time_step c)%Z then
    match fuel with
    | O => NoFuel
    | S fuel =>
        match sampled_pass sq with
        | Ok sq => sampled_loop fuel sq
        | Raise e => Raised e
        end
    end
  else Done sq.

(** [t] sampled passes, one after the other *)
Fixpoint sampled_passes (t : nat) (sq : State F * Samples F)
    : res (State F * Samples F) :=
  match t with
  | O => Ok sq
  | S t => res_bind (sampled_pass sq) (sampled_passes t)
  end.

(** the store after [t] passes, and [s] itself where a pass raises *)
Definition after (t : nat) s : State F := default s (steps c t s).

(** the passes [p] among the first [t] that leave the counter at a multiple of [a] *)
Definition passes_at (a : Z) s (t : nat) : list nat :=
  filter (λ p, (time_step s + Z.of_nat p) mod a = 0)%Z (seq 1 t).
End Sampling.

(** the intervals of lines 135-136 on the reference grid, and on a 2 x 2 grid *)
Definition reference_rec : Rec.t := Rec.mk 150 150 20 1000.
Definition demo_rec : Rec.t := Rec.mk 2 2 2 3.

(** ** Further concrete configurations and stores *)

Section FurtherDefs.
Local Open Scope R_scope.

(** the 2 x 2 store with its scratch arrays and buffers holding leftovers *)
Definition demo_state_used : State R :=
  with_u_np1 (with_h_e (with_uhwe demo_state [[7; 7]; [7; 7]]) [[5; 5]; [5; 5]])
    [[3; 3]; [3; 3]].

(** the 2 x 2 grid at rest under a surface raised by 0.5 everywhere *)
Definition level_state : State R := init_state 2 2 (replicate 2 (replicate 2 0.5)).

(** the 2 x 2 configuration without Coriolis *)
Definition demo_cfg_plain : Cfg.t R :=
  Cfg.mk R 10 1 0.01 1 1 false false false [] [] [] 3.

(** the 2 x 2 configuration with a source and a sink *)
Definition forced_cfg : Cfg.t R :=
  Cfg.mk R 10 1 0.01 1 1 true true true [0.1; 0.1]
    [[1; 2]; [3; 4]] [[0.5; 0.5]; [0.5; 0.5]] 3.

(** a store on a grid without rows *)
Definition empty_state : State R := init_state 0 2 [].

(** nothing recorded yet *)
Definition no_samples : Samples R := mkSamples R [] [] [] [] [] [] [].

(** the reference parameters with the source on and the sink off *)
Definition reference_source : Par.t :=
  Par.mk 1E+6 1E+6 9.81 100 (2 * PI / 12 / (60 * 60)) (PI / 4)
    true true false 150 150 500.
End FurtherDefs.

(** the 2 x 2 intervals with the animation interval set to zero *)
Definition demo_rec_zero : Rec.t := Rec.mk 2 2 0 3.

(** ** The arrays as objects (lines 87-112 and 150-201)

    The store above gives every name its own value.  In the script a name is
    bound to an array object, a slice assignment writes into the object of
    its target, and two names bound to one object would see each other's
    writes.  Here the objects live in a heap addressed by natural numbers:
    a name is bound to an address, an assignment replaces the contents at
    the address of its target after its right-hand side has been evaluated,
    and [np.copy] allocates a new object.  Nothing is ever freed, so an
    object that a list still refers to stays where it is. *)

(** the names of the arrays the loop body reads and assigns *)
Inductive name :=
  | U_n | U_np1 | V_n | V_np1 | Eta_n | Eta_np1
  | H_e | H_w | H_n | H_s | Uhwe | Vhns.

Global Instance name_eq_dec : EqDecision name := ltac:(solve_decision).

(** the object each name is bound to, the objects by address, and
    [time_step] *)
Record Mem {F : Type} := mkMem {
  env : name → nat;
  heap : list (list (list F));
  counter : Z
}.
Global Arguments Mem : clear implicits.

(** the names a pass assigns into: the [_np1] buffers and the scratch
    arrays; [u_n], [v_n] and [eta_n] are only rebound *)
Definition buffer (x : name) : bool :=
  match x with
  | U_n | V_n | Eta_n => false
  | _ => true
  end.

Section Memory.
Context {F : Type} {SF : Scalar F}.
Variable c : Cfg.t F.
Local Open Scope scalar_scope.
Implicit Types (μ : Mem F) (a : list (list F)).

(** the array a name is bound to *)
Definition rd (x : name) μ : list (list F) := default [] (heap μ !! env μ x).

(** an assignment into the object of [x], [a] being what the object holds
    afterwards *)
Definition wr (x : name) a μ : Mem F :=
  mkMem F (env μ) (<[env μ x := a]> (heap μ)) (counter μ).

(** [x = np.copy(y)]: a new object with the contents of [y], bound to [x] *)
Definition bind_copy (x y : name) μ : Mem F :=
  mkMem F (λ z, if decide (z = x) then length (heap μ) else env μ z)
    (heap μ ++ [rd y μ]) (counter μ).

(** what the names hold, as a store of values *)
Definition values μ : State F :=
  mkState F (rd U_n μ) (rd U_np1 μ) (rd V_n μ) (rd V_np1 μ) (rd Eta_n μ) (rd Eta_np1 μ)
    (rd H_e μ) (rd H_w μ) (rd H_n μ) (rd H_s μ) (rd Uhwe μ) (rd Vhns μ) (counter μ).

(** lines 150-151 *)
Definition momentum_predictor_m μ : Mem F :=
  let μ := wr U_np1 (set_front (rd U_np1 μ)
    (arr_sub (front (rd U_n μ))
       (scal_mul (Cfg.g c * Cfg.dt c / Cfg.dx c)
          (arr_sub (back (rd Eta_n μ)) (front (rd Eta_n μ)))))) μ in
  wr V_np1 (set_cols_front (rd V_np1 μ)
    (arr_sub (cols_front (rd V_n μ))
       (scal_mul (Cfg.g c * Cfg.dt c / Cfg.dy c)
          (arr_sub (cols_back (rd Eta_n μ)) (cols_front (rd Eta_n μ)))))) μ.

(** lines 154-156 *)
Definition coriolis_corrector_m μ : Mem F :=
  if Cfg.use_coriolis c then
    let μ := wr U_np1 (set_all2 (rd U_np1 μ)
               (arr_add (rd U_np1 μ) (row_mul (Cfg.f c) (rd V_n μ)))) μ in
    wr V_np1 (set_all2 (rd V_np1 μ)
               (arr_sub (rd V_np1 μ) (row_mul (Cfg.f c) (rd U_n μ)))) μ
  else μ.

(** lines 158-159 *)
Definition boundary_conditions_m μ : option (Mem F) :=
  v ← set_col_final (rd V_np1 μ) ((λ _, fzero) <$> rd V_np1 μ);
  let μ := wr V_np1 v μ in
  r ← final (rd U_np1 μ);
  u ← set_final (rd U_np1 μ) ((λ _, fzero) <$> r);
  Some (wr U_np1 u μ).

(** lines 166-176 *)
Definition upwind_depths_m μ : option (Mem F) :=
  let μ := wr H_e (set_front (rd H_e μ)
    (where_ (arr_gt0 (front (rd U_np1 μ)))
       (arr_add_scal (front (rd Eta_n μ)) (Cfg.H c))
       (arr_add_scal (back (rd Eta_n μ)) (Cfg.H c)))) μ in
  r ← final (rd Eta_n μ);
  a ← set_final (rd H_e μ) ((λ x, x + Cfg.H c) <$> r);
  let μ := wr H_e a μ in
  r ← first (rd Eta_n μ);
  a ← set_first (rd H_w μ) ((λ x, x + Cfg.H c) <$> r);
  let μ := wr H_w a μ in
  let μ := wr H_w (set_back (rd H_w μ)
    (where_ (arr_gt0 (front (rd U_np1 μ)))
       (arr_add_scal (front (rd Eta_n μ)) (Cfg.H c))
       (arr_add_scal (back (rd Eta_n μ)) (Cfg.H c)))) μ in
  let μ := wr H_n (set_cols_front (rd H_n μ)
    (where_ (arr_gt0 (cols_front (rd V_np1 μ)))
       (arr_add_scal (cols_front (rd Eta_n μ)) (Cfg.H c))
       (arr_add_scal (cols_back (rd Eta_n μ)) (Cfg.H c)))) μ in
  k ← col_final (rd Eta_n μ);
  a ← set_col_final (rd H_n μ) ((λ x, x + Cfg.H c) <$> k);
  let μ := wr H_n a μ in
  k ← col_first (rd Eta_n μ);
  a ← set_col_first (rd H_s μ) ((λ x, x + Cfg.H c) <$> k);
  let μ := wr H_s a μ in
  Some (wr H_s (set_cols_back (rd H_s μ)
    (where_ (arr_gt0 (cols_front (rd V_np1 μ)))
       (arr_add_scal (cols_front (rd Eta_n μ)) (Cfg.H c))
       (arr_add_scal (cols_back (rd Eta_n μ)) (Cfg.H c)))) μ).

(** lines 178-182 *)
Definition net_fluxes_m μ : option (Mem F) :=
  r1 ← first (rd U_np1 μ);
  r2 ← first (rd H_e μ);
  a ← set_first (rd Uhwe μ) (zip_with fmul r1 r2);
  let μ := wr Uhwe a μ in
  let μ := wr Uhwe (set_back (rd Uhwe μ)
    (arr_sub (arr_mul (back (rd U_np1 μ)) (back (rd H_e μ)))
             (arr_mul (front (rd U_np1 μ)) (back (rd H_w μ))))) μ in
  k1 ← col_first (rd V_np1 μ);
  k2 ← col_first (rd H_n μ);
  a ← set_col_first (rd Vhns μ) (zip_with fmul k1 k2);
  let μ := wr Vhns a μ in
  Some (wr Vhns (set_cols_back (rd Vhns μ)
    (arr_sub (arr_mul (cols_back (rd V_np1 μ)) (cols_back (rd H_n μ)))
             (arr_mul (cols_front (rd V_np1 μ)) (cols_back (rd H_s μ))))) μ).

(** lines 186-194 *)
Definition continuity_m μ : Mem F :=
  let μ := wr Eta_np1 (set_all2 (rd Eta_np1 μ)
    (arr_sub (rd Eta_n μ)
       (scal_mul (Cfg.dt c)
          (arr_add (arr_div_scal (rd Uhwe μ) (Cfg.dx c))
                   (arr_div_scal (rd Vhns μ) (Cfg.dy c)))))) μ in
  let μ := if Cfg.use_source c
    then wr Eta_np1 (set_all2 (rd Eta_np1 μ)
           (arr_add (rd Eta_np1 μ) (scal_mul (Cfg.dt c) (Cfg.source c)))) μ
    else μ in
  if Cfg.use_sink c
    then wr Eta_np1 (set_all2 (rd Eta_np1 μ)
           (arr_sub (rd Eta_np1 μ) (scal_mul (Cfg.dt c) (Cfg.sink c)))) μ
    else μ.

(** lines 197-201 *)
Definition advance_m μ : Mem F :=
  let μ := bind_copy U_n U_np1 μ in
  let μ := bind_copy V_n V_np1 μ in
  let μ := bind_copy Eta_n Eta_np1 μ in
  mkMem F (env μ) (heap μ) (counter μ + 1)%Z.

Definition step_m μ : option (Mem F) :=
  μ ← boundary_conditions_m (coriolis_corrector_m (momentum_predictor_m μ));
  μ ← upwind_depths_m μ;
  μ ← net_fluxes_m μ;
  Some (advance_m (continuity_m μ)).

Fixpoint steps_m (t : nat) μ : option (Mem F) :=
  match t with
  | O => Some μ
  | S t => μ ← step_m μ; steps_m t μ
  end.

(** lines 87-101 and 112: thirteen arrays of zeros, in the order of their
    allocation ([bed] of line 93 is the seventh; the body does not name it),
    then the array of line 112, to which [eta_n] is rebound; the assignments
    of lines 104-107 store zeros into arrays of zeros *)
Definition init_mem (n m : nat) (eta0 : list (list F)) : Mem F :=
  mkMem F
    (λ x, match x with
          | U_n => 0 | U_np1 => 1 | V_n => 2 | V_np1 => 3
          | Eta_n => 13 | Eta_np1 => 5
          | H_e => 7 | H_w => 8 | H_n => 9 | H_s => 10 | Uhwe => 11 | Vhns => 12
          end)
    (replicate 13 (zeros n m) ++ [eta0]) 1.
End Memory.

(** the names are bound to allocated objects, no two to the same one *)
Record separate {F : Type} (μ : Mem F) : Prop := mk_separate {
  sep_inj : ∀ x y, env μ x = env μ y → x = y;
  sep_alloc : ∀ x, env μ x < length (heap μ)
}.

(** [μ'] is [μ] after assignments into buffers only *)
Record writes {F : Type} (μ μ' : Mem F) : Prop := mk_writes {
  wr_env : env μ' = env μ;
  wr_length : length (heap μ') = length (heap μ);
  wr_counter : counter μ' = counter μ;
  wr_frame : ∀ l, (∀ x, buffer x = true → env μ x ≠ l) → heap μ' !! l = heap μ !! l
}.

(** what an optional result of assignments into buffers satisfies *)
Definition writes_opt {F : Type} (μ : Mem F) (o : option (Mem F)) : Prop :=
  ∀ μ', o = Some μ' → writes μ μ'.

(** [μ'] is [μ] after whole passes: the buffers are the same objects, no
    object is freed, and an object of [μ] that is not a buffer holds what
    it held *)
Record kept {F : Type} (μ μ' : Mem F) : Prop := mk_kept {
  kp_env : ∀ x, buffer x = true → env μ' x = env μ x;
  kp_length : length (heap μ) ≤ length (heap μ');
  kp_frame : ∀ l, l < length (heap μ) →
    (∀ x, buffer x = true → env μ x ≠ l) → heap μ' !! l = heap μ !! l
}.

Section MemoryDemo.
Local Open Scope Q_scope.

(** a 2 x 2 grid with Coriolis, one raised cell, and two memories for it:
    the one the script allocates, and one in which [u_n] names the object
    of [u_np1] *)
Definition alias_cfg : Cfg.t Q :=
  Cfg.mk Q 10 1 0.01 1 1 true false false [0.1; 0.1] [] [] 3.
Definition fresh_mem : Mem Q := init_mem 2 2 [[1; 0]; [0; 0]].
Definition alias_mem : Mem Q :=
  mkMem Q (λ x, match x with U_n => env fresh_mem U_np1 | _ => env fresh_mem x end)
    (heap fresh_mem) (counter fresh_mem).
End MemoryDemo.

(** ** Vocabulary of the further properties *)

Section SamplingVocabulary.
Context {F : Type} {SF : Scalar F}.
Variable of_int : Z → F.
Variable c : Cfg.t F.
Variable r : Rec.t.
Variables n m : nat.
Local Open Scope scalar_scope.
Implicit Types (s : State F) (q : Samples F).

(** what one round of sampling appends, when nothing raises *)
Definition appended s q : Samples F :=
  let k := Rec.sample_interval r in
  let a := Rec.anim_interval r in
  let series := bool_decide (time_step s mod k = 0)%Z in
  let anim := bool_decide (time_step s mod a = 0)%Z in
  mkSamples F
    (eta_list q ++ if anim then [eta_n s] else [])
    (u_list q ++ if anim then [u_n s] else [])
    (v_list q ++ if anim then [v_n s] else [])
    (hm_sample q ++ if series then [(λ row, get1 row (m / 2)) <$> eta_n s] else [])
    (ts_sample q ++ if series then [get (eta_n s) (n / 2) (m / 2)] else [])
    (t_sample q ++ if series then [of_int (time_step s) * Cfg.dt c] else [])
    (printed q ++ if anim
       then [(of_int (time_step s) * Cfg.dt c / of_int 3600,
              time_step s, arr_sum (eta_n s))]
       else []).

(** The lists [q'] are the lists [q] extended, in the order of the passes,
    by what the first [t] passes from the store [s] give to record: the
    animation lists and the printed lines at the passes that leave the
    counter at a multiple of [anim_interval], the series at those that
    leave it at a multiple of [sample_interval]. *)
Record recorded s (t : nat) q q' : Prop := mk_recorded {
  rec_eta : eta_list q' = eta_list q ++
    ((λ p, eta_n (after c p s)) <$> passes_at (Rec.anim_interval r) s t);
  rec_u : u_list q' = u_list q ++
    ((λ p, u_n (after c p s)) <$> passes_at (Rec.anim_interval r) s t);
  rec_v : v_list q' = v_list q ++
    ((λ p, v_n (after c p s)) <$> passes_at (Rec.anim_interval r) s t);
  rec_printed : printed q' = printed q ++
    ((λ p, (of_int (time_step s + Z.of_nat p) * Cfg.dt c / of_int 3600,
            (time_step s + Z.of_nat p)%Z, arr_sum (eta_n (after c p s))))
       <$> passes_at (Rec.anim_interval r) s t);
  rec_hm : hm_sample q' = hm_sample q ++
    ((λ p, (λ row, get1 row (m / 2)) <$> eta_n (after c p s))
       <$> passes_at (Rec.sample_interval r) s t);
  rec_ts : ts_sample q' = ts_sample q ++
    ((λ p, get (eta_n (after c p s)) (n / 2) (m / 2))
       <$> passes_at (Rec.sample_interval r) s t);
  rec_t : t_sample q' = t_sample q ++
    ((λ p, of_int (time_step s + Z.of_nat p) * Cfg.dt c)
       <$> passes_at (Rec.sample_interval r) s t)
}.
End SamplingVocabulary.

(** * Properties *)

(** ** Shapes and element access of the array operations *)

Create HintDb shape discriminated.

(** slices and slice assignments along one axis *)
Section SliceFacts.
Context {A : Type}.
Implicit Types (a b : list A) (i : nat).

Lemma length_front a : length (front a) = length a - 1.
Proof. unfold front. rewrite length_take. lia. Qed.

Lemma length_back a : length (back a) = length a - 1.
Proof. unfold back. by rewrite length_drop. Qed.

Lemma lookup_front a i : i < length a - 1 → front a !! i = a !! i.
Proof. intros Hi. unfold front. rewrite lookup_take. by case_decide. Qed.

Lemma lookup_back a i : back a !! i = a !! S i.
Proof. unfold back. by rewrite lookup_drop. Qed.

Lemma first_lookup a : first a = a !! 0.
Proof. by destruct a. Qed.

Lemma final_lookup a : final a = a !! (length a - 1).
Proof. unfold final. rewrite last_lookup. f_equal. lia. Qed.

Lemma length_set_front a b :
  length b = length a - 1 → length (set_front a b) = length a.
Proof. intros Hb. unfold set_front. rewrite length_app, length_drop. lia. Qed.

Lemma lookup_set_front_lt a b i : i < length b → set_front a b !! i = b !! i.
Proof. intros Hi. unfold set_front. by rewrite lookup_app_l. Qed.

Lemma lookup_set_front_last a b :
  length b = length a - 1 →
  set_front a b !! (length a - 1) = a !! (length a - 1).
Proof.
  intros Hb. unfold set_front. rewrite lookup_app_r by lia.
  rewrite lookup_drop. f_equal. lia.
Qed.

Lemma length_set_back a b :
  length b = length a - 1 → length (set_back a b) = length a.
Proof. intros Hb. unfold set_back. rewrite length_app, length_take. lia. Qed.

Lemma lookup_set_back_0 a b : 0 < length a → set_back a b !! 0 = a !! 0.
Proof. destruct a; simpl; [lia|done]. Qed.

Lemma lookup_set_back_S a b i : 0 < length a → set_back a b !! S i = b !! i.
Proof. intros Ha. destruct a as [|x a]; simpl in *; [lia|done]. Qed.

Lemma set_first_Some a x : 0 < length a → set_first a x = Some (x :: back a).
Proof. destruct a; simpl; [lia|done]. Qed.

Lemma set_final_Some a x : 0 < length a → set_final a x = Some (front a ++ [x]).
Proof. destruct a; simpl; [lia|done]. Qed.

Lemma lookup_put_final_lt a x i :
  i < length a - 1 → (front a ++ [x]) !! i = a !! i.
Proof.
  intros Hi. rewrite lookup_app_l by (rewrite length_front; lia).
  by apply lookup_front.
Qed.

Lemma lookup_put_final_last a x : (front a ++ [x]) !! (length a - 1) = Some x.
Proof.
  rewrite lookup_app_r by (rewrite length_front; lia).
  rewrite length_front. by replace (length a - 1 - (length a - 1)) with 0 by lia.
Qed.

Lemma length_put_final a x : 0 < length a → length (front a ++ [x]) = length a.
Proof. intros Ha. rewrite length_app, length_front. simpl. lia. Qed.

Lemma length_put_first a x : 0 < length a → length (x :: back a) = length a.
Proof. intros Ha. simpl. rewrite length_back. lia. Qed.

End SliceFacts.

(** a row-by-row assignment that cannot fail gives the row-by-row result *)
Lemma mapM_zip_Some {A B C} (h : A * B → option C) (h' : A → B → C)
    (a : list A) (k : list B) :
  Forall (λ r, ∀ x, h (r, x) = Some (h' r x)) a →
  mapM h (zip a k) = Some (zip_with h' a k).
Proof.
  intros Ha. apply mapM_Some_2. revert k.
  induction Ha as [|r a Hr Ha IH]; intros [|x k]; simpl; try constructor; auto.
Qed.

Lemma mapM_fmap_Some {A B} (h : A → option B) (h' : A → B) (a : list A) :
  Forall (λ r, h r = Some (h' r)) a → mapM h a = Some (h' <$> a).
Proof.
  intros Ha. apply mapM_Some_2.
  induction Ha as [|r a Hr Ha IH]; simpl; constructor; auto.
Qed.

Section ArrayFacts.
Context {F : Type} {SF : Scalar F}.
Implicit Types (a b : list (list F)) (i j n m : nat).

Lemma get_row a (r : list F) i j : a !! i = Some r → get a i j = get1 r j.
Proof. intros E. unfold get, get1. by rewrite E. Qed.

Lemma get1_lookup (r : list F) j x : r !! j = Some x → get1 r j = x.
Proof. intros E. unfold get1. by rewrite E. Qed.

Lemma shape_row {B} n m (a : list (list B)) i :
  shape n m a → i < n → ∃ r, a !! i = Some r ∧ length r = m.
Proof.
  intros [Hn Hm] Hi. destruct (lookup_lt_is_Some_2 a i) as [r E]; [lia|].
  exists r. split; [done|]. by apply (Forall_lookup_1 _ _ _ _ Hm E).
Qed.

Lemma shape_cell n m a i j :
  shape n m a → i < n → j < m →
  ∃ r x, a !! i = Some r ∧ length r = m ∧ r !! j = Some x ∧ get a i j = x.
Proof.
  intros Ha Hi Hj. destruct (shape_row _ _ _ _ Ha Hi) as (r & E & Hr).
  destruct (lookup_lt_is_Some_2 r j) as [x Ex]; [lia|].
  exists r, x. repeat split; try done. rewrite (get_row _ _ _ _ E). by apply get1_lookup.
Qed.

Lemma shape_length {B} n m (a : list (list B)) : shape n m a → length a = n.
Proof. by intros [? _]. Qed.

Lemma shape_cons_inv {B} n m (r : list B) (a : list (list B)) :
  shape n m (r :: a) → length r = m ∧ shape (n - 1) m a ∧ n = S (n - 1).
Proof.
  intros [Hn Hm]. simpl in Hn. apply Forall_cons in Hm as [Hr Hm].
  repeat split; try done; lia.
Qed.

(** element-wise operations *)
Lemma shape_zip_with2 {B C D} (f : B → C → D) n m
    (a : list (list B)) (b : list (list C)) :
  shape n m a → shape n m b → shape n m (zip_with (zip_with f) a b).
Proof.
  intros [Ha Ha'] [Hb Hb']. split.
  - rewrite length_zip_with. lia.
  - apply Forall_forall. intros r Hr.
    apply elem_of_lookup_zip_with in Hr as (i & x & y & -> & Hx & Hy).
    rewrite length_zip_with.
    rewrite (Forall_lookup_1 _ _ _ _ Ha' Hx), (Forall_lookup_1 _ _ _ _ Hb' Hy). lia.
Qed.

Lemma shape_fmap2 {B C} (h : B → C) n m (a : list (list B)) :
  shape n m a → shape n m (fmap (M := list) h <$> a).
Proof.
  intros [Ha Ha']. split.
  - by rewrite length_fmap.
  - apply Forall_fmap. eapply Forall_impl; [exact Ha'|].
    intros r Hr. simpl. by rewrite length_fmap.
Qed.

Lemma get_zip_with2 (f : F → F → F) n m a b i j :
  shape n m a → shape n m b → i < n → j < m →
  get (zip_with (zip_with f) a b) i j = f (get a i j) (get b i j).
Proof.
  intros Ha Hb Hi Hj.
  destruct (shape_cell _ _ _ _ _ Ha Hi Hj) as (ra & x & Ea & _ & Ex & ->).
  destruct (shape_cell _ _ _ _ _ Hb Hi Hj) as (rb & y & Eb & _ & Ey & ->).
  unfold get. rewrite lookup_zip_with, Ea, Eb. simpl.
  by rewrite lookup_zip_with, Ex, Ey.
Qed.

Lemma get_fmap2 (h : F → F) n m a i j :
  shape n m a → i < n → j < m →
  get (fmap (M := list) h <$> a) i j = h (get a i j).
Proof.
  intros Ha Hi Hj.
  destruct (shape_cell _ _ _ _ _ Ha Hi Hj) as (ra & x & Ea & _ & Ex & ->).
  unfold get. rewrite list_lookup_fmap, Ea. simpl.
  by rewrite list_lookup_fmap, Ex.
Qed.

(** slices *)
Lemma shape_front {B} n m (a : list (list B)) : shape n m a → shape (n - 1) m (front a).
Proof.
  intros [Hn Hm]. split; [rewrite length_front; lia|]. by apply Forall_take.
Qed.

Lemma shape_back {B} n m (a : list (list B)) : shape n m a → shape (n - 1) m (back a).
Proof.
  intros [Hn Hm]. split; [rewrite length_back; lia|]. by apply Forall_drop.
Qed.

Lemma shape_cols_front {B} n m (a : list (list B)) :
  shape n m a → shape n (m - 1) (cols_front a).
Proof.
  intros [Hn Hm]. split; [unfold cols_front; by rewrite length_fmap|].
  apply Forall_fmap. eapply Forall_impl; [exact Hm|].
  intros r Hr. simpl in *. rewrite length_front. lia.
Qed.

Lemma shape_cols_back {B} n m (a : list (list B)) :
  shape n m a → shape n (m - 1) (cols_back a).
Proof.
  intros [Hn Hm]. split; [unfold cols_back; by rewrite length_fmap|].
  apply Forall_fmap. eapply Forall_impl; [exact Hm|].
  intros r Hr. simpl in *. rewrite length_back. lia.
Qed.

Lemma get_front a i j : i < length a - 1 → get (front a) i j = get a i j.
Proof. intros Hi. unfold get. by rewrite lookup_front. Qed.

Lemma get_back a i j : get (back a) i j = get a (S i) j.
Proof. unfold get. by rewrite lookup_back. Qed.

Lemma get_cols_front n m a i j :
  shape n m a → i < n → j < m - 1 → get (cols_front a) i j = get a i j.
Proof.
  intros Ha Hi Hj. destruct (shape_row _ _ _ _ Ha Hi) as (r & E & Hr).
  unfold get, cols_front. rewrite list_lookup_fmap, E. simpl.
  by rewrite lookup_front by lia.
Qed.

Lemma get_cols_back a i j : get (cols_back a) i j = get a i (S j).
Proof.
  unfold get, cols_back. rewrite list_lookup_fmap.
  destruct (a !! i) as [r|]; simpl; [|done]. by rewrite lookup_back.
Qed.

(** slice assignments *)
Lemma shape_set_front {B} n m (a b : list (list B)) :
  shape n m a → shape (n - 1) m b → shape n m (set_front a b).
Proof.
  intros [Hn Hm] [Hn' Hm']. split; [rewrite length_set_front; lia|].
  apply Forall_app. split; [done|]. by apply Forall_drop.
Qed.

Lemma shape_set_back {B} n m (a b : list (list B)) :
  shape n m a → shape (n - 1) m b → shape n m (set_back a b).
Proof.
  intros [Hn Hm] [Hn' Hm']. split; [rewrite length_set_back; lia|].
  apply Forall_app. split; [|done]. by apply Forall_take.
Qed.

Lemma shape_zip_rows {B} (h : list B → list B → list B) n m m' (a b : list (list B)) :
  (∀ r r', length r = m → length r' = m' → length (h r r') = m) →
  shape n m a → shape n m' b → shape n m (zip_with h a b).
Proof.
  intros Hh [Ha Ha'] [Hb Hb']. split; [rewrite length_zip_with; lia|].
  apply Forall_forall. intros r Hr.
  apply elem_of_lookup_zip_with in Hr as (i & x & y & -> & Hx & Hy).
  apply Hh; [exact (Forall_lookup_1 _ _ _ _ Ha' Hx)|exact (Forall_lookup_1 _ _ _ _ Hb' Hy)].
Qed.

Lemma shape_set_cols_front {B} n m (a b : list (list B)) :
  shape n m a → shape n (m - 1) b → shape n m (set_cols_front a b).
Proof.
  apply shape_zip_rows. intros r r' Hr Hr'. rewrite length_set_front; lia.
Qed.

Lemma shape_set_cols_back {B} n m (a b : list (list B)) :
  shape n m a → shape n (m - 1) b → shape n m (set_cols_back a b).
Proof.
  apply shape_zip_rows. intros r r' Hr Hr'. rewrite length_set_back; lia.
Qed.

Lemma shape_set_all2 {B} n m (a b : list (list B)) :
  shape n m a → shape n m b → shape n m (set_all2 a b).
Proof. apply shape_zip_with2. Qed.

Lemma shape_put_final {B} n m (a : list (list B)) (r : list B) :
  shape n m a → 0 < n → length r = m → shape n m (front a ++ [r]).
Proof.
  intros [Hn Hm] Hp Hr. split; [rewrite length_put_final; lia|].
  apply Forall_app. split; [by apply Forall_take|]. by constructor.
Qed.

Lemma shape_put_first {B} n m (a : list (list B)) (r : list B) :
  shape n m a → 0 < n → length r = m → shape n m (r :: back a).
Proof.
  intros [Hn Hm] Hp Hr. split; [rewrite length_put_first; lia|].
  constructor; [done|]. by apply Forall_drop.
Qed.

Lemma shape_put_col_final {B} n m (a : list (list B)) (k : list B) :
  shape n m a → 0 < m → length k = n →
  shape n m (zip_with (λ r x, front r ++ [x]) a k).
Proof.
  intros [Ha Ha'] Hp Hk. split; [rewrite length_zip_with; lia|].
  apply Forall_forall. intros r Hr.
  apply elem_of_lookup_zip_with in Hr as (i & x & y & -> & Hx & Hy).
  rewrite length_put_final; rewrite (Forall_lookup_1 _ _ _ _ Ha' Hx); lia.
Qed.

Lemma shape_put_col_first {B} n m (a : list (list B)) (k : list B) :
  shape n m a → 0 < m → length k = n →
  shape n m (zip_with (λ r x, x :: back r) a k).
Proof.
  intros [Ha Ha'] Hp Hk. split; [rewrite length_zip_with; lia|].
  apply Forall_forall. intros r Hr.
  apply elem_of_lookup_zip_with in Hr as (i & x & y & -> & Hx & Hy).
  rewrite length_put_first; rewrite (Forall_lookup_1 _ _ _ _ Ha' Hx); lia.
Qed.

Lemma get_set_front_lt a b i j :
  i < length b → get (set_front a b) i j = get b i j.
Proof. intros Hi. unfold get. by rewrite lookup_set_front_lt. Qed.

Lemma get_set_front_last a b j :
  length b = length a - 1 →
  get (set_front a b) (length a - 1) j = get a (length a - 1) j.
Proof. intros Hb. unfold get. by rewrite lookup_set_front_last. Qed.

Lemma get_set_back_0 a b j : 0 < length a → get (set_back a b) 0 j = get a 0 j.
Proof. intros Ha. unfold get. by rewrite lookup_set_back_0. Qed.

Lemma get_set_back_S a b i j :
  0 < length a → get (set_back a b) (S i) j = get b i j.
Proof. intros Ha. unfold get. by rewrite lookup_set_back_S. Qed.

Lemma get_set_cols_front_lt n m a b i j :
  shape n m a → shape n (m - 1) b → i < n → j < m - 1 →
  get (set_cols_front a b) i j = get b i j.
Proof.
  intros Ha Hb Hi Hj.
  destruct (shape_row _ _ _ _ Ha Hi) as (r & E & Hr).
  destruct (shape_row _ _ _ _ Hb Hi) as (r' & E' & Hr').
  unfold get, set_cols_front. rewrite lookup_zip_with, E, E'. simpl.
  by rewrite lookup_set_front_lt by lia.
Qed.

Lemma get_set_cols_front_last n m a b i :
  shape n m a → shape n (m - 1) b → i < n →
  get (set_cols_front a b) i (m - 1) = get a i (m - 1).
Proof.
  intros Ha Hb Hi.
  destruct (shape_row _ _ _ _ Ha Hi) as (r & E & Hr).
  destruct (shape_row _ _ _ _ Hb Hi) as (r' & E' & Hr').
  unfold get, set_cols_front. rewrite lookup_zip_with, E, E'. simpl.
  rewrite <- Hr. by rewrite lookup_set_front_last by lia.
Qed.

Lemma get_set_cols_back_0 n m a b i :
  shape n m a → shape n (m - 1) b → i < n → 0 < m →
  get (set_cols_back a b) i 0 = get a i 0.
Proof.
  intros Ha Hb Hi Hp.
  destruct (shape_row _ _ _ _ Ha Hi) as (r & E & Hr).
  destruct (shape_row _ _ _ _ Hb Hi) as (r' & E' & Hr').
  unfold get, set_cols_back. rewrite lookup_zip_with, E, E'. simpl.
  by rewrite lookup_set_back_0 by lia.
Qed.

Lemma get_set_cols_back_S n m a b i j :
  shape n m a → shape n (m - 1) b → i < n → 0 < m →
  get (set_cols_back a b) i (S j) = get b i j.
Proof.
  intros Ha Hb Hi Hp.
  destruct (shape_row _ _ _ _ Ha Hi) as (r & E & Hr).
  destruct (shape_row _ _ _ _ Hb Hi) as (r' & E' & Hr').
  unfold get, set_cols_back. rewrite lookup_zip_with, E, E'. simpl.
  by rewrite lookup_set_back_S by lia.
Qed.

Lemma get_set_all2 n m a b i j :
  shape n m a → shape n m b → i < n → j < m → get (set_all2 a b) i j = get b i j.
Proof. intros Ha Hb Hi Hj. unfold set_all2, set_all. by erewrite get_zip_with2. Qed.

Lemma get_put_final_lt a (r : list F) i j :
  i < length a - 1 → get (front a ++ [r]) i j = get a i j.
Proof. intros Hi. unfold get. by rewrite lookup_put_final_lt. Qed.

Lemma get_put_final_last a (r : list F) j :
  get (front a ++ [r]) (length a - 1) j = get1 r j.
Proof. unfold get. by rewrite lookup_put_final_last. Qed.

Lemma get_put_first_0 a (r : list F) j : get (r :: back a) 0 j = get1 r j.
Proof. done. Qed.

Lemma get_put_col_final_lt n m a (k : list F) i j :
  shape n m a → length k = n → i < n → j < m - 1 →
  get (zip_with (λ r x, front r ++ [x]) a k) i j = get a i j.
Proof.
  intros Ha Hk Hi Hj. destruct (shape_row _ _ _ _ Ha Hi) as (r & E & Hr).
  destruct (lookup_lt_is_Some_2 k i) as [x Ex]; [lia|].
  unfold get. rewrite lookup_zip_with, E, Ex. simpl.
  by rewrite lookup_put_final_lt by lia.
Qed.

Lemma get_put_col_final_last n m a (k : list F) i :
  shape n m a → length k = n → i < n →
  get (zip_with (λ r x, front r ++ [x]) a k) i (m - 1) = get1 k i.
Proof.
  intros Ha Hk Hi. destruct (shape_row _ _ _ _ Ha Hi) as (r & E & Hr).
  destruct (lookup_lt_is_Some_2 k i) as [x Ex]; [lia|].
  unfold get. rewrite lookup_zip_with, E, Ex. simpl.
  rewrite <- Hr, lookup_put_final_last. simpl. symmetry. by apply get1_lookup.
Qed.

Lemma get_put_col_first_0 n m a (k : list F) i :
  shape n m a → length k = n → i < n →
  get (zip_with (λ r x, x :: back r) a k) i 0 = get1 k i.
Proof.
  intros Ha Hk Hi. destruct (shape_row _ _ _ _ Ha Hi) as (r & E & Hr).
  destruct (lookup_lt_is_Some_2 k i) as [x Ex]; [lia|].
  unfold get. rewrite lookup_zip_with, E, Ex. simpl.
  symmetry. by apply get1_lookup.
Qed.

(** one-dimensional pieces: rows, columns, the Coriolis vector *)
Lemma get1_fmap_in (h : F → F) (r : list F) j :
  j < length r → get1 (h <$> r) j = h (get1 r j).
Proof.
  intros Hj. destruct (lookup_lt_is_Some_2 r j Hj) as [x E].
  unfold get1. by rewrite list_lookup_fmap, E.
Qed.

Lemma get1_zip_with (h : F → F → F) (r r' : list F) j :
  j < length r → j < length r' →
  get1 (zip_with h r r') j = h (get1 r j) (get1 r' j).
Proof.
  intros Hj Hj'. destruct (lookup_lt_is_Some_2 r j Hj) as [x E].
  destruct (lookup_lt_is_Some_2 r' j Hj') as [y E'].
  unfold get1. by rewrite lookup_zip_with, E, E'.
Qed.

Lemma first_row n m a :
  shape n m a → 0 < n →
  ∃ r, first a = Some r ∧ length r = m ∧ ∀ j, get1 r j = get a 0 j.
Proof.
  intros Ha Hn. destruct (shape_row _ _ _ 0 Ha Hn) as (r & E & Hr).
  exists r. rewrite first_lookup. repeat split; try done.
  intros j. by rewrite (get_row _ _ _ _ E).
Qed.

Lemma final_row n m a :
  shape n m a → 0 < n →
  ∃ r, final a = Some r ∧ length r = m ∧ ∀ j, get1 r j = get a (n - 1) j.
Proof.
  intros Ha Hn. destruct (shape_row _ _ _ (n - 1) Ha) as (r & E & Hr); [lia|].
  exists r. rewrite final_lookup, (shape_length _ _ _ Ha). repeat split; try done.
  intros j. by rewrite (get_row _ _ _ _ E).
Qed.

Lemma col_first_Some n m a :
  shape n m a → 0 < m → col_first a = Some ((λ r, get1 r 0) <$> a).
Proof.
  intros [Hn Hm] Hp. apply mapM_fmap_Some. eapply Forall_impl; [exact Hm|].
  intros r Hr. simpl in *. rewrite first_lookup.
  destruct (lookup_lt_is_Some_2 r 0) as [x E]; [lia|].
  rewrite E. f_equal. symmetry. by apply get1_lookup.
Qed.

Lemma col_final_Some n m a :
  shape n m a → 0 < m → col_final a = Some ((λ r, get1 r (m - 1)) <$> a).
Proof.
  intros [Hn Hm] Hp. apply mapM_fmap_Some. eapply Forall_impl; [exact Hm|].
  intros r Hr. simpl in *. rewrite final_lookup, Hr.
  destruct (lookup_lt_is_Some_2 r (m - 1)) as [x E]; [lia|].
  rewrite E. f_equal. symmetry. by apply get1_lookup.
Qed.

Lemma get1_col n m a i j :
  shape n m a → i < n → get1 ((λ r, get1 r j) <$> a) i = get a i j.
Proof.
  intros Ha Hi. destruct (shape_row _ _ _ _ Ha Hi) as (r & E & Hr).
  unfold get1 at 1. rewrite list_lookup_fmap, E. simpl.
  by rewrite (get_row _ _ _ _ E).
Qed.

Lemma set_col_first_Some {B} n m (a : list (list B)) (k : list B) :
  shape n m a → 0 < m →
  set_col_first a k = Some (zip_with (λ r x, x :: back r) a k).
Proof.
  intros [Hn Hm] Hp. apply mapM_zip_Some. eapply Forall_impl; [exact Hm|].
  intros r Hr x. simpl in *. apply set_first_Some. lia.
Qed.

Lemma set_col_final_Some {B} n m (a : list (list B)) (k : list B) :
  shape n m a → 0 < m →
  set_col_final a k = Some (zip_with (λ r x, front r ++ [x]) a k).
Proof.
  intros [Hn Hm] Hp. apply mapM_zip_Some. eapply Forall_impl; [exact Hm|].
  intros r Hr x. simpl in *. apply set_final_Some. lia.
Qed.

(** broadcasting and selection *)
Lemma shape_row_mul n m (f : list F) a :
  length f = m → shape n m a → shape n m (row_mul f a).
Proof.
  intros Hf [Hn Hm]. split; [unfold row_mul; by rewrite length_fmap|].
  apply Forall_fmap. eapply Forall_impl; [exact Hm|].
  intros r Hr. simpl in *. rewrite length_zip_with. lia.
Qed.

Lemma get_row_mul n m (f : list F) a i j :
  length f = m → shape n m a → i < n → j < m →
  get (row_mul f a) i j = fmul (get1 f j) (get a i j).
Proof.
  intros Hf Ha Hi Hj.
  destruct (shape_cell _ _ _ _ _ Ha Hi Hj) as (r & x & E & Hr & Ex & ->).
  destruct (lookup_lt_is_Some_2 f j) as [y Ey]; [lia|].
  unfold get, row_mul. rewrite list_lookup_fmap, E. simpl.
  rewrite lookup_zip_with, Ey, Ex. simpl. by rewrite (get1_lookup _ _ _ Ey).
Qed.

Lemma shape_where n m (u : list (list bool)) a b :
  shape n m u → shape n m a → shape n m b → shape n m (where_ u a b).
Proof.
  intros Hu Ha Hb. unfold where_.
  apply (shape_zip_with2 (λ (t : bool) (xy : F * F), if t then xy.1 else xy.2));
    [done|]. by apply (shape_zip_with2 pair).
Qed.

Lemma shape_arr_gt0 n m a : shape n m a → shape n m (arr_gt0 a).
Proof. apply shape_fmap2. Qed.

Lemma get_where n m u a b i j :
  shape n m u → shape n m a → shape n m b → i < n → j < m →
  get (where_ (arr_gt0 u) a b) i j =
    if fgt (get u i j) fzero then get a i j else get b i j.
Proof.
  intros Hu Ha Hb Hi Hj.
  destruct (shape_cell _ _ _ _ _ Hu Hi Hj) as (ru & xu & Eu & _ & Exu & ->).
  destruct (shape_cell _ _ _ _ _ Ha Hi Hj) as (ra & xa & Ea & _ & Exa & ->).
  destruct (shape_cell _ _ _ _ _ Hb Hi Hj) as (rb & xb & Eb & _ & Exb & ->).
  unfold get, where_, arr_gt0.
  rewrite lookup_zip_with, list_lookup_fmap, Eu, lookup_zip_with, Ea, Eb. simpl.
  rewrite lookup_zip_with, list_lookup_fmap, Exu, lookup_zip_with, Exa, Exb. simpl.
  by destruct (fgt xu fzero).
Qed.

(** two arrays of one shape with the same cells are the same array *)
Lemma array_ext n m a b :
  shape n m a → shape n m b →
  (∀ i j, i < n → j < m → get a i j = get b i j) → a = b.
Proof.
  intros Ha Hb Hab.
  apply list_eq_same_length with n; [apply Hb|apply Ha|].
  intros i ra rb Hi Ea Eb.
  pose proof (Forall_lookup_1 _ _ _ _ (proj2 Ha) Ea) as Hra.
  pose proof (Forall_lookup_1 _ _ _ _ (proj2 Hb) Eb) as Hrb. simpl in *.
  apply list_eq_same_length with m; [done..|].
  intros j x y Hj Ex Ey. specialize (Hab i j Hi Hj).
  unfold get in Hab. by rewrite Ea, Eb in Hab; simpl in Hab; rewrite Ex, Ey in Hab.
Qed.

(** the named operations *)
Lemma shape_arr_add n m a b : shape n m a → shape n m b → shape n m (arr_add a b).
Proof. apply shape_zip_with2. Qed.
Lemma shape_arr_sub n m a b : shape n m a → shape n m b → shape n m (arr_sub a b).
Proof. apply shape_zip_with2. Qed.
Lemma shape_arr_mul n m a b : shape n m a → shape n m b → shape n m (arr_mul a b).
Proof. apply shape_zip_with2. Qed.
Lemma shape_scal_mul n m x a : shape n m a → shape n m (scal_mul x a).
Proof. apply shape_fmap2. Qed.
Lemma shape_arr_div_scal n m x a : shape n m a → shape n m (arr_div_scal a x).
Proof. apply shape_fmap2. Qed.
Lemma shape_arr_add_scal n m x a : shape n m a → shape n m (arr_add_scal a x).
Proof. apply shape_fmap2. Qed.

Lemma get_arr_add n m a b i j :
  shape n m a → shape n m b → i < n → j < m →
  get (arr_add a b) i j = fadd (get a i j) (get b i j).
Proof. apply get_zip_with2. Qed.
Lemma get_arr_sub n m a b i j :
  shape n m a → shape n m b → i < n → j < m →
  get (arr_sub a b) i j = fsub (get a i j) (get b i j).
Proof. apply get_zip_with2. Qed.
Lemma get_arr_mul n m a b i j :
  shape n m a → shape n m b → i < n → j < m →
  get (arr_mul a b) i j = fmul (get a i j) (get b i j).
Proof. apply get_zip_with2. Qed.
Lemma get_scal_mul n m x a i j :
  shape n m a → i < n → j < m → get (scal_mul x a) i j = fmul x (get a i j).
Proof. apply get_fmap2. Qed.
Lemma get_arr_div_scal n m x a i j :
  shape n m a → i < n → j < m → get (arr_div_scal a x) i j = fdiv (get a i j) x.
Proof. apply (get_fmap2 (λ y, fdiv y x)). Qed.
Lemma get_arr_add_scal n m x a i j :
  shape n m a → i < n → j < m → get (arr_add_scal a x) i j = fadd (get a i j) x.
Proof. apply (get_fmap2 (λ y, fadd y x)). Qed.
End ArrayFacts.

Global Hint Resolve shape_front shape_back shape_cols_front shape_cols_back
  shape_set_front shape_set_back shape_set_cols_front shape_set_cols_back
  shape_set_all2 shape_put_final shape_put_first shape_put_col_final
  shape_put_col_first shape_row_mul shape_where shape_arr_gt0
  shape_arr_add shape_arr_sub shape_arr_mul shape_scal_mul shape_arr_div_scal
  shape_arr_add_scal : shape.

Global Hint Resolve wf_u_n wf_u_np1 wf_v_n wf_v_np1 wf_eta_n wf_eta_np1
  wf_h_e wf_h_w wf_h_n wf_h_s wf_uhwe wf_vhns : shape.

Ltac shp := eauto 200 with shape.

Section Stages.
Context {F : Type} {SF : Scalar F}.
Variable c : Cfg.t F.
Variables n m : nat.
Local Open Scope scalar_scope.
Implicit Types (s : State F) (i j : nat).

(** *** lines 150-151 *)

Lemma momentum_predictor_wf s : wf n m s → wf n m (momentum_predictor c s).
Proof. intros Hs. split; simpl; shp. Qed.

Lemma predictor_u_cell s i j :
  wf n m s → i + 1 < n → j < m →
  get (u_np1 (momentum_predictor c s)) i j =
    get (u_n s) i j
    - Cfg.g c * Cfg.dt c / Cfg.dx c * (get (eta_n s) (i + 1) j - get (eta_n s) i j).
Proof.
  intros Hs Hi Hj. simpl.
  pose proof (shape_length _ _ _ (wf_u_n _ _ _ Hs)) as Lu.
  pose proof (shape_length _ _ _ (wf_eta_n _ _ _ Hs)) as Le.
  rewrite get_set_front_lt.
  2:{ rewrite (shape_length (n - 1) m); [lia|shp]. }
  rewrite (get_arr_sub (n - 1) m); [|shp|shp|lia|lia].
  rewrite (get_scal_mul (n - 1) m); [|shp|lia|lia].
  rewrite (get_arr_sub (n - 1) m); [|shp|shp|lia|lia].
  rewrite get_back, !get_front by lia. by rewrite Nat.add_1_r.
Qed.

Lemma predictor_v_cell s i j :
  wf n m s → i < n → j + 1 < m →
  get (v_np1 (momentum_predictor c s)) i j =
    get (v_n s) i j
    - Cfg.g c * Cfg.dt c / Cfg.dy c * (get (eta_n s) i (j + 1) - get (eta_n s) i j).
Proof.
  intros Hs Hi Hj. simpl.
  rewrite (get_set_cols_front_lt n m); [|shp|shp|lia|lia].
  rewrite (get_arr_sub n (m - 1)); [|shp|shp|lia|lia].
  rewrite (get_scal_mul n (m - 1)); [|shp|lia|lia].
  rewrite (get_arr_sub n (m - 1)); [|shp|shp|lia|lia].
  rewrite get_cols_back, !(get_cols_front n m) by (shp || lia).
  by rewrite Nat.add_1_r.
Qed.

Lemma predictor_u_last s j :
  wf n m s →
  get (u_np1 (momentum_predictor c s)) (n - 1) j = get (u_np1 s) (n - 1) j.
Proof.
  intros Hs. simpl. rewrite <- (shape_length _ _ _ (wf_u_np1 _ _ _ Hs)).
  apply get_set_front_last. rewrite (shape_length (n - 1) m); [|shp].
  by rewrite (shape_length _ _ _ (wf_u_np1 _ _ _ Hs)).
Qed.

Lemma predictor_v_last s i :
  wf n m s → i < n →
  get (v_np1 (momentum_predictor c s)) i (m - 1) = get (v_np1 s) i (m - 1).
Proof. intros Hs Hi. simpl. apply (get_set_cols_front_last n m); shp. Qed.

(** *** lines 154-156 *)

Lemma coriolis_corrector_wf s :
  wf_cfg n m c → wf n m s → wf n m (coriolis_corrector c s).
Proof.
  intros Hc Hs. unfold coriolis_corrector.
  destruct (Cfg.use_coriolis c) eqn:E; [|done].
  pose proof (wf_f _ _ _ Hc E). split; simpl; shp.
Qed.

Lemma corrector_on s i j :
  wf_cfg n m c → wf n m s → Cfg.use_coriolis c = true → i < n → j < m →
  get (u_np1 (coriolis_corrector c s)) i j =
    get (u_np1 s) i j + get1 (Cfg.f c) j * get (v_n s) i j ∧
  get (v_np1 (coriolis_corrector c s)) i j =
    get (v_np1 s) i j - get1 (Cfg.f c) j * get (u_n s) i j.
Proof.
  intros Hc Hs E Hi Hj. pose proof (wf_f _ _ _ Hc E) as Hf.
  unfold coriolis_corrector. rewrite E. simpl. split.
  - rewrite (get_set_all2 n m); [|shp|shp|lia|lia].
    rewrite (get_arr_add n m); [|shp|shp|lia|lia].
    by rewrite (get_row_mul n m); [|shp|shp|lia|lia].
  - rewrite (get_set_all2 n m); [|shp|shp|lia|lia].
    rewrite (get_arr_sub n m); [|shp|shp|lia|lia].
    by rewrite (get_row_mul n m); [|shp|shp|lia|lia].
Qed.

Lemma corrector_off s :
  Cfg.use_coriolis c = false → coriolis_corrector c s = s.
Proof. intros E. unfold coriolis_corrector. by rewrite E. Qed.

Lemma corrector_frame s :
  time_step (coriolis_corrector c s) = time_step s ∧
  u_n (coriolis_corrector c s) = u_n s ∧ v_n (coriolis_corrector c s) = v_n s ∧
  eta_n (coriolis_corrector c s) = eta_n s.
Proof. unfold coriolis_corrector. by destruct (Cfg.use_coriolis c). Qed.

(** *** lines 158-159 *)

Lemma boundary_conditions_spec s :
  wf n m s → 0 < n → 0 < m →
  ∃ U V, boundary_conditions s = Some (with_u_np1 (with_v_np1 s V) U) ∧
    shape n m U ∧ shape n m V ∧
    ∀ i j, i < n → j < m →
      get U i j = (if decide (i = n - 1)%nat then fzero else get (u_np1 s) i j) ∧
      get V i j = (if decide (j = m - 1)%nat then fzero else get (v_np1 s) i j).
Proof.
  intros Hs Hn Hm. unfold boundary_conditions.
  pose proof (shape_length _ _ _ (wf_u_np1 _ _ _ Hs)) as Lu.
  pose proof (shape_length _ _ _ (wf_v_np1 _ _ _ Hs)) as Lv.
  rewrite (set_col_final_Some n m) by shp. simpl.
  destruct (final_row n m (u_np1 s)) as (r & Er & Lr & _); [shp|lia|].
  rewrite Er. simpl. rewrite set_final_Some by lia. simpl.
  eexists _, _. split; [reflexivity|]. split; [|split].
  - apply shape_put_final; [shp|lia|by rewrite length_fmap].
  - apply shape_put_col_final; [shp|lia|by rewrite length_fmap].
  - intros i j Hi Hj. split.
    + case_decide as Ei.
      * subst i. rewrite <- Lu, get_put_final_last.
        destruct (lookup_lt_is_Some_2 r j) as [x Ex]; [lia|].
        unfold get1. by rewrite list_lookup_fmap, Ex.
      * apply get_put_final_lt. lia.
    + case_decide as Ej.
      * subst j. rewrite (get_put_col_final_last n m); [|shp|by rewrite length_fmap|lia].
        destruct (lookup_lt_is_Some_2 (v_np1 s) i) as [x Ex]; [lia|].
        unfold get1. by rewrite list_lookup_fmap, Ex.
      * apply (get_put_col_final_lt n m); [shp|by rewrite length_fmap|lia|lia].
Qed.

(** *** lines 166-176 *)

Lemma donor_x_shape s : wf n m s → shape (n - 1) m (donor_x c s).
Proof. intros Hs. unfold donor_x. shp. Qed.

Lemma donor_y_shape s : wf n m s → shape n (m - 1) (donor_y c s).
Proof. intros Hs. unfold donor_y. shp. Qed.

Lemma donor_x_cell s i j :
  wf n m s → i + 1 < n → j < m →
  get (donor_x c s) i j =
    if fgt (get (u_np1 s) i j) fzero
    then get (eta_n s) i j + Cfg.H c else get (eta_n s) (S i) j + Cfg.H c.
Proof.
  intros Hs Hi Hj. unfold donor_x.
  pose proof (shape_length _ _ _ (wf_u_np1 _ _ _ Hs)) as Lu.
  pose proof (shape_length _ _ _ (wf_eta_n _ _ _ Hs)) as Le.
  rewrite (get_where (n - 1) m); [|shp|shp|shp|lia|lia].
  rewrite !(get_arr_add_scal (n - 1) m); [|shp|lia|lia|shp|lia|lia].
  by rewrite get_back, !get_front by lia.
Qed.

Lemma donor_y_cell s i j :
  wf n m s → i < n → j + 1 < m →
  get (donor_y c s) i j =
    if fgt (get (v_np1 s) i j) fzero
    then get (eta_n s) i j + Cfg.H c else get (eta_n s) i (S j) + Cfg.H c.
Proof.
  intros Hs Hi Hj. unfold donor_y.
  rewrite (get_where n (m - 1)); [|shp|shp|shp|lia|lia].
  rewrite !(get_arr_add_scal n (m - 1)); [|shp|lia|lia|shp|lia|lia].
  by rewrite get_cols_back, !(get_cols_front n m) by (shp || lia).
Qed.

Lemma upwind_depths_spec s :
  wf n m s → 0 < n → 0 < m →
  ∃ he hw hn hs,
    upwind_depths c s = Some (with_h_s (with_h_n (with_h_w (with_h_e s he) hw) hn) hs) ∧
    shape n m he ∧ shape n m hw ∧ shape n m hn ∧ shape n m hs ∧
    ∀ i j, i < n → j < m →
      get he i j = (if decide (i + 1 < n) then get (donor_x c s) i j
                    else get (eta_n s) i j + Cfg.H c) ∧
      get hw i j = match i with
                   | O => get (eta_n s) 0 j + Cfg.H c
                   | S i' => get (donor_x c s) i' j
                   end ∧
      get hn i j = (if decide (j + 1 < m) then get (donor_y c s) i j
                    else get (eta_n s) i j + Cfg.H c) ∧
      get hs i j = match j with
                   | O => get (eta_n s) i 0 + Cfg.H c
                   | S j' => get (donor_y c s) i j'
                   end.
Proof.
  intros Hs Hn Hm. unfold upwind_depths. simpl. fold (donor_x c s) (donor_y c s).
  pose proof (donor_x_shape _ Hs) as Dx. pose proof (donor_y_shape _ Hs) as Dy.
  pose proof (shape_length _ _ _ (wf_h_e _ _ _ Hs)) as Le.
  pose proof (shape_length _ _ _ (wf_h_w _ _ _ Hs)) as Lw.
  pose proof (shape_length _ _ _ (wf_eta_n _ _ _ Hs)) as Leta.
  destruct (final_row n m (eta_n s)) as (r & -> & Lr & Hr); [shp|lia|].
  destruct (first_row n m (eta_n s)) as (r0 & -> & Lr0 & Hr0); [shp|lia|].
  simpl. rewrite set_final_Some by (rewrite (shape_length n m); [lia|shp]).
  simpl. rewrite set_first_Some by lia. simpl.
  rewrite (col_final_Some n m), (col_first_Some n m) by (shp || lia). simpl.
  rewrite (set_col_final_Some n m) by (shp || lia). simpl.
  rewrite (set_col_first_Some n m) by (shp || lia). simpl.
  eexists _, _, _, _. split; [reflexivity|].
  assert (Sw : shape n m (((λ x, x + Cfg.H c) <$> r0) :: back (h_w s))).
  { apply shape_put_first; [shp|lia|by rewrite length_fmap]. }
  assert (Ss : shape n m (zip_with (λ r x, x :: back r) (h_s s)
             ((λ x, x + Cfg.H c) <$> ((λ r, get1 r 0) <$> eta_n s)))).
  { apply shape_put_col_first; [shp|lia|by rewrite !length_fmap]. }
  split; [|split; [|split; [|split]]].
  - apply shape_put_final; [shp|lia|by rewrite length_fmap].
  - shp.
  - apply shape_put_col_final; [shp|lia|by rewrite !length_fmap].
  - shp.
  - intros i j Hi Hj. split; [|split; [|split]].
    + case_decide as Ei.
      * rewrite get_put_final_lt by (rewrite (shape_length n m); [lia|shp]).
        apply get_set_front_lt. rewrite (shape_length (n - 1) m); [lia|shp].
      * replace i with (length (set_front (h_e s) (donor_x c s)) - 1)%nat
          by (rewrite (shape_length n m); [lia|shp]).
        rewrite get_put_final_last, get1_fmap_in, Hr by lia.
        rewrite (shape_length n m); [|shp]. by replace (n - 1)%nat with i by lia.
    + destruct i as [|i'].
      * rewrite get_set_back_0 by (simpl; lia).
        by rewrite get_put_first_0, get1_fmap_in, Hr0 by lia.
      * apply get_set_back_S. simpl. lia.
    + case_decide as Ej.
      * rewrite (get_put_col_final_lt n m); [|shp|by rewrite !length_fmap|lia|lia].
        apply (get_set_cols_front_lt n m); [shp|shp|lia|lia].
      * replace j with (m - 1)%nat by lia.
        rewrite (get_put_col_final_last n m); [|shp|by rewrite !length_fmap|lia].
        rewrite get1_fmap_in by (rewrite length_fmap; lia).
        by rewrite (get1_col n m) by (shp || lia).
    + destruct j as [|j'].
      * rewrite (get_set_cols_back_0 n m); [|shp|shp|lia|lia].
        rewrite (get_put_col_first_0 n m); [|shp|by rewrite !length_fmap|lia].
        rewrite get1_fmap_in by (rewrite length_fmap; lia).
        by rewrite (get1_col n m) by (shp || lia).
      * apply (get_set_cols_back_S n m); [shp|shp|lia|lia].
Qed.

(** *** lines 178-182 *)

Lemma net_fluxes_spec s :
  wf n m s → 0 < n → 0 < m →
  ∃ fx fy,
    net_fluxes s = Some (with_vhns (with_uhwe s fx) fy) ∧
    shape n m fx ∧ shape n m fy ∧
    ∀ i j, i < n → j < m →
      get fx i j = match i with
                   | O => get (u_np1 s) 0 j * get (h_e s) 0 j
                   | S i' => get (u_np1 s) (S i') j * get (h_e s) (S i') j
                             - get (u_np1 s) i' j * get (h_w s) (S i') j
                   end ∧
      get fy i j = match j with
                   | O => get (v_np1 s) i 0 * get (h_n s) i 0
                   | S j' => get (v_np1 s) i (S j') * get (h_n s) i (S j')
                             - get (v_np1 s) i j' * get (h_s s) i (S j')
                   end.
Proof.
  intros Hs Hn Hm. unfold net_fluxes.
  pose proof (shape_length _ _ _ (wf_u_np1 _ _ _ Hs)) as Lu.
  pose proof (shape_length _ _ _ (wf_uhwe _ _ _ Hs)) as Lx.
  destruct (first_row n m (u_np1 s)) as (r1 & -> & Lr1 & Hr1); [shp|lia|].
  destruct (first_row n m (h_e s)) as (r2 & -> & Lr2 & Hr2); [shp|lia|].
  simpl. rewrite set_first_Some by lia. simpl.
  rewrite !(col_first_Some n m) by (shp || lia). simpl.
  rewrite (set_col_first_Some n m) by (shp || lia). simpl.
  eexists _, _. split; [reflexivity|].
  assert (Sx : shape n m (zip_with fmul r1 r2 :: back (uhwe s))).
  { apply shape_put_first; [shp|lia|rewrite length_zip_with; lia]. }
  assert (Sy : shape n m (zip_with (λ r x, x :: back r) (vhns s)
             (zip_with fmul ((λ r, get1 r 0) <$> v_np1 s)
                            ((λ r, get1 r 0) <$> h_n s)))).
  { apply shape_put_col_first; [shp|lia|].
    rewrite length_zip_with, !length_fmap.
    rewrite (shape_length _ _ _ (wf_v_np1 _ _ _ Hs)).
    rewrite (shape_length _ _ _ (wf_h_n _ _ _ Hs)). lia. }
  split; [shp|]. split; [shp|].
  intros i j Hi Hj. split.
  - destruct i as [|i'].
    + rewrite get_set_back_0 by (simpl; lia).
      by rewrite get_put_first_0, get1_zip_with, Hr1, Hr2 by lia.
    + rewrite get_set_back_S by (simpl; lia).
      rewrite (get_arr_sub (n - 1) m); [|shp|shp|lia|lia].
      rewrite !(get_arr_mul (n - 1) m); [|shp|shp|lia|lia|shp|shp|lia|lia].
      by rewrite !get_back, get_front by lia.
  - destruct j as [|j'].
    + rewrite (get_set_cols_back_0 n m); [|shp|shp|lia|lia].
      rewrite (get_put_col_first_0 n m); [|shp| |lia].
      2:{ rewrite length_zip_with, !length_fmap.
          rewrite (shape_length _ _ _ (wf_v_np1 _ _ _ Hs)).
          rewrite (shape_length _ _ _ (wf_h_n _ _ _ Hs)). lia. }
      rewrite get1_zip_with.
      2,3: rewrite length_fmap; erewrite shape_length; [exact Hi|shp].
      by rewrite !(get1_col n m) by (shp || lia).
    + rewrite (get_set_cols_back_S n m); [|shp|shp|lia|lia].
      rewrite (get_arr_sub n (m - 1)); [|shp|shp|lia|lia].
      rewrite !(get_arr_mul n (m - 1)); [|shp|shp|lia|lia|shp|shp|lia|lia].
      by rewrite !get_cols_back, (get_cols_front n m) by (shp || lia).
Qed.

(** *** lines 186-194 *)

Lemma continuity_wf s : wf_cfg n m c → wf n m s → wf n m (continuity c s).
Proof.
  intros Hc Hs. unfold continuity.
  destruct (Cfg.use_source c) eqn:E1, (Cfg.use_sink c) eqn:E2;
    try pose proof (wf_source _ _ _ Hc E1); try pose proof (wf_sink _ _ _ Hc E2);
    split; simpl; shp.
Qed.

Lemma continuity_frame s :
  continuity c s = with_eta_np1 s (eta_np1 (continuity c s)).
Proof.
  unfold continuity. by destruct (Cfg.use_source c), (Cfg.use_sink c), s.
Qed.

Lemma continuity_cell s i j :
  wf_cfg n m c → wf n m s → i < n → j < m →
  get (eta_np1 (continuity c s)) i j =
    let e := get (eta_n s) i j
             - Cfg.dt c * (get (uhwe s) i j / Cfg.dx c + get (vhns s) i j / Cfg.dy c) in
    let e := if Cfg.use_source c then e + Cfg.dt c * get (Cfg.source c) i j else e in
    if Cfg.use_sink c then e - Cfg.dt c * get (Cfg.sink c) i j else e.
Proof.
  intros Hc Hs Hi Hj.
  assert (E0 : get (set_all2 (eta_np1 s)
            (arr_sub (eta_n s) (scal_mul (Cfg.dt c)
               (arr_add (arr_div_scal (uhwe s) (Cfg.dx c))
                        (arr_div_scal (vhns s) (Cfg.dy c)))))) i j =
          get (eta_n s) i j
          - Cfg.dt c * (get (uhwe s) i j / Cfg.dx c + get (vhns s) i j / Cfg.dy c)).
  { rewrite (get_set_all2 n m); [|shp|shp|lia|lia].
    rewrite (get_arr_sub n m); [|shp|shp|lia|lia].
    rewrite (get_scal_mul n m); [|shp|lia|lia].
    rewrite (get_arr_add n m); [|shp|shp|lia|lia].
    by rewrite !(get_arr_div_scal n m); [|shp|lia|lia|shp|lia|lia]. }
  unfold continuity.
  destruct (Cfg.use_source c) eqn:E1, (Cfg.use_sink c) eqn:E2;
    try pose proof (wf_source _ _ _ Hc E1); try pose proof (wf_sink _ _ _ Hc E2);
    simpl.
  - rewrite (get_set_all2 n m); [|shp|shp|lia|lia].
    rewrite (get_arr_sub n m); [|shp|shp|lia|lia].
    rewrite (get_scal_mul n m); [|shp|lia|lia].
    rewrite (get_set_all2 n m); [|shp|shp|lia|lia].
    rewrite (get_arr_add n m); [|shp|shp|lia|lia].
    by rewrite (get_scal_mul n m), E0; [|shp|lia|lia].
  - rewrite (get_set_all2 n m); [|shp|shp|lia|lia].
    rewrite (get_arr_add n m); [|shp|shp|lia|lia].
    by rewrite (get_scal_mul n m), E0; [|shp|lia|lia].
  - rewrite (get_set_all2 n m); [|shp|shp|lia|lia].
    rewrite (get_arr_sub n m); [|shp|shp|lia|lia].
    by rewrite (get_scal_mul n m), E0; [|shp|lia|lia].
  - exact E0.
Qed.

(** *** One pass through the loop body *)

Lemma step_spec s :
  wf_cfg n m c → wf n m s → 0 < n → 0 < m →
  ∃ s', step c s = Some s' ∧ stepped c n m s s'.
Proof.
  intros Hc Hs Hn Hm. unfold step.
  pose proof (coriolis_corrector_wf _ Hc (momentum_predictor_wf _ Hs)) as Hs2.
  destruct (corrector_frame (momentum_predictor c s)) as (Et & _ & _ & Eeta).
  simpl in Et, Eeta.
  set (s2 := coriolis_corrector c (momentum_predictor c s)) in *.
  destruct (boundary_conditions_spec s2 Hs2 Hn Hm) as (U & V & -> & SU & SV & HUV).
  simpl. set (s3 := with_u_np1 (with_v_np1 s2 V) U).
  assert (Hs3 : wf n m s3) by (split; simpl; shp).
  destruct (upwind_depths_spec s3 Hs3 Hn Hm)
    as (he & hw & hn & hs & -> & She & Shw & Shn & Shs & Hh).
  simpl. set (s4 := with_h_s (with_h_n (with_h_w (with_h_e s3 he) hw) hn) hs).
  assert (Hs4 : wf n m s4) by (split; simpl; shp).
  destruct (net_fluxes_spec s4 Hs4 Hn Hm) as (fx & fy & -> & Sfx & Sfy & Hf).
  simpl. set (s5 := with_vhns (with_uhwe s4 fx) fy).
  assert (Hs5 : wf n m s5) by (split; simpl; shp).
  pose proof (continuity_wf _ Hc Hs5) as Hs6.
  pose proof (continuity_cell s5) as Hcell.
  rewrite (continuity_frame s5) in Hs6 |- *.
  set (e6 := eta_np1 (continuity c s5)) in *.
  eexists. split; [reflexivity|].
  assert (Dx : ∀ i j, i + 1 < n → j < m →
    get (donor_x c s3) i j =
      if fgt (get U i j) fzero
      then get (eta_n s) i j + Cfg.H c else get (eta_n s) (S i) j + Cfg.H c).
  { intros i j Hi Hj. rewrite donor_x_cell by (done || lia). simpl. by rewrite Eeta. }
  assert (Dy : ∀ i j, i < n → j + 1 < m →
    get (donor_y c s3) i j =
      if fgt (get V i j) fzero
      then get (eta_n s) i j + Cfg.H c else get (eta_n s) i (S j) + Cfg.H c).
  { intros i j Hi Hj. rewrite donor_y_cell by (done || lia). simpl. by rewrite Eeta. }
  split; simpl.
  - destruct Hs6. split; simpl in *; shp.
  - by rewrite Et.
  - intros i j Hi Hj. by destruct (HUV i j Hi Hj) as [-> _].
  - intros i j Hi Hj. by destruct (HUV i j Hi Hj) as [_ ->].
  - intros i j Hi Hj. destruct (Hh i j Hi Hj) as (-> & _). simpl. rewrite Eeta.
    case_decide; [by apply Dx|done].
  - intros i j Hi Hj. destruct (Hh i j Hi Hj) as (_ & -> & _). simpl. rewrite Eeta.
    destruct i as [|i']; [done|]. apply Dx; lia.
  - intros i j Hi Hj. destruct (Hh i j Hi Hj) as (_ & _ & -> & _). simpl. rewrite Eeta.
    case_decide; [by apply Dy|done].
  - intros i j Hi Hj. destruct (Hh i j Hi Hj) as (_ & _ & _ & ->). simpl. rewrite Eeta.
    destruct j as [|j']; [done|]. apply Dy; lia.
  - intros i j Hi Hj. by destruct (Hf i j Hi Hj) as [-> _].
  - intros i j Hi Hj. by destruct (Hf i j Hi Hj) as [_ ->].
  - intros i j Hi Hj. unfold e6. rewrite Hcell by done. simpl. by rewrite Eeta.
Qed.
End Stages.

Section Loop.
Context {F : Type} {SF : Scalar F}.
Variable c : Cfg.t F.
Variables n m : nat.
Hypothesis Hc : wf_cfg n m c.
Hypothesis Hn : 0 < n.
Hypothesis Hm : 0 < m.
Implicit Types (s : State F) (t : nat).

Lemma shape_zeros : shape n m (zeros (F := F) n m).
Proof.
  split; [apply length_replicate|]. apply Forall_replicate, length_replicate.
Qed.

Lemma get_zeros i j : get (zeros (F := F) n m) i j = fzero.
Proof.
  unfold get, zeros. destruct (replicate n _ !! i) as [r|] eqn:E; [|done].
  apply lookup_replicate in E as [-> _]. simpl.
  destruct (replicate m _ !! j) as [x|] eqn:E'; [|done].
  by apply lookup_replicate in E' as [-> _].
Qed.

Lemma init_state_wf eta0 : shape n m eta0 → wf n m (init_state n m eta0).
Proof using Type. intros H0. split; simpl; auto using shape_zeros. Qed.

Lemma steps_spec t s :
  wf n m s →
  ∃ s', steps c t s = Some s' ∧ wf n m s' ∧ time_step s' = (time_step s + Z.of_nat t)%Z.
Proof using Hc Hn Hm.
  revert s. induction t as [|t IH]; intros s Hs.
  - exists s. simpl. split; [done|]. split; [done|lia].
  - destruct (step_spec c n m s Hc Hs Hn Hm) as (s1 & E1 & H1).
    destruct (IH s1 (st_wf _ _ _ _ _ H1)) as (s' & E' & Hs' & Ht).
    exists s'. simpl. rewrite E1. simpl. split; [done|]. split; [done|].
    rewrite Ht, (st_time _ _ _ _ _ H1). lia.
Qed.

Lemma steps_snoc t s s1 :
  steps c t s = Some s1 → steps c (S t) s = step c s1.
Proof using Type.
  revert s. induction t as [|t IH]; intros s; simpl.
  - intros [= ->]. by destruct (step c s1).
  - destruct (step c s) as [s2|]; simpl; [|done]. apply IH.
Qed.

(** the loop runs the body until the counter is no longer below
    [max_time_step], which takes [max_time_step - time_step] passes *)
Lemma main_loop_spec fuel s :
  wf n m s →
  main_loop c fuel s =
    if decide (Z.to_nat (Cfg.max_time_step c - time_step s) ≤ fuel)
    then match steps c (Z.to_nat (Cfg.max_time_step c - time_step s)) s with
         | Some s' => Finished s'
         | None => IndexError
         end
    else OutOfFuel.
Proof using Hc Hn Hm.
  revert s. induction fuel as [|fuel IH]; intros s Hs; simpl.
  - destruct (Z.ltb_spec (time_step s) (Cfg.max_time_step c)) as [Hlt|Hge].
    + case_decide; [lia|done].
    + replace (Z.to_nat (Cfg.max_time_step c - time_step s)) with 0 by lia.
      by case_decide.
  - destruct (Z.ltb_spec (time_step s) (Cfg.max_time_step c)) as [Hlt|Hge].
    + destruct (step_spec c n m s Hc Hs Hn Hm) as (s1 & E1 & H1).
      rewrite E1, (IH s1 (st_wf _ _ _ _ _ H1)), (st_time _ _ _ _ _ H1).
      replace (Z.to_nat (Cfg.max_time_step c - time_step s))
        with (S (Z.to_nat (Cfg.max_time_step c - (time_step s + 1)))) by lia.
      simpl. rewrite E1. simpl. repeat case_decide; try lia; done.
    + replace (Z.to_nat (Cfg.max_time_step c - time_step s)) with 0 by lia.
      case_decide; [done|lia].
Qed.
End Loop.

Section RealSums.
Local Open Scope R_scope.
Implicit Types (f g : nat → R) (a : list (list R)) (r : list R) (n m : nat).

Lemma rsum_ext f g n : (∀ i, (i < n)%nat → f i = g i) → rsum f n = rsum g n.
Proof.
  induction n as [|n IH]; intros Hfg; simpl; [done|].
  rewrite IH, Hfg; auto with lia.
Qed.

Lemma rsum_shift f n : rsum f (S n) = f O + rsum (λ i, f (S i)) n.
Proof. induction n as [|n IH]; simpl in *; [lra|]. rewrite IH. lra. Qed.

Lemma rsum_zero n : rsum (λ _, 0) n = 0.
Proof. induction n as [|n IH]; simpl; lra. Qed.

Lemma rsum_const x n : rsum (λ _, x) n = INR n * x.
Proof.
  induction n as [|n IH]; [simpl; lra|].
  rewrite S_INR. simpl rsum. rewrite IH. lra.
Qed.

Lemma rsum_plus f g n : rsum (λ i, f i + g i) n = rsum f n + rsum g n.
Proof. induction n as [|n IH]; simpl; [lra|]. rewrite IH. lra. Qed.

Lemma rsum_minus f g n : rsum (λ i, f i - g i) n = rsum f n - rsum g n.
Proof. induction n as [|n IH]; simpl; [lra|]. rewrite IH. lra. Qed.

Lemma rsum_scal x f n : rsum (λ i, x * f i) n = x * rsum f n.
Proof. induction n as [|n IH]; simpl; [lra|]. rewrite IH. lra. Qed.

Lemma rsum_div f x n : rsum (λ i, f i / x) n = rsum f n / x.
Proof. induction n as [|n IH]; simpl; [lra|]. rewrite IH. lra. Qed.

Lemma rsum_swap (h : nat → nat → R) n m :
  rsum (λ i, rsum (λ j, h i j) m) n = rsum (λ j, rsum (λ i, h i j) n) m.
Proof.
  induction n as [|n IH]; simpl; [by rewrite rsum_zero|].
  by rewrite IH, rsum_plus.
Qed.

(** a sum of consecutive differences leaves the last term *)
Lemma rsum_telescope f n :
  rsum (λ i, match i with O => f O | S i' => f (S i') - f i' end) (S n) = f n.
Proof. induction n as [|n IH]; [simpl; lra|]. simpl in *. rewrite IH. lra. Qed.

Lemma sum1_rsum r : sum1 r = rsum (λ j, get1 r j) (length r).
Proof.
  induction r as [|x r IH]; [done|].
  change (length (x :: r)) with (S (length r)). rewrite rsum_shift.
  simpl. by rewrite IH.
Qed.

Lemma arr_sum_rsum n m a :
  shape n m a → arr_sum a = rsum (λ i, rsum (λ j, get a i j) m) n.
Proof.
  revert n. induction a as [|r a IH]; intros n Ha.
  - apply shape_length in Ha. simpl in Ha. by subst n.
  - apply shape_cons_inv in Ha as (Hr & Ha & ->).
    rewrite rsum_shift. change (arr_sum (r :: a)) with (sum1 r + arr_sum a).
    by rewrite (IH _ Ha), sum1_rsum, Hr.
Qed.

Lemma rsum2_ext (h k : nat → nat → R) n m :
  (∀ i j, (i < n)%nat → (j < m)%nat → h i j = k i j) → rsum2 h n m = rsum2 k n m.
Proof. intros E. apply rsum_ext. intros i Hi. apply rsum_ext. auto. Qed.

Lemma rsum2_plus (h k : nat → nat → R) n m :
  rsum2 (λ i j, h i j + k i j) n m = rsum2 h n m + rsum2 k n m.
Proof.
  unfold rsum2. rewrite <- rsum_plus. apply rsum_ext. intros i _. apply rsum_plus.
Qed.

Lemma rsum2_minus (h k : nat → nat → R) n m :
  rsum2 (λ i j, h i j - k i j) n m = rsum2 h n m - rsum2 k n m.
Proof.
  unfold rsum2. rewrite <- rsum_minus. apply rsum_ext. intros i _. apply rsum_minus.
Qed.

Lemma rsum2_scal x (h : nat → nat → R) n m :
  rsum2 (λ i j, x * h i j) n m = x * rsum2 h n m.
Proof.
  unfold rsum2. rewrite <- rsum_scal. apply rsum_ext. intros i _. apply rsum_scal.
Qed.

Lemma rsum2_div x (h : nat → nat → R) n m :
  rsum2 (λ i j, h i j / x) n m = rsum2 h n m / x.
Proof.
  unfold rsum2. rewrite <- rsum_div. apply rsum_ext. intros i _. apply rsum_div.
Qed.

Lemma rsum2_rows_zero (h : nat → nat → R) n m :
  (∀ i, (i < n)%nat → rsum (h i) m = 0) → rsum2 h n m = 0.
Proof.
  intros E. unfold rsum2. rewrite (rsum_ext _ (λ _, 0)) by done. apply rsum_zero.
Qed.

Lemma rsum2_cols_zero (h : nat → nat → R) n m :
  (∀ j, (j < m)%nat → rsum (λ i, h i j) n = 0) → rsum2 h n m = 0.
Proof.
  intros E. unfold rsum2. rewrite rsum_swap.
  rewrite (rsum_ext _ (λ _, 0)) by done. apply rsum_zero.
Qed.

Lemma arr_sum_rsum2 n m a : shape n m a → arr_sum a = rsum2 (get a) n m.
Proof. apply arr_sum_rsum. Qed.
End RealSums.

Section Conservation.
Variable c : Cfg.t R.
Variables n m : nat.
Local Open Scope R_scope.
Implicit Types (s : State R).

(** the net x-fluxes of a column cancel pairwise, up to the flux through
    the eastern wall, where [u] is zero *)
Lemma flux_x_total s s' j :
  stepped c n m s s' → (j < m)%nat → rsum (λ i, get (uhwe s') i j) n = 0.
Proof.
  intros St Hj. destruct n as [|n'] eqn:En; [done|]. rewrite <- En in St.
  rewrite (rsum_ext _ (λ i, match i with
     | O => get (u_n s') O j * get (h_e s') O j
     | S i' => get (u_n s') (S i') j * get (h_e s') (S i') j
               - get (u_n s') i' j * get (h_e s') i' j
     end)).
  - rewrite (rsum_telescope (λ i, get (u_n s') i j * get (h_e s') i j)).
    rewrite (st_u _ _ _ _ _ St) by lia.
    case_decide; [simpl; lra|lia].
  - intros i Hi. rewrite (st_uhwe _ _ _ _ _ St) by lia.
    destruct i as [|i']; [done|]. simpl.
    rewrite (st_h_w _ _ _ _ _ St (S i') j) by lia.
    rewrite (st_h_e _ _ _ _ _ St i' j) by lia.
    case_decide; [done|lia].
Qed.

(** the same along a row, up to the flux through the northern wall *)
Lemma flux_y_total s s' i :
  stepped c n m s s' → (i < n)%nat → rsum (λ j, get (vhns s') i j) m = 0.
Proof.
  intros St Hi. destruct m as [|m'] eqn:Em; [done|]. rewrite <- Em in St.
  rewrite (rsum_ext _ (λ j, match j with
     | O => get (v_n s') i O * get (h_n s') i O
     | S j' => get (v_n s') i (S j') * get (h_n s') i (S j')
               - get (v_n s') i j' * get (h_n s') i j'
     end)).
  - rewrite (rsum_telescope (λ j, get (v_n s') i j * get (h_n s') i j)).
    rewrite (st_v _ _ _ _ _ St) by lia.
    case_decide; [simpl; lra|lia].
  - intros j Hj. rewrite (st_vhns _ _ _ _ _ St) by lia.
    destruct j as [|j']; [done|]. simpl.
    rewrite (st_h_s _ _ _ _ _ St i (S j')) by lia.
    rewrite (st_h_n _ _ _ _ _ St i j') by lia.
    case_decide; [done|lia].
Qed.

(** what one pass adds to the total of [eta]: only the forcing *)
Lemma mass_balance s s' :
  wf_cfg n m c → wf n m s → stepped c n m s s' →
  arr_sum (eta_n s') =
    arr_sum (eta_n s)
    + (if Cfg.use_source c then Cfg.dt c * arr_sum (Cfg.source c) else 0)
    - (if Cfg.use_sink c then Cfg.dt c * arr_sum (Cfg.sink c) else 0).
Proof.
  intros Hc Hs St.
  assert (Hx : rsum2 (get (uhwe s')) n m = 0).
  { apply rsum2_cols_zero. intros j Hj. by apply (flux_x_total s). }
  assert (Hy : rsum2 (get (vhns s')) n m = 0).
  { apply rsum2_rows_zero. intros i Hi. by apply (flux_y_total s). }
  assert (H0 : rsum2 (λ i j, get (eta_n s) i j
            - Cfg.dt c * (get (uhwe s') i j / Cfg.dx c + get (vhns s') i j / Cfg.dy c))
            n m = rsum2 (get (eta_n s)) n m).
  { rewrite rsum2_minus, rsum2_scal, rsum2_plus, !rsum2_div, Hx, Hy.
    unfold Rdiv. lra. }
  rewrite (arr_sum_rsum2 n m (eta_n s')) by apply (st_wf _ _ _ _ _ St).
  rewrite (arr_sum_rsum2 n m (eta_n s)) by apply Hs.
  rewrite (rsum2_ext _ _ _ _ (st_eta _ _ _ _ _ St)). simpl.
  destruct (Cfg.use_source c) eqn:E1, (Cfg.use_sink c) eqn:E2.
  - rewrite (arr_sum_rsum2 n m (Cfg.source c)) by by apply wf_source.
    rewrite (arr_sum_rsum2 n m (Cfg.sink c)) by by apply wf_sink.
    rewrite rsum2_minus, rsum2_plus, !rsum2_scal, H0. done.
  - rewrite (arr_sum_rsum2 n m (Cfg.source c)) by by apply wf_source.
    rewrite rsum2_plus, !rsum2_scal, H0. lra.
  - rewrite (arr_sum_rsum2 n m (Cfg.sink c)) by by apply wf_sink.
    rewrite rsum2_minus, !rsum2_scal, H0. lra.
  - rewrite H0. lra.
Qed.
End Conservation.

(** ** The stages of one pass, cell by cell *)

Section StageTheorems.
Context {F : Type} {SF : Scalar F}.
Variable c : Cfg.t F.
Variables n m : nat.
Local Open Scope scalar_scope.
Implicit Types (s : State F) (i j : nat).

(** C1: the momentum predictor sets [u_np1[i, j]] for [i <= N_x - 2] and
    [v_np1[i, j]] for [j <= N_y - 2] to the forward difference of the current
    fields [u_n], [v_n], [eta_n] alone; row [N_x - 1] of [u_np1] and column
    [N_y - 1] of [v_np1] are not assigned and keep what the buffers held. *)
Theorem momentum_predictor_cells s :
  wf n m s →
  (∀ i j, i + 1 < n → j < m →
     get (u_np1 (momentum_predictor c s)) i j =
       get (u_n s) i j
       - Cfg.g c * Cfg.dt c / Cfg.dx c * (get (eta_n s) (i + 1) j - get (eta_n s) i j)) ∧
  (∀ i j, i < n → j + 1 < m →
     get (v_np1 (momentum_predictor c s)) i j =
       get (v_n s) i j
       - Cfg.g c * Cfg.dt c / Cfg.dy c * (get (eta_n s) i (j + 1) - get (eta_n s) i j)) ∧
  (∀ j, get (u_np1 (momentum_predictor c s)) (n - 1) j = get (u_np1 s) (n - 1) j) ∧
  (∀ i, i < n →
     get (v_np1 (momentum_predictor c s)) i (m - 1) = get (v_np1 s) i (m - 1)).
Proof.
  intros Hs. split; [|split; [|split]].
  - intros i j. by apply (predictor_u_cell c n m).
  - intros i j. by apply (predictor_v_cell c n m).
  - intros j. by apply (predictor_u_last c n m).
  - intros i. by apply (predictor_v_last c n m).
Qed.

(** C4: with Coriolis enabled the corrector adds [f[j] * v_n[i, j]] to the
    predicted [u_np1[i, j]] and subtracts [f[j] * u_n[i, j]] from the
    predicted [v_np1[i, j]], at every cell, reading the velocities the pass
    started from; with Coriolis disabled it leaves the store as it is. *)
Theorem coriolis_corrector_cells s :
  wf_cfg n m c → wf n m s →
  (Cfg.use_coriolis c = true → ∀ i j, i < n → j < m →
     get (u_np1 (coriolis_corrector c (momentum_predictor c s))) i j =
       get (u_np1 (momentum_predictor c s)) i j + get1 (Cfg.f c) j * get (v_n s) i j ∧
     get (v_np1 (coriolis_corrector c (momentum_predictor c s))) i j =
       get (v_np1 (momentum_predictor c s)) i j - get1 (Cfg.f c) j * get (u_n s) i j) ∧
  (Cfg.use_coriolis c = false → ∀ s1, coriolis_corrector c s1 = s1).
Proof.
  intros Hc Hs. split.
  - intros E i j Hi Hj.
    apply (corrector_on c n m (momentum_predictor c s)); try done.
    by apply momentum_predictor_wf.
  - intros E s1. by apply corrector_off.
Qed.

(** C2: in one pass, the face depths are chosen by the sign of the velocity
    the pass has just computed ([u_n s'], [v_n s']) and read from the
    elevation it started from ([eta_n s]): [h_e[i, j]] is [eta[i, j] + H] if
    [u[i, j] > 0] and [eta[i + 1, j] + H] otherwise, and [eta[i, j] + H] on the
    last row; [h_w[0, j] = eta[0, j] + H] and [h_w[i, j] = h_e[i - 1, j]] for
    [i >= 1]; [h_n], [h_s] are the same along [j] with [v]. *)
Theorem upwind_face_depths s :
  wf_cfg n m c → wf n m s → 0 < n → 0 < m →
  ∃ s', step c s = Some s' ∧ ∀ i j, i < n → j < m →
    get (h_e s') i j =
      (if decide (i + 1 < n) then
         if fgt (get (u_n s') i j) fzero
         then get (eta_n s) i j + Cfg.H c else get (eta_n s) (i + 1) j + Cfg.H c
       else get (eta_n s) i j + Cfg.H c) ∧
    get (h_w s') i j =
      (if decide (i = 0)%nat then get (eta_n s) 0 j + Cfg.H c
       else get (h_e s') (i - 1) j) ∧
    get (h_n s') i j =
      (if decide (j + 1 < m) then
         if fgt (get (v_n s') i j) fzero
         then get (eta_n s) i j + Cfg.H c else get (eta_n s) i (j + 1) + Cfg.H c
       else get (eta_n s) i j + Cfg.H c) ∧
    get (h_s s') i j =
      (if decide (j = 0)%nat then get (eta_n s) i 0 + Cfg.H c
       else get (h_n s') i (j - 1)).
Proof.
  intros Hc Hs Hn Hm. destruct (step_spec c n m s Hc Hs Hn Hm) as (s' & E & St).
  exists s'. split; [done|]. intros i j Hi Hj. split; [|split; [|split]].
  - rewrite (st_h_e _ _ _ _ _ St) by done. by rewrite Nat.add_1_r.
  - rewrite (st_h_w _ _ _ _ _ St) by done. destruct i as [|i']; [done|].
    case_decide; [lia|]. rewrite (st_h_e _ _ _ _ _ St) by lia.
    replace (S i' - 1)%nat with i' by lia. case_decide; [done|lia].
  - rewrite (st_h_n _ _ _ _ _ St) by done. by rewrite Nat.add_1_r.
  - rewrite (st_h_s _ _ _ _ _ St) by done. destruct j as [|j']; [done|].
    case_decide; [lia|]. rewrite (st_h_n _ _ _ _ _ St) by lia.
    replace (S j' - 1)%nat with j' by lia. case_decide; [done|lia].
Qed.

(** C3: in one pass, [uhwe[i, j] = u[i, j] * h_e[i, j] - u[i - 1, j] * h_w[i, j]]
    for [i >= 1] and [uhwe[0, j] = u[0, j] * h_e[0, j]] ([vhns] alike along
    [j]), with [u], [v] the velocities just computed, and the new elevation
    is [eta[i, j] - dt * (uhwe[i, j] / dx + vhns[i, j] / dy)], plus
    [dt * source[i, j]] if the source is enabled, then minus
    [dt * sink[i, j]] if the sink is enabled. *)
Theorem continuity_update s :
  wf_cfg n m c → wf n m s → 0 < n → 0 < m →
  ∃ s', step c s = Some s' ∧ ∀ i j, i < n → j < m →
    get (uhwe s') i j =
      (if decide (i = 0)%nat then get (u_n s') 0 j * get (h_e s') 0 j
       else get (u_n s') i j * get (h_e s') i j
            - get (u_n s') (i - 1) j * get (h_w s') i j) ∧
    get (vhns s') i j =
      (if decide (j = 0)%nat then get (v_n s') i 0 * get (h_n s') i 0
       else get (v_n s') i j * get (h_n s') i j
            - get (v_n s') i (j - 1) * get (h_s s') i j) ∧
    get (eta_n s') i j =
      let e := get (eta_n s) i j
               - Cfg.dt c * (get (uhwe s') i j / Cfg.dx c + get (vhns s') i j / Cfg.dy c) in
      let e := if Cfg.use_source c then e + Cfg.dt c * get (Cfg.source c) i j else e in
      if Cfg.use_sink c then e - Cfg.dt c * get (Cfg.sink c) i j else e.
Proof.
  intros Hc Hs Hn Hm. destruct (step_spec c n m s Hc Hs Hn Hm) as (s' & E & St).
  exists s'. split; [done|]. intros i j Hi Hj. split; [|split].
  - rewrite (st_uhwe _ _ _ _ _ St) by done. destruct i as [|i']; [done|].
    case_decide; [lia|]. by replace (S i' - 1)%nat with i' by lia.
  - rewrite (st_vhns _ _ _ _ _ St) by done. destruct j as [|j']; [done|].
    case_decide; [lia|]. by replace (S j' - 1)%nat with j' by lia.
  - by apply (st_eta _ _ _ _ _ St).
Qed.

(** C5: whatever the store at the start and whether or not Coriolis is
    enabled, after [t >= 1] passes the last row of [u] and the last column
    of [v] are exactly [0.0]. *)
Theorem boundary_invariant s t :
  wf_cfg n m c → wf n m s → 0 < n → 0 < m → 1 ≤ t →
  ∃ s', steps c t s = Some s' ∧
    (∀ j, j < m → get (u_n s') (n - 1) j = fzero) ∧
    (∀ i, i < n → get (v_n s') i (m - 1) = fzero).
Proof.
  intros Hc Hs Hn Hm Ht. destruct t as [|t]; [lia|].
  destruct (steps_spec c n m Hc Hn Hm t s Hs) as (s1 & E1 & Hs1 & _).
  destruct (step_spec c n m s1 Hc Hs1 Hn Hm) as (s' & E & St).
  exists s'. rewrite (steps_snoc c t s s1 E1). split; [done|]. split.
  - intros j Hj. rewrite (st_u _ _ _ _ _ St) by lia. case_decide; [done|lia].
  - intros i Hi. rewrite (st_v _ _ _ _ _ St) by lia. case_decide; [done|lia].
Qed.

(** C9: started with the counter at 1 (and [max_time_step >= 1]), the loop
    runs the body [max_time_step - 1] times, once for each value 1, ...,
    [max_time_step - 1] of the counter, and stops with the counter equal to
    [max_time_step]: that many iterations are enough and fewer are not. *)
Theorem main_loop_steps s :
  wf_cfg n m c → wf n m s → 0 < n → 0 < m →
  time_step s = 1%Z → (1 ≤ Cfg.max_time_step c)%Z →
  ∃ s', steps c (Z.to_nat (Cfg.max_time_step c - 1)) s = Some s' ∧
    time_step s' = Cfg.max_time_step c ∧
    (∀ fuel, Z.to_nat (Cfg.max_time_step c - 1) ≤ fuel →
       main_loop c fuel s = Finished s') ∧
    (∀ fuel, fuel < Z.to_nat (Cfg.max_time_step c - 1) →
       main_loop c fuel s = OutOfFuel).
Proof.
  intros Hc Hs Hn Hm H1 Hmax.
  destruct (steps_spec c n m Hc Hn Hm (Z.to_nat (Cfg.max_time_step c - 1)) s Hs)
    as (s' & E & _ & Ht).
  exists s'. split; [done|]. split; [lia|]. split.
  - intros fuel Hf. rewrite (main_loop_spec c n m Hc Hn Hm fuel s Hs), H1, E.
    case_decide; [done|lia].
  - intros fuel Hf. rewrite (main_loop_spec c n m Hc Hn Hm fuel s Hs), H1.
    case_decide; [lia|done].
Qed.
End StageTheorems.

Section SetupFacts.
Variable p : Par.t.
Local Open Scope R_scope.
Local Abbreviation n := (Z.to_nat (Par.N_x p)).
Local Abbreviation m := (Z.to_nat (Par.N_y p)).

Lemma length_linspace a b N : length (Setup.linspace a b N) = N.
Proof. unfold Setup.linspace. by rewrite length_fmap, length_seq. Qed.

Lemma shape_X : shape n m (Setup.X p).
Proof.
  split.
  - unfold Setup.X. rewrite length_fmap. apply length_linspace.
  - apply Forall_fmap, Forall_forall. intros xi _. simpl.
    rewrite length_fmap. apply length_linspace.
Qed.

Lemma shape_Y : shape n m (Setup.Y p).
Proof.
  split.
  - unfold Setup.Y. rewrite length_fmap. apply length_linspace.
  - apply Forall_fmap, Forall_forall. intros xi _. simpl. apply length_linspace.
Qed.

Lemma shape_source : shape n m (Setup.source p).
Proof. apply shape_zip_with2; [apply shape_X|apply shape_Y]. Qed.

Lemma shape_eta_0 : shape n m (Setup.eta_0 p).
Proof. apply shape_zip_with2; [apply shape_X|apply shape_Y]. Qed.

Lemma shape_ones : shape n m (Setup.ones n m).
Proof.
  split; [apply length_replicate|]. apply Forall_replicate, length_replicate.
Qed.

Lemma get_ones i j : (i < n)%nat → (j < m)%nat → get (Setup.ones n m) i j = 1.
Proof.
  intros Hi Hj. unfold get, Setup.ones, Setup.ones1.
  rewrite !lookup_replicate_2 by done. simpl. by rewrite lookup_replicate_2.
Qed.

Lemma shape_sink : shape n m (Setup.sink p).
Proof. apply shape_arr_div_scal, shape_fmap2, shape_ones. Qed.

Lemma length_f : length (Setup.f p) = m.
Proof.
  unfold Setup.f, Setup.ones1. rewrite length_fmap, length_replicate.
  apply length_linspace.
Qed.

(** line 75 gives every cell of the sink the same value *)
Lemma sink_cell i j :
  (i < n)%nat → (j < m)%nat →
  get (Setup.sink p) i j =
    1 * arr_sum (Setup.source p) / IZR (Par.N_x p * Par.N_y p).
Proof.
  intros Hi Hj. unfold Setup.sink.
  rewrite (get_arr_div_scal n m); [|apply shape_fmap2, shape_ones|done..].
  rewrite (get_fmap2 (λ o, o * arr_sum (Setup.source p)) n m);
    [|apply shape_ones|done..].
  by rewrite get_ones.
Qed.

Lemma sink_total :
  (2 ≤ Par.N_x p)%Z → (2 ≤ Par.N_y p)%Z →
  arr_sum (Setup.sink p) = arr_sum (Setup.source p).
Proof.
  intros Hx Hy. rewrite (arr_sum_rsum2 n m) by apply shape_sink.
  rewrite (rsum2_ext _ (λ _ _,
    1 * arr_sum (Setup.source p) / IZR (Par.N_x p * Par.N_y p)))
    by (intros; by apply sink_cell).
  unfold rsum2. rewrite (rsum_ext _ (λ _, INR m *
    (1 * arr_sum (Setup.source p) / IZR (Par.N_x p * Par.N_y p))))
    by (intros; apply rsum_const).
  rewrite rsum_const, mult_IZR.
  assert (En : INR n = IZR (Par.N_x p)).
  { rewrite INR_IZR_INZ. f_equal. lia. }
  assert (Em : INR m = IZR (Par.N_y p)).
  { rewrite INR_IZR_INZ. f_equal. lia. }
  rewrite En, Em.
  assert (IZR (Par.N_x p) ≠ 0) by (apply not_0_IZR; lia).
  assert (IZR (Par.N_y p) ≠ 0) by (apply not_0_IZR; lia).
  by field.
Qed.

Lemma setup_Some c s0 :
  Setup.setup p = Some (c, s0) →
  (2 ≤ Par.N_x p)%Z ∧ (2 ≤ Par.N_y p)%Z ∧
  (Par.use_sink p = true → Par.use_source p = true) ∧
  c = Setup.config p ∧ s0 = init_state n m (Setup.eta_0 p).
Proof.
  unfold Setup.setup. intros E.
  destruct (bool_decide (Par.N_x p ≤ 1)%Z) eqn:Ex; [done|].
  destruct (bool_decide (Par.N_y p ≤ 1)%Z) eqn:Ey; [done|].
  apply bool_decide_eq_false in Ex, Ey. simpl in E.
  destruct (Par.use_sink p), (Par.use_source p); simpl in E; try done;
    injection E as <- <-; repeat split; try done; lia.
Qed.

Lemma setup_wf c s0 :
  Setup.setup p = Some (c, s0) →
  wf_cfg n m c ∧ wf n m s0 ∧ (0 < n)%nat ∧ (0 < m)%nat ∧ time_step s0 = 1%Z.
Proof.
  intros E. apply setup_Some in E as (Hx & Hy & _ & -> & ->).
  split; [|split; [|repeat split; lia]].
  - split; simpl.
    + intros ->. apply length_f.
    + intros ->. apply shape_source.
    + intros ->. apply shape_sink.
  - apply init_state_wf, shape_eta_0.
Qed.
End SetupFacts.

(** ** Conservation of mass and the state of rest *)

Section Invariants.
Variable c : Cfg.t R.
Variables n m : nat.
Local Open Scope R_scope.
Implicit Types (s : State R) (t : nat).

Lemma steps_mass t s :
  wf_cfg n m c → wf n m s → (0 < n)%nat → (0 < m)%nat →
  ∃ s', steps c t s = Some s' ∧
    arr_sum (eta_n s') = arr_sum (eta_n s) + INR t * net_forcing c.
Proof.
  intros Hc Hs Hn Hm. revert s Hs. induction t as [|t IH]; intros s Hs.
  - exists s. split; [done|]. simpl. lra.
  - destruct (step_spec c n m s Hc Hs Hn Hm) as (s1 & E1 & St).
    destruct (IH s1 (st_wf _ _ _ _ _ St)) as (s' & E' & Hsum).
    exists s'. split; [simpl; by rewrite E1|].
    rewrite Hsum, (mass_balance c n m s s1 Hc Hs St), S_INR.
    unfold net_forcing. lra.
Qed.

(** a store at rest stays at rest through one pass *)
Lemma zero_step s s' :
  wf_cfg n m c → wf n m s → stepped c n m s s' →
  Cfg.use_source c = false → Cfg.use_sink c = false →
  u_n s = zeros n m → v_n s = zeros n m → eta_n s = zeros n m →
  u_n s' = zeros n m ∧ v_n s' = zeros n m ∧ eta_n s' = zeros n m.
Proof.
  intros Hc Hs St Esrc Esnk Eu Ev Eeta.
  pose proof (momentum_predictor_wf c n m s Hs) as Hs1.
  assert (Hu : ∀ i j, (i < n)%nat → (j < m)%nat → get (u_n s') i j = 0).
  { intros i j Hi Hj. rewrite (st_u _ _ _ _ _ St) by done.
    case_decide as Ei; [done|].
    assert (P : get (u_np1 (momentum_predictor c s)) i j = 0).
    { rewrite (predictor_u_cell c n m) by (done || lia).
      rewrite Eu, Eeta, !get_zeros. simpl. lra. }
    destruct (Cfg.use_coriolis c) eqn:Ec.
    - destruct (corrector_on c n m _ i j Hc Hs1 Ec Hi Hj) as [-> _].
      rewrite P. simpl. rewrite Ev, get_zeros. simpl. lra.
    - by rewrite corrector_off. }
  assert (Hv : ∀ i j, (i < n)%nat → (j < m)%nat → get (v_n s') i j = 0).
  { intros i j Hi Hj. rewrite (st_v _ _ _ _ _ St) by done.
    case_decide as Ej; [done|].
    assert (P : get (v_np1 (momentum_predictor c s)) i j = 0).
    { rewrite (predictor_v_cell c n m) by (done || lia).
      rewrite Ev, Eeta, !get_zeros. simpl. lra. }
    destruct (Cfg.use_coriolis c) eqn:Ec.
    - destruct (corrector_on c n m _ i j Hc Hs1 Ec Hi Hj) as [_ ->].
      rewrite P. simpl. rewrite Eu, get_zeros. simpl. lra.
    - by rewrite corrector_off. }
  pose proof (st_wf _ _ _ _ _ St) as Hs'.
  split; [|split].
  - apply (array_ext n m); [apply Hs'|apply shape_zeros|].
    intros i j Hi Hj. by rewrite get_zeros, Hu.
  - apply (array_ext n m); [apply Hs'|apply shape_zeros|].
    intros i j Hi Hj. by rewrite get_zeros, Hv.
  - apply (array_ext n m); [apply Hs'|apply shape_zeros|].
    intros i j Hi Hj.
    assert (get (uhwe s') i j = 0) as Hx.
    { rewrite (st_uhwe _ _ _ _ _ St) by done.
      destruct i as [|i']; rewrite ?Hu by lia; simpl; lra. }
    assert (get (vhns s') i j = 0) as Hy.
    { rewrite (st_vhns _ _ _ _ _ St) by done.
      destruct j as [|j']; rewrite ?Hv by lia; simpl; lra. }
    rewrite get_zeros, (st_eta _ _ _ _ _ St) by done.
    rewrite Esrc, Esnk, Eeta, get_zeros, Hx, Hy. simpl. unfold Rdiv. lra.
Qed.

(** C6: with source and sink disabled, the total of [eta] after any number
    [T] of passes is exactly the total at the start (in exact arithmetic):
    the net fluxes cancel pairwise and the flux through the eastern and
    northern walls is zero. *)
Theorem mass_conservation s T :
  wf_cfg n m c → wf n m s → (0 < n)%nat → (0 < m)%nat →
  Cfg.use_source c = false → Cfg.use_sink c = false →
  ∃ s', steps c T s = Some s' ∧ arr_sum (eta_n s') = arr_sum (eta_n s).
Proof.
  intros Hc Hs Hn Hm Esrc Esnk.
  destruct (steps_mass T s Hc Hs Hn Hm) as (s' & E & Hsum).
  exists s'. split; [done|]. rewrite Hsum. unfold net_forcing.
  rewrite Esrc, Esnk. lra.
Qed.

(** C7: from [u = v = 0] and [eta = 0] everywhere, with source and sink
    disabled and Coriolis enabled or not, the fields are exactly zero after
    every number [t >= 1] of passes. *)
Theorem zero_state_fixed_point s t :
  wf_cfg n m c → wf n m s → (0 < n)%nat → (0 < m)%nat →
  Cfg.use_source c = false → Cfg.use_sink c = false →
  u_n s = zeros n m → v_n s = zeros n m → eta_n s = zeros n m →
  (1 ≤ t)%nat →
  ∃ s', steps c t s = Some s' ∧
    u_n s' = zeros n m ∧ v_n s' = zeros n m ∧ eta_n s' = zeros n m.
Proof.
  intros Hc Hs Hn Hm Esrc Esnk Eu Ev Eeta _.
  revert s Hs Eu Ev Eeta. induction t as [|t IH]; intros s Hs Eu Ev Eeta.
  - by exists s.
  - destruct (step_spec c n m s Hc Hs Hn Hm) as (s1 & E1 & St).
    destruct (zero_step s s1 Hc Hs St Esrc Esnk Eu Ev Eeta) as (Eu1 & Ev1 & Eeta1).
    destruct (IH s1 (st_wf _ _ _ _ _ St) Eu1 Ev1 Eeta1) as (s' & E' & Hs').
    exists s'. split; [simpl; by rewrite E1|done].
Qed.
End Invariants.

(** ** What the setup guarantees to the loop *)

Section SetupTheorems.
Variable p : Par.t.
Local Open Scope R_scope.

Lemma setup_succeeds :
  (2 ≤ Par.N_x p)%Z → (2 ≤ Par.N_y p)%Z →
  (Par.use_sink p = true → Par.use_source p = true) →
  Setup.setup p =
    Some (Setup.config p,
          init_state (Z.to_nat (Par.N_x p)) (Z.to_nat (Par.N_y p)) (Setup.eta_0 p)).
Proof.
  intros Hx Hy Hss. unfold Setup.setup.
  rewrite !bool_decide_eq_false_2 by lia. simpl.
  destruct (Par.use_sink p); [|done]. by rewrite Hss.
Qed.

(** line 75 reads [source], which is unbound when the source is off *)
Lemma sink_without_source_raises :
  Par.use_sink p = true → Par.use_source p = false → Setup.setup p = None.
Proof.
  intros Hk Hs. unfold Setup.setup. rewrite Hk, Hs.
  by destruct (bool_decide _ || bool_decide _).
Qed.

Lemma spacing_pos L N : 0 < L → (2 ≤ N)%Z → 0 < L / IZR (N - 1).
Proof.
  intros HL HN. apply Rdiv_lt_0_compat; [done|]. apply IZR_lt. lia.
Qed.




(** C10: when the setup enables both source and sink, every cell of the
    sink holds the total of the source divided by [N_x * N_y], the two
    totals are equal, the forcing [dt * (sum source - sum sink)] of a pass
    is zero, and the total of [eta] is the same after any number of
    passes. *)
Theorem forcing_balance c s0 :
  Setup.setup p = Some (c, s0) →
  Par.use_source p = true → Par.use_sink p = true →
  (∀ i j, (i < Z.to_nat (Par.N_x p))%nat → (j < Z.to_nat (Par.N_y p))%nat →
     get (Cfg.sink c) i j = arr_sum (Cfg.source c) / IZR (Par.N_x p * Par.N_y p)) ∧
  arr_sum (Cfg.sink c) = arr_sum (Cfg.source c) ∧
  Cfg.dt c * (arr_sum (Cfg.source c) - arr_sum (Cfg.sink c)) = 0 ∧
  ∀ T, ∃ s', steps c T s0 = Some s' ∧ arr_sum (eta_n s') = arr_sum (eta_n s0).
Proof.
  intros E Esrc Esnk.
  destruct (setup_wf p _ _ E) as (Hc & Hs & Hn & Hm & _).
  destruct (setup_Some p _ _ E) as (Hx & Hy & _ & -> & ->).
  assert (Et : arr_sum (Cfg.sink (Setup.config p))
               = arr_sum (Cfg.source (Setup.config p))).
  { simpl. rewrite Esrc, Esnk. by apply sink_total. }
  split; [|split; [done|split]].
  - intros i j Hi Hj. simpl. rewrite Esrc, Esnk, sink_cell by done.
    unfold Rdiv. ring.
  - rewrite Et. ring.
  - intros T. destruct (steps_mass _ _ _ T _ Hc Hs Hn Hm) as (s' & Es & Hsum).
    exists s'. split; [done|]. rewrite Hsum. unfold net_forcing.
    simpl. rewrite Esrc, Esnk. simpl in Et. rewrite Esrc, Esnk in Et.
    rewrite Et. ring.
Qed.
End SetupTheorems.

(** ** Concrete runs *)

Section Demo.
Local Open Scope R_scope.

Lemma demo_cfg_wf : wf_cfg 2 2 demo_cfg.
Proof. split; simpl; done. Qed.

Lemma demo_state_wf : wf 2 2 demo_state.
Proof. apply init_state_wf. split; [done|]. by repeat constructor. Qed.

Lemma rest_state_wf : wf 2 2 rest_state.
Proof. apply init_state_wf, shape_zeros. Qed.

End Demo.

(** ** The theorems at the concrete runs *)

Section Instances.
Local Open Scope scalar_scope.

Lemma momentum_predictor_cells_demo :
  wf 2 2 demo_state ∧
  get (u_np1 (momentum_predictor demo_cfg demo_state)) 0 1 =
    get (u_n demo_state) 0 1
    - Cfg.g demo_cfg * Cfg.dt demo_cfg / Cfg.dx demo_cfg
      * (get (eta_n demo_state) (0 + 1) 1 - get (eta_n demo_state) 0 1).
Proof.
  split; [exact demo_state_wf|].
  destruct (momentum_predictor_cells demo_cfg 2 2 demo_state demo_state_wf)
    as (Hu & _).
  exact (Hu 0 1 ltac:(lia) ltac:(lia)).
Defined.

Lemma coriolis_corrector_cells_demo :
  wf_cfg 2 2 demo_cfg ∧ wf 2 2 demo_state ∧
  get (u_np1 (coriolis_corrector demo_cfg (momentum_predictor demo_cfg demo_state))) 0 1 =
    get (u_np1 (momentum_predictor demo_cfg demo_state)) 0 1
    + get1 (Cfg.f demo_cfg) 1 * get (v_n demo_state) 0 1.
Proof.
  split; [exact demo_cfg_wf|]. split; [exact demo_state_wf|].
  destruct (coriolis_corrector_cells demo_cfg 2 2 demo_state demo_cfg_wf demo_state_wf)
    as (Hon & _).
  destruct (Hon eq_refl 0 1 ltac:(lia) ltac:(lia)) as (Hu & _). exact Hu.
Defined.

Lemma upwind_face_depths_demo :
  wf_cfg 2 2 demo_cfg ∧ wf 2 2 demo_state ∧ 0 < 2 ∧
  ∃ s', step demo_cfg demo_state = Some s' ∧
    get (h_w s') 1 0 = get (h_e s') 0 0 ∧ get (h_s s') 0 1 = get (h_n s') 0 0.
Proof.
  split; [exact demo_cfg_wf|]. split; [exact demo_state_wf|]. split; [lia|].
  destruct (upwind_face_depths demo_cfg 2 2 demo_state demo_cfg_wf demo_state_wf)
    as (s' & E & Hh); [lia..|].
  exists s'. split; [exact E|]. split.
  - destruct (Hh 1 0) as (_ & Hw & _); [lia..|]. exact Hw.
  - destruct (Hh 0 1) as (_ & _ & _ & Hs); [lia..|]. exact Hs.
Defined.

Lemma continuity_update_demo :
  wf_cfg 2 2 demo_cfg ∧ wf 2 2 demo_state ∧ 0 < 2 ∧
  ∃ s', step demo_cfg demo_state = Some s' ∧
    get (eta_n s') 0 0 =
      get (eta_n demo_state) 0 0
      - Cfg.dt demo_cfg * (get (uhwe s') 0 0 / Cfg.dx demo_cfg
                           + get (vhns s') 0 0 / Cfg.dy demo_cfg).
Proof.
  split; [exact demo_cfg_wf|]. split; [exact demo_state_wf|]. split; [lia|].
  destruct (continuity_update demo_cfg 2 2 demo_state demo_cfg_wf demo_state_wf)
    as (s' & E & Hh); [lia..|].
  exists s'. split; [exact E|].
  destruct (Hh 0 0) as (_ & _ & He); [lia..|]. exact He.
Defined.

Lemma boundary_invariant_demo :
  wf_cfg 2 2 demo_cfg ∧ wf 2 2 demo_state ∧ 0 < 2 ∧ 1 ≤ 2 ∧
  ∃ s', steps demo_cfg 2 demo_state = Some s' ∧
    (∀ j, j < 2 → get (u_n s') (2 - 1) j = fzero) ∧
    (∀ i, i < 2 → get (v_n s') i (2 - 1) = fzero).
Proof.
  split; [exact demo_cfg_wf|]. split; [exact demo_state_wf|].
  split; [lia|]. split; [lia|].
  apply (boundary_invariant demo_cfg 2 2 demo_state 2 demo_cfg_wf demo_state_wf); lia.
Defined.

Lemma main_loop_steps_demo :
  wf_cfg 2 2 demo_cfg ∧ wf 2 2 demo_state ∧ 0 < 2 ∧
  time_step demo_state = 1%Z ∧ (1 ≤ Cfg.max_time_step demo_cfg)%Z ∧
  ∃ s', steps demo_cfg 2 demo_state = Some s' ∧ time_step s' = 3%Z ∧
    main_loop demo_cfg 2 demo_state = Finished s' ∧
    main_loop demo_cfg 1 demo_state = OutOfFuel.
Proof.
  split; [exact demo_cfg_wf|]. split; [exact demo_state_wf|]. split; [lia|].
  split; [reflexivity|]. split; [simpl; lia|].
  destruct (main_loop_steps demo_cfg 2 2 demo_state demo_cfg_wf demo_state_wf)
    as (s' & E & Ht & Hfin & Hout); [lia|lia|reflexivity|simpl; lia|].
  exists s'. split; [exact E|]. split; [exact Ht|]. split.
  - apply Hfin. simpl. lia.
  - apply Hout. simpl. lia.
Defined.

Lemma mass_conservation_demo :
  wf_cfg 2 2 demo_cfg ∧ wf 2 2 demo_state ∧ 0 < 2 ∧
  Cfg.use_source demo_cfg = false ∧ Cfg.use_sink demo_cfg = false ∧
  ∃ s', steps demo_cfg 2 demo_state = Some s' ∧
    arr_sum (eta_n s') = arr_sum (eta_n demo_state).
Proof.
  split; [exact demo_cfg_wf|]. split; [exact demo_state_wf|]. split; [lia|].
  split; [reflexivity|]. split; [reflexivity|].
  apply (mass_conservation demo_cfg 2 2 demo_state 2 demo_cfg_wf demo_state_wf);
    [lia|lia|reflexivity|reflexivity].
Defined.

Lemma zero_state_fixed_point_demo :
  wf_cfg 2 2 demo_cfg ∧ wf 2 2 rest_state ∧ 0 < 2 ∧ 1 ≤ 2 ∧
  Cfg.use_source demo_cfg = false ∧ Cfg.use_sink demo_cfg = false ∧
  u_n rest_state = zeros 2 2 ∧ v_n rest_state = zeros 2 2 ∧
  eta_n rest_state = zeros 2 2 ∧
  ∃ s', steps demo_cfg 2 rest_state = Some s' ∧
    u_n s' = zeros 2 2 ∧ v_n s' = zeros 2 2 ∧ eta_n s' = zeros 2 2.
Proof.
  split; [exact demo_cfg_wf|]. split; [exact rest_state_wf|].
  split; [lia|]. split; [lia|]. do 5 (split; [reflexivity|]).
  apply (zero_state_fixed_point demo_cfg 2 2 rest_state 2 demo_cfg_wf rest_state_wf);
    [lia|lia|reflexivity..|lia].
Defined.


Lemma forcing_balance_reference :
  Setup.setup reference_forced =
    Some (Setup.config reference_forced,
          init_state 150 150 (Setup.eta_0 reference_forced)) ∧
  Par.use_source reference_forced = true ∧ Par.use_sink reference_forced = true ∧
  arr_sum (Cfg.sink (Setup.config reference_forced))
    = arr_sum (Cfg.source (Setup.config reference_forced)).
Proof.
  assert (E : Setup.setup reference_forced =
    Some (Setup.config reference_forced,
          init_state 150 150 (Setup.eta_0 reference_forced))).
  { apply (setup_succeeds reference_forced); unfold reference_forced; simpl;
      (lia || done). }
  split; [exact E|]. split; [reflexivity|]. split; [reflexivity|].
  destruct (forcing_balance reference_forced _ _ E eq_refl eq_refl) as (_ & Et & _).
  exact Et.
Defined.
End Instances.

(** ** The loop body run on rational numbers *)

Section Scenario.
Local Open Scope Q_scope.

(** One pass on the raised cell: the velocities towards the cell are
    [-g * dt / dx = -0.1], the wall velocities are zero, the face between
    cells (0, 1) and (1, 1) takes the depth of the cell the flow comes from,
    and the total of [eta] is still 1. *)
Example scenario_first_pass :
  readings <$> step scenario_cfg scenario_state
    = Some [-0.1; -0.1; 0; 0; 2; 2; 1].
Proof. vm_compute. reflexivity. Qed.

(** Both passes of the loop ([max_time_step = 3]): the total of [eta] is
    still 1 and the counter ends at 3. *)
Example scenario_loop :
  match main_loop scenario_cfg 2 scenario_state with
  | Finished s => Some (arr_sum (eta_n s), time_step s)
  | _ => None
  end = Some (1, 3%Z).
Proof. vm_compute. reflexivity. Qed.

(** One iteration too few does not reach the end of the loop. *)
Example scenario_loop_short : main_loop scenario_cfg 1 scenario_state = OutOfFuel.
Proof. vm_compute. reflexivity. Qed.

(** On a grid without rows the first boundary assignment ([u_np1[-1, :]])
    has no row to index. *)
Example empty_grid_raises :
  step scenario_cfg (init_state 0 4 []) = None ∧
  main_loop scenario_cfg 2 (init_state 0 4 []) = IndexError.
Proof. split; vm_compute; reflexivity. Qed.
End Scenario.

(** * Further properties of the script *)

(** ** When the loop body raises *)

Section Raising.
Context {F : Type} {SF : Scalar F}.
Variable c : Cfg.t F.
Variables n m : nat.
Implicit Types (s : State F).

Lemma shape_no_rows {B} k (a : list (list B)) : shape 0 k a → a = [].
Proof. intros [Ha _]. by destruct a. Qed.

Lemma boundary_conditions_empty s :
  wf n m s → n = 0 ∨ m = 0 → boundary_conditions s = None.
Proof.
  intros Hs Hnm. unfold boundary_conditions.
  destruct n as [|n'] eqn:En.
  - rewrite (shape_no_rows m (v_np1 s)) by apply Hs. simpl.
    by rewrite (shape_no_rows m (u_np1 s)) by apply Hs.
  - destruct Hnm as [?| ->]; [done|].
    destruct (wf_v_np1 _ _ _ Hs) as [Hl Hr].
    destruct (v_np1 s) as [|r a]; [done|].
    apply Forall_cons in Hr as [Hr _]. destruct r; [|done].
    unfold set_col_final. rewrite (proj2 (mapM_None _ _)); [done|].
    simpl. by apply Exists_cons_hd.
Qed.

Lemma step_empty s :
  wf_cfg n m c → wf n m s → n = 0 ∨ m = 0 → step c s = None.
Proof.
  intros Hc Hs Hnm. unfold step.
  rewrite boundary_conditions_empty;
    [done|by apply coriolis_corrector_wf, momentum_predictor_wf|done].
Qed.

(** X1: on stores whose arrays all have shape [(n, m)], a pass through the
    loop body raises exactly when an axis is empty; otherwise it returns a
    store of the same shape with the counter advanced by one. *)
Theorem body_raises_iff_empty s :
  wf_cfg n m c → wf n m s →
  (step c s = None ↔ n = 0 ∨ m = 0) ∧
  (∀ s', step c s = Some s' →
     wf n m s' ∧ time_step s' = (time_step s + 1)%Z).
Proof.
  intros Hc Hs. split; [split|].
  - intros E. destruct (decide (n = 0)) as [|Hn]; [by left|].
    destruct (decide (m = 0)) as [|Hm]; [by right|].
    destruct (step_spec c n m s Hc Hs) as (s' & E' & _); [lia..|congruence].
  - by apply step_empty.
  - intros s' E. destruct (decide (n = 0 ∨ m = 0)) as [Hnm|Hnm].
    + by rewrite step_empty in E.
    + destruct (step_spec c n m s Hc Hs) as (s1 & E1 & St); [lia..|].
      rewrite E in E1. injection E1 as <-.
      split; [apply (st_wf _ _ _ _ _ St)|apply (st_time _ _ _ _ _ St)].
Qed.

(** X2: on a grid with an empty axis the loop raises IndexError in its first
    pass whenever it has a pass to make, and returns the store untouched
    only when the counter has already reached [max_time_step]. *)
Theorem main_loop_empty_grid s fuel :
  wf_cfg n m c → wf n m s → n = 0 ∨ m = 0 →
  main_loop c (S fuel) s =
    if (time_step s <? Cfg.max_time_step c)%Z then IndexError else Finished s.
Proof.
  intros Hc Hs Hnm. simpl.
  destruct (time_step s <? Cfg.max_time_step c)%Z; [|done].
  by rewrite step_empty.
Qed.
End Raising.

(** ** What a pass reads *)

Section Reads.
Context {F : Type} {SF : Scalar F}.
Variable c : Cfg.t F.
Variables n m : nat.
Local Open Scope scalar_scope.
Implicit Types (s : State F).

Lemma step_rebinds1 (c1 : Cfg.t F) s s' :
  step c1 s = Some s' →
  u_np1 s' = u_n s' ∧ v_np1 s' = v_n s' ∧ eta_np1 s' = eta_n s'.
Proof.
  unfold step. intros E.
  destruct (boundary_conditions _) as [s3|]; [|done]. cbn [mbind option_bind] in E.
  destruct (upwind_depths c1 s3) as [s4|]; [|done]. cbn [mbind option_bind] in E.
  destruct (net_fluxes s4) as [s5|]; [|done]. cbn [mbind option_bind] in E.
  by injection E as <-.
Qed.

Lemma step_rebinds s s' :
  step c s = Some s' →
  u_np1 s' = u_n s' ∧ v_np1 s' = v_n s' ∧ eta_np1 s' = eta_n s'.
Proof. apply step_rebinds1. Qed.

Lemma predicted_cells_current s1 s2 i j :
  wf_cfg n m c → wf n m s1 → wf n m s2 →
  u_n s1 = u_n s2 → v_n s1 = v_n s2 → eta_n s1 = eta_n s2 →
  i < n → j < m →
  (i + 1 < n →
   get (u_np1 (coriolis_corrector c (momentum_predictor c s1))) i j =
   get (u_np1 (coriolis_corrector c (momentum_predictor c s2))) i j) ∧
  (j + 1 < m →
   get (v_np1 (coriolis_corrector c (momentum_predictor c s1))) i j =
   get (v_np1 (coriolis_corrector c (momentum_predictor c s2))) i j).
Proof.
  intros Hc H1 H2 Eu Ev Ee Hi Hj.
  pose proof (momentum_predictor_wf c n m s1 H1) as P1.
  pose proof (momentum_predictor_wf c n m s2 H2) as P2.
  destruct (Cfg.use_coriolis c) eqn:Ec.
  - destruct (corrector_on c n m _ i j Hc P1 Ec Hi Hj) as [-> ->].
    destruct (corrector_on c n m _ i j Hc P2 Ec Hi Hj) as [-> ->].
    split; intros Hlt.
    + rewrite !(predictor_u_cell c n m) by done.
      change (v_n (momentum_predictor c s1)) with (v_n s1).
      change (v_n (momentum_predictor c s2)) with (v_n s2).
      by rewrite Eu, Ev, Ee.
    + rewrite !(predictor_v_cell c n m) by done.
      change (u_n (momentum_predictor c s1)) with (u_n s1).
      change (u_n (momentum_predictor c s2)) with (u_n s2).
      by rewrite Eu, Ev, Ee.
  - rewrite !corrector_off by done. split; intros Hlt.
    + rewrite !(predictor_u_cell c n m) by done. by rewrite Eu, Ee.
    + rewrite !(predictor_v_cell c n m) by done. by rewrite Ev, Ee.
Qed.

Lemma stepped_agree (c2 : Cfg.t F) s1 s2 t1 t2 :
  step c s1 = Some t1 → step c2 s2 = Some t2 →
  stepped c n m s1 t1 → stepped c2 n m s2 t2 →
  Cfg.H c = Cfg.H c2 → Cfg.dt c = Cfg.dt c2 →
  Cfg.dx c = Cfg.dx c2 → Cfg.dy c = Cfg.dy c2 →
  Cfg.use_source c = Cfg.use_source c2 → Cfg.use_sink c = Cfg.use_sink c2 →
  Cfg.source c = Cfg.source c2 → Cfg.sink c = Cfg.sink c2 →
  eta_n s1 = eta_n s2 → time_step s1 = time_step s2 →
  u_n t1 = u_n t2 → v_n t1 = v_n t2 →
  t1 = t2.
Proof.
  intros E1 E2 St1 St2 EH Edt Edx Edy Eus Euk Esrc Esnk Ee Et U V.
  destruct (step_rebinds _ _ E1) as (Ru1 & Rv1 & Re1).
  destruct (step_rebinds1 c2 _ _ E2) as (Ru2 & Rv2 & Re2).
  pose proof (st_wf _ _ _ _ _ St1) as W1. pose proof (st_wf _ _ _ _ _ St2) as W2.
  assert (He : h_e t1 = h_e t2).
  { apply (array_ext n m); [apply W1|apply W2|]. intros i j Hi Hj.
    rewrite (st_h_e _ _ _ _ _ St1), (st_h_e _ _ _ _ _ St2) by done.
    by rewrite U, Ee, EH. }
  assert (Hw : h_w t1 = h_w t2).
  { apply (array_ext n m); [apply W1|apply W2|]. intros i j Hi Hj.
    rewrite (st_h_w _ _ _ _ _ St1), (st_h_w _ _ _ _ _ St2) by done.
    by rewrite U, Ee, EH. }
  assert (Hnn : h_n t1 = h_n t2).
  { apply (array_ext n m); [apply W1|apply W2|]. intros i j Hi Hj.
    rewrite (st_h_n _ _ _ _ _ St1), (st_h_n _ _ _ _ _ St2) by done.
    by rewrite V, Ee, EH. }
  assert (Hs : h_s t1 = h_s t2).
  { apply (array_ext n m); [apply W1|apply W2|]. intros i j Hi Hj.
    rewrite (st_h_s _ _ _ _ _ St1), (st_h_s _ _ _ _ _ St2) by done.
    by rewrite V, Ee, EH. }
  assert (Fx : uhwe t1 = uhwe t2).
  { apply (array_ext n m); [apply W1|apply W2|]. intros i j Hi Hj.
    rewrite (st_uhwe _ _ _ _ _ St1), (st_uhwe _ _ _ _ _ St2) by done.
    by rewrite U, He, Hw. }
  assert (Fy : vhns t1 = vhns t2).
  { apply (array_ext n m); [apply W1|apply W2|]. intros i j Hi Hj.
    rewrite (st_vhns _ _ _ _ _ St1), (st_vhns _ _ _ _ _ St2) by done.
    by rewrite V, Hnn, Hs. }
  assert (E : eta_n t1 = eta_n t2).
  { apply (array_ext n m); [apply W1|apply W2|]. intros i j Hi Hj.
    rewrite (st_eta _ _ _ _ _ St1), (st_eta _ _ _ _ _ St2) by done.
    by rewrite Fx, Fy, Ee, Edt, Edx, Edy, Eus, Euk, Esrc, Esnk. }
  assert (T : time_step t1 = time_step t2).
  { rewrite (st_time _ _ _ _ _ St1), (st_time _ _ _ _ _ St2). by rewrite Et. }
  destruct t1, t2. simpl in *. congruence.
Qed.

(** X3: a pass is a function of the current fields [u_n], [v_n], [eta_n]
    and the counter alone: whatever the [_np1] buffers and the scratch
    arrays [h_e], ..., [vhns] hold when it starts is overwritten before it is
    read, so two stores that agree on the current fields are taken to the
    same store. *)
Theorem pass_reads_current_fields s1 s2 :
  wf_cfg n m c → wf n m s1 → wf n m s2 → 0 < n → 0 < m →
  u_n s1 = u_n s2 → v_n s1 = v_n s2 → eta_n s1 = eta_n s2 →
  time_step s1 = time_step s2 →
  step c s1 = step c s2.
Proof.
  intros Hc H1 H2 Hn Hm Eu Ev Ee Et.
  destruct (step_spec c n m s1 Hc H1 Hn Hm) as (t1 & E1 & St1).
  destruct (step_spec c n m s2 Hc H2 Hn Hm) as (t2 & E2 & St2).
  rewrite E1, E2. f_equal.
  pose proof (st_wf _ _ _ _ _ St1) as W1. pose proof (st_wf _ _ _ _ _ St2) as W2.
  apply (stepped_agree c s1 s2); try done.
  - apply (array_ext n m); [apply W1|apply W2|]. intros i j Hi Hj.
    rewrite (st_u _ _ _ _ _ St1), (st_u _ _ _ _ _ St2) by done.
    case_decide; [done|].
    apply (predicted_cells_current s1 s2 i j); (done || lia).
  - apply (array_ext n m); [apply W1|apply W2|]. intros i j Hi Hj.
    rewrite (st_v _ _ _ _ _ St1), (st_v _ _ _ _ _ St2) by done.
    case_decide; [done|].
    apply (predicted_cells_current s1 s2 i j); (done || lia).
Qed.
End Reads.

(** ** The loop body on array objects *)

Section MemoryFacts.
Context {F : Type} {SF : Scalar F}.
Variable c : Cfg.t F.
Implicit Types (μ : Mem F) (x y : name) (a : list (list F)).

Lemma rd_wr_eq x a μ : separate μ → rd x (wr x a μ) = a.
Proof.
  intros Hs. unfold rd, wr. simpl.
  by rewrite list_lookup_insert_eq by apply Hs.
Qed.

Lemma rd_wr_ne x y a μ : separate μ → x ≠ y → rd y (wr x a μ) = rd y μ.
Proof.
  intros Hs Hne. unfold rd, wr. simpl.
  rewrite list_lookup_insert_ne; [done|]. intros E. by apply Hs in E.
Qed.

Lemma separate_wr x a μ : separate μ → separate (wr x a μ).
Proof.
  intros [Hi Ha]. split; simpl; [done|]. intros y. by rewrite length_insert.
Qed.

Lemma writes_refl μ : writes μ μ.
Proof. by split. Qed.

Lemma writes_wr x a μ0 μ :
  buffer x = true → writes μ0 μ → writes μ0 (wr x a μ).
Proof.
  intros Hx [He Hl Hc Hf]. split; simpl; [done|by rewrite length_insert|done|].
  intros l Hl'. rewrite list_lookup_insert_ne; [by apply Hf|].
  rewrite He. by apply Hl'.
Qed.

Lemma writes_separate μ0 μ : separate μ0 → writes μ0 μ → separate μ.
Proof.
  intros [Hi Ha] [He Hl _ _]. split; rewrite He; [done|]. by rewrite Hl.
Qed.

Lemma writes_trans μ0 μ1 μ2 : writes μ0 μ1 → writes μ1 μ2 → writes μ0 μ2.
Proof.
  intros [He Hl Hc Hf] [He' Hl' Hc' Hf']. split; try congruence.
  intros l Hb. rewrite Hf'; [by apply Hf|]. by rewrite He.
Qed.
End MemoryFacts.

Section Simulation.
Context {F : Type} {SF : Scalar F}.
Variable c : Cfg.t F.
Implicit Types (μ : Mem F) (a : list (list F)).

Ltac values_wr :=
  intros Hs; unfold values;
  rewrite ?rd_wr_eq by done; rewrite ?rd_wr_ne by (done || discriminate);
  reflexivity.

Lemma values_wr_u_np1 a μ : separate μ → values (wr U_np1 a μ) = with_u_np1 (values μ) a.
Proof. values_wr. Qed.
Lemma values_wr_v_np1 a μ : separate μ → values (wr V_np1 a μ) = with_v_np1 (values μ) a.
Proof. values_wr. Qed.
Lemma values_wr_eta_np1 a μ : separate μ → values (wr Eta_np1 a μ) = with_eta_np1 (values μ) a.
Proof. values_wr. Qed.
Lemma values_wr_h_e a μ : separate μ → values (wr H_e a μ) = with_h_e (values μ) a.
Proof. values_wr. Qed.
Lemma values_wr_h_w a μ : separate μ → values (wr H_w a μ) = with_h_w (values μ) a.
Proof. values_wr. Qed.
Lemma values_wr_h_n a μ : separate μ → values (wr H_n a μ) = with_h_n (values μ) a.
Proof. values_wr. Qed.
Lemma values_wr_h_s a μ : separate μ → values (wr H_s a μ) = with_h_s (values μ) a.
Proof. values_wr. Qed.
Lemma values_wr_uhwe a μ : separate μ → values (wr Uhwe a μ) = with_uhwe (values μ) a.
Proof. values_wr. Qed.
Lemma values_wr_vhns a μ : separate μ → values (wr Vhns a μ) = with_vhns (values μ) a.
Proof. values_wr. Qed.

Ltac by_values_wr :=
  first [apply values_wr_u_np1 | apply values_wr_v_np1 | apply values_wr_eta_np1
        | apply values_wr_h_e | apply values_wr_h_w | apply values_wr_h_n
        | apply values_wr_h_s | apply values_wr_uhwe | apply values_wr_vhns];
  assumption.

Ltac sim_step :=
  lazymatch goal with
  | |- values <$> (let m1 := wr ?X ?A ?μ in @?K m1) = (let s1 := ?e in @?K' s1) =>
      let Hv := fresh "Hv" in
      let Hs1 := fresh "Hs" in
      assert (Hv : e = values (wr X A μ)) by (symmetry; by_values_wr);
      assert (Hs1 : separate (wr X A μ)) by (apply separate_wr; assumption);
      change (values <$> K (wr X A μ) = K' e);
      rewrite Hv; clear Hv;
      revert Hs1; generalize (wr X A μ);
      let μ1 := fresh "μ" in intros μ1 Hs1; cbv beta
  | |- values <$> (?o ≫= _) = (?o' ≫= _) =>
      change o' with o;
      destruct o;
        [lazymatch goal with
         | |- values <$> (Some ?r ≫= ?Km) = (Some ?r ≫= ?Kv) =>
             change (values <$> Km r = Kv r); cbv beta
         end
        |reflexivity]
  | |- values <$> Some (wr _ _ _) = Some _ =>
      cbn [fmap option_fmap option_map]; f_equal; by_values_wr
  | |- values (let m1 := wr ?X ?A ?μ in @?K m1) = (let s1 := ?e in @?K' s1) =>
      let Hv := fresh "Hv" in
      let Hs1 := fresh "Hs" in
      assert (Hv : e = values (wr X A μ)) by (symmetry; by_values_wr);
      assert (Hs1 : separate (wr X A μ)) by (apply separate_wr; assumption);
      change (values (K (wr X A μ)) = K' e);
      rewrite Hv; clear Hv;
      revert Hs1; generalize (wr X A μ);
      let μ1 := fresh "μ" in intros μ1 Hs1; cbv beta
  | |- values (let m1 := ?μ in @?K m1) = (let s1 := ?e in @?K' s1) =>
      change (values (K μ) = K' e); cbv beta
  | |- values (wr _ _ _) = _ => by_values_wr
  | |- values ?μ = values ?μ => reflexivity
  end.

Ltac frame_step :=
  lazymatch goal with
  | Hw : writes ?μ0 ?μ |- writes_opt ?μ0 (let m1 := wr ?X ?A ?μ in @?K m1) =>
      let Hw1 := fresh "Hw" in
      assert (Hw1 : writes μ0 (wr X A μ)) by (apply writes_wr; [reflexivity|assumption]);
      change (writes_opt μ0 (K (wr X A μ)));
      clear Hw; revert Hw1; generalize (wr X A μ);
      let μ1 := fresh "μ" in intros μ1 Hw1; cbv beta
  | |- writes_opt ?μ0 (?o ≫= ?K) =>
      let r := fresh "r" in
      destruct o as [r|];
        [change (writes_opt μ0 (K r)); cbv beta
        |intros ? [=]]
  | Hw : writes ?μ0 ?μ |- writes_opt ?μ0 (Some (wr ?X ?A ?μ)) =>
      intros ? [= <-]; apply writes_wr; [reflexivity|assumption]
  end.

Lemma momentum_predictor_sim μ :
  separate μ → values (momentum_predictor_m c μ) = momentum_predictor c (values μ).
Proof.
  intros Hs. cbv beta delta [momentum_predictor_m momentum_predictor].
  repeat sim_step.
Qed.

Lemma momentum_predictor_writes μ0 μ :
  writes μ0 μ → writes μ0 (momentum_predictor_m c μ).
Proof.
  intros Hw. unfold momentum_predictor_m.
  by repeat (apply writes_wr; [reflexivity|]).
Qed.

Lemma coriolis_corrector_sim μ :
  separate μ → values (coriolis_corrector_m c μ) = coriolis_corrector c (values μ).
Proof.
  intros Hs. cbv beta delta [coriolis_corrector_m coriolis_corrector].
  destruct (Cfg.use_coriolis c); [|done]. repeat sim_step.
Qed.

Lemma coriolis_corrector_writes μ0 μ :
  writes μ0 μ → writes μ0 (coriolis_corrector_m c μ).
Proof.
  intros Hw. unfold coriolis_corrector_m.
  destruct (Cfg.use_coriolis c); [|done].
  by repeat (apply writes_wr; [reflexivity|]).
Qed.

Lemma boundary_conditions_sim μ :
  separate μ → values <$> boundary_conditions_m μ = boundary_conditions (values μ).
Proof.
  intros Hs. cbv beta delta [boundary_conditions_m boundary_conditions].
  repeat sim_step.
Qed.

Lemma boundary_conditions_writes μ0 μ :
  writes μ0 μ → writes_opt μ0 (boundary_conditions_m μ).
Proof.
  intros Hw. cbv beta delta [boundary_conditions_m]. repeat frame_step.
Qed.

Lemma upwind_depths_sim μ :
  separate μ → values <$> upwind_depths_m c μ = upwind_depths c (values μ).
Proof.
  intros Hs. cbv beta delta [upwind_depths_m upwind_depths].
  repeat sim_step.
Qed.

Lemma upwind_depths_writes μ0 μ :
  writes μ0 μ → writes_opt μ0 (upwind_depths_m c μ).
Proof.
  intros Hw. cbv beta delta [upwind_depths_m]. repeat frame_step.
Qed.

Lemma net_fluxes_sim μ :
  separate μ → values <$> net_fluxes_m μ = net_fluxes (values μ).
Proof.
  intros Hs. cbv beta delta [net_fluxes_m net_fluxes].
  repeat sim_step.
Qed.

Lemma net_fluxes_writes μ0 μ :
  writes μ0 μ → writes_opt μ0 (net_fluxes_m μ).
Proof.
  intros Hw. cbv beta delta [net_fluxes_m]. repeat frame_step.
Qed.

Lemma continuity_sim μ :
  separate μ → values (continuity_m c μ) = continuity c (values μ).
Proof.
  intros Hs. cbv beta delta [continuity_m continuity].
  destruct (Cfg.use_source c), (Cfg.use_sink c); cbv beta iota; repeat sim_step.
Qed.

Lemma continuity_writes μ0 μ :
  writes μ0 μ → writes μ0 (continuity_m c μ).
Proof.
  intros Hw. unfold continuity_m.
  destruct (Cfg.use_source c), (Cfg.use_sink c);
    by repeat (apply writes_wr; [reflexivity|]).
Qed.
End Simulation.

Section Passes.
Context {F : Type} {SF : Scalar F}.
Variable c : Cfg.t F.
Implicit Types (μ : Mem F) (a : list (list F)).

Lemma rd_bind_copy_eq (x y : name) μ : rd x (bind_copy x y μ) = rd y μ.
Proof.
  unfold rd at 1, bind_copy. simpl. rewrite decide_True by done.
  by rewrite lookup_app_r, Nat.sub_diag by done.
Qed.

Lemma rd_bind_copy_ne (x y z : name) μ :
  separate μ → z ≠ x → rd z (bind_copy x y μ) = rd z μ.
Proof.
  intros Hs Hne. unfold rd at 1, bind_copy. simpl. rewrite decide_False by done.
  by rewrite lookup_app_l by apply Hs.
Qed.

Lemma separate_bind_copy (x y : name) μ : separate μ → separate (bind_copy x y μ).
Proof.
  intros [Hi Ha]. split; simpl.
  - intros z1 z2. pose proof (Ha z1). pose proof (Ha z2).
    repeat case_decide; try (intros; congruence || lia). apply Hi.
  - intros z. rewrite length_app. simpl. pose proof (Ha z). case_decide; lia.
Qed.

Lemma kept_bind_copy (x y : name) μ :
  buffer x = false → kept μ (bind_copy x y μ).
Proof.
  intros Hx. split; simpl.
  - intros z Hz. rewrite decide_False; [done|]. intros ->. congruence.
  - rewrite length_app. lia.
  - intros l Hl _. by rewrite lookup_app_l.
Qed.

Lemma kept_refl μ : kept μ μ.
Proof. by split. Qed.

Lemma kept_trans μ0 μ1 μ2 : kept μ0 μ1 → kept μ1 μ2 → kept μ0 μ2.
Proof.
  intros [He Hl Hf] [He' Hl' Hf']. split.
  - intros x Hx. by rewrite He', He.
  - lia.
  - intros l Hlt Hb. rewrite Hf'; [by apply Hf|lia|].
    intros x Hx. rewrite He by done. by apply Hb.
Qed.

Lemma writes_kept μ0 μ : writes μ0 μ → kept μ0 μ.
Proof.
  intros [He Hl _ Hf]. split.
  - intros x _. by rewrite He.
  - lia.
  - intros l _ Hb. by apply Hf.
Qed.

Lemma advance_sim μ :
  separate μ → values (advance_m μ) = advance (values μ).
Proof.
  intros Hs.
  pose proof (separate_bind_copy U_n U_np1 μ Hs) as Hs1.
  pose proof (separate_bind_copy V_n V_np1 _ Hs1) as Hs2.
  unfold advance_m, advance, values. cbv zeta.
  change (rd ?x (mkMem F (env ?m) (heap ?m) _)) with (rd x m).
  cbn [u_np1 v_np1 eta_np1 h_e h_w h_n h_s uhwe vhns time_step counter].
  rewrite !rd_bind_copy_eq.
  rewrite ?rd_bind_copy_ne by (done || discriminate).
  rewrite !rd_bind_copy_eq.
  rewrite ?rd_bind_copy_ne by (done || discriminate).
  rewrite !rd_bind_copy_eq.
  rewrite ?rd_bind_copy_ne by (done || discriminate).
  reflexivity.
Qed.

Lemma advance_separate μ : separate μ → separate (advance_m μ).
Proof.
  intros Hs.
  pose proof (separate_bind_copy U_n U_np1 μ Hs) as Hs1.
  pose proof (separate_bind_copy V_n V_np1 _ Hs1) as Hs2.
  pose proof (separate_bind_copy Eta_n Eta_np1 _ Hs2) as [Hi Ha].
  by split.
Qed.

Lemma advance_kept μ : kept μ (advance_m μ).
Proof.
  pose proof (kept_bind_copy U_n U_np1 μ eq_refl) as K1.
  pose proof (kept_bind_copy V_n V_np1 (bind_copy U_n U_np1 μ) eq_refl) as K2.
  pose proof (kept_bind_copy Eta_n Eta_np1
                (bind_copy V_n V_np1 (bind_copy U_n U_np1 μ)) eq_refl) as K3.
  destruct (kept_trans _ _ _ (kept_trans _ _ _ K1 K2) K3) as [He Hl Hf].
  by split.
Qed.

Lemma step_in_place μ :
  separate μ →
  values <$> step_m c μ = step c (values μ) ∧
  ∀ μ', step_m c μ = Some μ' → separate μ' ∧ kept μ μ'.
Proof.
  intros Hs. unfold step_m, step.
  pose proof (momentum_predictor_writes c μ μ (writes_refl μ)) as W1.
  pose proof (coriolis_corrector_writes c μ _ W1) as W2.
  pose proof (writes_separate _ _ Hs W1) as S1.
  pose proof (writes_separate _ _ Hs W2) as S2.
  pose proof (boundary_conditions_sim _ S2) as E3.
  pose proof (boundary_conditions_writes μ _ W2) as W3.
  rewrite (coriolis_corrector_sim c _ S1), (momentum_predictor_sim c _ Hs) in E3.
  rewrite <- E3.
  destruct (boundary_conditions_m _) as [μ3|]; [|by split].
  specialize (W3 _ eq_refl). pose proof (writes_separate _ _ Hs W3) as S3.
  cbn [fmap option_fmap option_map mbind option_bind].
  pose proof (upwind_depths_sim c _ S3) as E4.
  pose proof (upwind_depths_writes c μ _ W3) as W4.
  rewrite <- E4.
  destruct (upwind_depths_m c μ3) as [μ4|]; [|by split].
  specialize (W4 _ eq_refl). pose proof (writes_separate _ _ Hs W4) as S4.
  cbn [fmap option_fmap option_map mbind option_bind].
  pose proof (net_fluxes_sim _ S4) as E5.
  pose proof (net_fluxes_writes μ _ W4) as W5.
  rewrite <- E5.
  destruct (net_fluxes_m μ4) as [μ5|]; [|by split].
  specialize (W5 _ eq_refl). pose proof (writes_separate _ _ Hs W5) as S5.
  cbn [fmap option_fmap option_map mbind option_bind].
  pose proof (continuity_writes c μ _ W5) as W6.
  pose proof (writes_separate _ _ Hs W6) as S6.
  split.
  - by rewrite (advance_sim _ S6), (continuity_sim c _ S5).
  - intros μ' [= <-]. split; [by apply advance_separate|].
    eapply kept_trans; [by apply writes_kept|apply advance_kept].
Qed.

Lemma steps_in_place t μ :
  separate μ →
  values <$> steps_m c t μ = steps c t (values μ) ∧
  ∀ μ', steps_m c t μ = Some μ' → separate μ' ∧ kept μ μ'.
Proof.
  revert μ. induction t as [|t IH]; intros μ Hs.
  - split; [done|]. intros μ' [= <-]. split; [done|apply kept_refl].
  - destruct (step_in_place μ Hs) as [E1 H1]. cbn [steps_m steps].
    rewrite <- E1. destruct (step_m c μ) as [μ1|]; [|by split].
    destruct (H1 _ eq_refl) as [S1 K1].
    cbn [fmap option_fmap option_map mbind option_bind].
    destruct (IH μ1 S1) as [E2 H2]. split; [done|].
    intros μ' E. destruct (H2 _ E) as [S2 K2].
    split; [done|by eapply kept_trans].
Qed.

Lemma init_mem_separate n m eta0 : separate (init_mem (F := F) n m eta0).
Proof.
  split.
  - intros x y. destruct x, y; simpl; (done || lia).
  - intros x. unfold init_mem. cbn [env heap].
    rewrite length_app, length_replicate. destruct x; simpl; lia.
Qed.

Lemma init_mem_values n m eta0 : values (init_mem (F := F) n m eta0) = init_state n m eta0.
Proof. reflexivity. Qed.

(** X4: the script's in-place assignments compute what the store of values
    computes.  From a memory in which the twelve names are bound to separate
    objects (as lines 87-112 leave it), any number of passes over the heap,
    each slice assignment writing into the object of its target and each
    [np.copy] allocating, raises exactly when the passes over values raise
    and otherwise leaves the names holding exactly the values [steps]
    computes.  The names are then still bound to separate objects, the
    buffers are the objects they were, and no object that existed before and
    is not a buffer has been written: in particular the arrays that [u_n],
    [v_n] and [eta_n] named before (those the sampling lists refer to) hold
    what they held. *)
Theorem passes_in_place t μ :
  separate μ →
  values <$> steps_m c t μ = steps c t (values μ) ∧
  ∀ μ', steps_m c t μ = Some μ' →
    separate μ' ∧ kept μ μ' ∧
    ∀ x, buffer x = false → heap μ' !! env μ x = heap μ !! env μ x.
Proof.
  intros Hs. destruct (steps_in_place t μ Hs) as [E H]. split; [done|].
  intros μ' E'. destruct (H _ E') as [S' K']. split; [done|]. split; [done|].
  intros x Hx. apply (kp_frame _ _ K'); [apply Hs|].
  intros y Hy Exy. apply (sep_inj _ Hs) in Exy as ->. congruence.
Qed.
End Passes.

Section MemoryExamples.
Local Open Scope Q_scope.

(** Separation is needed.  If [u_n] named the object of [u_np1] (as it
    would after [u_n = u_np1] in place of line 197), the corrector of line
    156 would read the predicted [u] instead of the current one: on the
    raised cell the pass over the heap gives [v[0, 0] = 0.09] where the
    pass over values, and the pass over the memory the script allocates,
    give [0.1]. *)
Example aliasing_changes_the_pass :
  (λ s, get (v_n s) 0 0) <$> step alias_cfg (values alias_mem) = Some 0.1 ∧
  (λ μ, get (rd V_n μ) 0 0) <$> step_m alias_cfg alias_mem = Some 0.09 ∧
  (λ μ, get (rd V_n μ) 0 0) <$> step_m alias_cfg fresh_mem = Some 0.1.
Proof. repeat split; vm_compute; reflexivity. Qed.

Lemma passes_in_place_demo :
  separate fresh_mem ∧
  values <$> steps_m alias_cfg 2 fresh_mem = steps alias_cfg 2 (values fresh_mem) ∧
  ∀ μ', steps_m alias_cfg 2 fresh_mem = Some μ' →
    heap μ' !! env fresh_mem Eta_n = Some [[1; 0]; [0; 0]].
Proof.
  pose proof (init_mem_separate (F := Q) 2 2 [[1; 0]; [0; 0]]) as Hs.
  split; [exact Hs|].
  destruct (passes_in_place alias_cfg 2 fresh_mem Hs) as [E H].
  split; [exact E|].
  intros μ' E'. destruct (H μ' E') as (_ & _ & Hk).
  exact (Hk Eta_n eq_refl).
Defined.
End MemoryExamples.

(** ** Fluxes, mass and rest in exact arithmetic *)

Section Budget.
Variable c : Cfg.t R.
Variables n m : nat.
Local Open Scope R_scope.
Implicit Types (s : State R).

(** X5: in every pass the net x-fluxes [uhwe] of each grid line along x
    (fixed [j]) add up to zero, and so do the net y-fluxes [vhns] of each
    grid line along y (fixed [i]): what leaves a cell through a face enters
    its neighbour, and nothing crosses the walls. *)
Theorem net_fluxes_cancel_along_lines s :
  wf_cfg n m c → wf n m s → (0 < n)%nat → (0 < m)%nat →
  ∃ s', step c s = Some s' ∧
    (∀ j, (j < m)%nat → rsum (λ i, get (uhwe s') i j) n = 0) ∧
    (∀ i, (i < n)%nat → rsum (λ j, get (vhns s') i j) m = 0).
Proof.
  intros Hc Hs Hn Hm. destruct (step_spec c n m s Hc Hs Hn Hm) as (s' & E & St).
  exists s'. split; [done|]. split.
  - intros j Hj. by apply (flux_x_total c n m s).
  - intros i Hi. by apply (flux_y_total c n m s).
Qed.

(** X6: after [T] passes the total of [eta] is the total at the start plus
    [T * dt * sum(source)] if the source is enabled, minus
    [T * dt * sum(sink)] if the sink is enabled. *)
Theorem mass_budget s T :
  wf_cfg n m c → wf n m s → (0 < n)%nat → (0 < m)%nat →
  ∃ s', steps c T s = Some s' ∧
    arr_sum (eta_n s') =
      arr_sum (eta_n s)
      + INR T * (if Cfg.use_source c then Cfg.dt c * arr_sum (Cfg.source c) else 0)
      - INR T * (if Cfg.use_sink c then Cfg.dt c * arr_sum (Cfg.sink c) else 0).
Proof.
  intros Hc Hs Hn Hm. destruct (steps_mass c n m T s Hc Hs Hn Hm) as (s' & E & Hsum).
  exists s'. split; [done|]. rewrite Hsum. unfold net_forcing. lra.
Qed.

Lemma shape_full (e0 : R) : shape n m (replicate n (replicate m e0)).
Proof.
  split; [apply length_replicate|]. apply Forall_replicate, length_replicate.
Qed.

Lemma get_full (e0 : R) i j :
  (i < n)%nat → (j < m)%nat → get (replicate n (replicate m e0)) i j = e0.
Proof.
  intros Hi Hj. unfold get. rewrite lookup_replicate_2 by done. simpl.
  by rewrite lookup_replicate_2.
Qed.

Lemma level_step e0 s s' :
  wf_cfg n m c → wf n m s → stepped c n m s s' →
  Cfg.use_source c = false → Cfg.use_sink c = false →
  u_n s = zeros n m → v_n s = zeros n m →
  eta_n s = replicate n (replicate m e0) →
  u_n s' = zeros n m ∧ v_n s' = zeros n m ∧
  eta_n s' = replicate n (replicate m e0).
Proof.
  intros Hc Hs St Esrc Esnk Eu Ev Eeta.
  pose proof (momentum_predictor_wf c n m s Hs) as Hs1.
  assert (Hu : ∀ i j, (i < n)%nat → (j < m)%nat → get (u_n s') i j = 0).
  { intros i j Hi Hj. rewrite (st_u _ _ _ _ _ St) by done.
    case_decide as Ei; [done|].
    assert (P : get (u_np1 (momentum_predictor c s)) i j = 0).
    { rewrite (predictor_u_cell c n m) by (done || lia).
      rewrite Eu, Eeta, get_zeros, !get_full by lia. simpl. lra. }
    destruct (Cfg.use_coriolis c) eqn:Ec.
    - destruct (corrector_on c n m _ i j Hc Hs1 Ec Hi Hj) as [-> _].
      rewrite P. simpl. rewrite Ev, get_zeros. simpl. lra.
    - by rewrite corrector_off. }
  assert (Hv : ∀ i j, (i < n)%nat → (j < m)%nat → get (v_n s') i j = 0).
  { intros i j Hi Hj. rewrite (st_v _ _ _ _ _ St) by done.
    case_decide as Ej; [done|].
    assert (P : get (v_np1 (momentum_predictor c s)) i j = 0).
    { rewrite (predictor_v_cell c n m) by (done || lia).
      rewrite Ev, Eeta, get_zeros, !get_full by lia. simpl. lra. }
    destruct (Cfg.use_coriolis c) eqn:Ec.
    - destruct (corrector_on c n m _ i j Hc Hs1 Ec Hi Hj) as [_ ->].
      rewrite P. simpl. rewrite Eu, get_zeros. simpl. lra.
    - by rewrite corrector_off. }
  pose proof (st_wf _ _ _ _ _ St) as Hs'.
  split; [|split].
  - apply (array_ext n m); [apply Hs'|apply shape_zeros|].
    intros i j Hi Hj. by rewrite get_zeros, Hu.
  - apply (array_ext n m); [apply Hs'|apply shape_zeros|].
    intros i j Hi Hj. by rewrite get_zeros, Hv.
  - apply (array_ext n m); [apply Hs'|apply shape_full|].
    intros i j Hi Hj.
    assert (get (uhwe s') i j = 0) as Hx.
    { rewrite (st_uhwe _ _ _ _ _ St) by done.
      destruct i as [|i']; rewrite ?Hu by lia; simpl; lra. }
    assert (get (vhns s') i j = 0) as Hy.
    { rewrite (st_vhns _ _ _ _ _ St) by done.
      destruct j as [|j']; rewrite ?Hv by lia; simpl; lra. }
    rewrite (st_eta _ _ _ _ _ St) by done.
    rewrite Esrc, Esnk, Eeta, get_full, Hx, Hy by done. simpl. unfold Rdiv. lra.
Qed.

(** X7: a fluid at rest under a level surface stays as it is: from
    [u = v = 0] and [eta] equal to one value [e0] at every cell, with source
    and sink off and Coriolis on or off, after any number of passes the
    velocities are zero and [eta] is [e0] everywhere. *)
Theorem level_surface_at_rest e0 s t :
  wf_cfg n m c → wf n m s → (0 < n)%nat → (0 < m)%nat →
  Cfg.use_source c = false → Cfg.use_sink c = false →
  u_n s = zeros n m → v_n s = zeros n m →
  eta_n s = replicate n (replicate m e0) →
  ∃ s', steps c t s = Some s' ∧
    u_n s' = zeros n m ∧ v_n s' = zeros n m ∧
    eta_n s' = replicate n (replicate m e0).
Proof.
  intros Hc Hs Hn Hm Esrc Esnk.
  revert s Hs. induction t as [|t IH]; intros s Hs Eu Ev Eeta.
  - by exists s.
  - destruct (step_spec c n m s Hc Hs Hn Hm) as (s1 & E1 & St).
    destruct (level_step e0 s s1 Hc Hs St Esrc Esnk Eu Ev Eeta) as (Eu1 & Ev1 & Eeta1).
    destruct (IH s1 (st_wf _ _ _ _ _ St) Eu1 Ev1 Eeta1) as (s' & E' & Hs').
    exists s'. split; [simpl; by rewrite E1|done].
Qed.

(** X8: the four face depths a pass computes lie between the smallest and
    the largest total depth [eta + H] of the cells it started from; in
    particular they are positive when every cell is wet. *)
Theorem face_depths_within_cell_depths lo hi s :
  wf_cfg n m c → wf n m s → (0 < n)%nat → (0 < m)%nat →
  (∀ i j, (i < n)%nat → (j < m)%nat →
     lo <= get (eta_n s) i j + Cfg.H c <= hi) →
  ∃ s', step c s = Some s' ∧
    ∀ i j, (i < n)%nat → (j < m)%nat →
      lo <= get (h_e s') i j <= hi ∧ lo <= get (h_w s') i j <= hi ∧
      lo <= get (h_n s') i j <= hi ∧ lo <= get (h_s s') i j <= hi.
Proof.
  intros Hc Hs Hn Hm Hb. destruct (step_spec c n m s Hc Hs Hn Hm) as (s' & E & St).
  exists s'. split; [done|]. intros i j Hi Hj. repeat split.
  all: first [rewrite (st_h_e _ _ _ _ _ St) by done
             |rewrite (st_h_w _ _ _ _ _ St) by done
             |rewrite (st_h_n _ _ _ _ _ St) by done
             |rewrite (st_h_s _ _ _ _ _ St) by done].
  all: repeat first [case_decide|case_match]; simpl; apply Hb; lia.
Qed.
End Budget.

(** ** Depth stays non-negative under an advective Courant bound *)

Section Positivity.
Variable c : Cfg.t R.
Variables n m : nat.
Local Open Scope R_scope.
Implicit Types (s : State R).

(** the flux through a face, taken from the cell on the upwind side *)
Lemma outflow_bound u a h hE :
  0 <= h → 0 <= hE → Rabs u <= a →
  u * (if fgt u 0 then h else hE) <= a * h.
Proof.
  intros Hh HhE Ha. pose proof (Rabs_pos u). pose proof (Rle_abs u).
  simpl. destruct (Rlt_dec 0 u); nra.
Qed.

Lemma inflow_bound u a h hW :
  0 <= h → 0 <= hW → Rabs u <= a →
  - (a * h) <= u * (if fgt u 0 then hW else h).
Proof.
  intros Hh HhW Ha. pose proof (Rabs_pos u). pose proof (Rle_abs (- u)).
  rewrite Rabs_Ropp in *. simpl. destruct (Rlt_dec 0 u); nra.
Qed.

Lemma net_flux_x_bound a s s' i j :
  stepped c n m s s' → (i < n)%nat → (j < m)%nat →
  (∀ i j, (i < n)%nat → (j < m)%nat → 0 <= get (eta_n s) i j + Cfg.H c) →
  (∀ i j, (i < n)%nat → (j < m)%nat → Rabs (get (u_n s') i j) <= a) →
  get (uhwe s') i j <= 2 * a * (get (eta_n s) i j + Cfg.H c).
Proof.
  intros St Hi Hj Hh Ha.
  pose proof (Hh i j Hi Hj) as Hc0.
  assert (0 <= a) as Ha0.
  { pose proof (Ha i j Hi Hj). pose proof (Rabs_pos (get (u_n s') i j)). lra. }
  assert (T1 : get (u_n s') i j * get (h_e s') i j
               <= a * (get (eta_n s) i j + Cfg.H c)).
  { rewrite (st_h_e _ _ _ _ _ St i j) by done. case_decide as Ei.
    - apply outflow_bound; [done|apply Hh; lia|by apply Ha].
    - rewrite (st_u _ _ _ _ _ St i j) by done.
      case_decide; [|lia]. simpl in *. nra. }
  rewrite (st_uhwe _ _ _ _ _ St) by done. destruct i as [|i'].
  - simpl in *. nra.
  - assert (T2 : - (a * (get (eta_n s) (S i') j + Cfg.H c))
                 <= get (u_n s') i' j * get (h_w s') (S i') j).
    { rewrite (st_h_w _ _ _ _ _ St (S i') j) by done.
      apply inflow_bound; [done|apply Hh; lia|apply Ha; lia]. }
    simpl in *. nra.
Qed.

Lemma net_flux_y_bound b s s' i j :
  stepped c n m s s' → (i < n)%nat → (j < m)%nat →
  (∀ i j, (i < n)%nat → (j < m)%nat → 0 <= get (eta_n s) i j + Cfg.H c) →
  (∀ i j, (i < n)%nat → (j < m)%nat → Rabs (get (v_n s') i j) <= b) →
  get (vhns s') i j <= 2 * b * (get (eta_n s) i j + Cfg.H c).
Proof.
  intros St Hi Hj Hh Hb.
  pose proof (Hh i j Hi Hj) as Hc0.
  assert (0 <= b) as Hb0.
  { pose proof (Hb i j Hi Hj). pose proof (Rabs_pos (get (v_n s') i j)). lra. }
  assert (T1 : get (v_n s') i j * get (h_n s') i j
               <= b * (get (eta_n s) i j + Cfg.H c)).
  { rewrite (st_h_n _ _ _ _ _ St i j) by done. case_decide as Ej.
    - apply outflow_bound; [done|apply Hh; lia|by apply Hb].
    - rewrite (st_v _ _ _ _ _ St i j) by done.
      case_decide; [|lia]. simpl in *. nra. }
  rewrite (st_vhns _ _ _ _ _ St) by done. destruct j as [|j'].
  - simpl in *. nra.
  - assert (T2 : - (b * (get (eta_n s) i (S j') + Cfg.H c))
                 <= get (v_n s') i j' * get (h_s s') i (S j')).
    { rewrite (st_h_s _ _ _ _ _ St i (S j')) by done.
      apply inflow_bound; [done|apply Hh; lia|apply Hb; lia]. }
    simpl in *. nra.
Qed.

(** X9: the upwind continuity update keeps the fluid depth non-negative.
    With the sink off (and a source, if enabled, that is nowhere negative),
    [dt >= 0] and [dx, dy > 0]: if every cell starts with [eta + H >= 0] and
    the velocities the pass computes are bounded by [|u| <= a], [|v| <= b]
    with [2 * dt * (a / dx + b / dy) <= 1], then every cell ends the pass
    with [eta + H >= 0]. *)
Theorem depth_stays_nonnegative a b s :
  wf_cfg n m c → wf n m s → (0 < n)%nat → (0 < m)%nat →
  Cfg.use_sink c = false →
  (Cfg.use_source c = true →
   ∀ i j, (i < n)%nat → (j < m)%nat → 0 <= get (Cfg.source c) i j) →
  0 <= Cfg.dt c → 0 < Cfg.dx c → 0 < Cfg.dy c →
  (∀ i j, (i < n)%nat → (j < m)%nat → 0 <= get (eta_n s) i j + Cfg.H c) →
  ∃ s', step c s = Some s' ∧
    ((∀ i j, (i < n)%nat → (j < m)%nat →
        Rabs (get (u_n s') i j) <= a ∧ Rabs (get (v_n s') i j) <= b) →
     2 * Cfg.dt c * (a / Cfg.dx c + b / Cfg.dy c) <= 1 →
     ∀ i j, (i < n)%nat → (j < m)%nat → 0 <= get (eta_n s') i j + Cfg.H c).
Proof.
  intros Hc Hs Hn Hm Esnk Hsrc Hdt Hdx Hdy Hh.
  destruct (step_spec c n m s Hc Hs Hn Hm) as (s' & E & St).
  exists s'. split; [done|]. intros Hab Hcfl i j Hi Hj.
  pose proof (net_flux_x_bound a s s' i j St Hi Hj Hh
                (λ i j Hi Hj, proj1 (Hab i j Hi Hj))) as Hx.
  pose proof (net_flux_y_bound b s s' i j St Hi Hj Hh
                (λ i j Hi Hj, proj2 (Hab i j Hi Hj))) as Hy.
  pose proof (Hh i j Hi Hj) as Hc0.
  assert (0 <= a) as Ha0.
  { destruct (Hab i j Hi Hj) as [Ha _].
    pose proof (Rabs_pos (get (u_n s') i j)). lra. }
  assert (0 <= b) as Hb0.
  { destruct (Hab i j Hi Hj) as [_ Hb].
    pose proof (Rabs_pos (get (v_n s') i j)). lra. }
  set (h := get (eta_n s) i j + Cfg.H c) in *.
  assert (Hflux : Cfg.dt c * (get (uhwe s') i j / Cfg.dx c
                              + get (vhns s') i j / Cfg.dy c) <= h).
  { assert (0 < / Cfg.dx c) by by apply Rinv_0_lt_compat.
    assert (0 < / Cfg.dy c) by by apply Rinv_0_lt_compat.
    assert (get (uhwe s') i j / Cfg.dx c <= 2 * a * h / Cfg.dx c)
      by (unfold Rdiv; nra).
    assert (get (vhns s') i j / Cfg.dy c <= 2 * b * h / Cfg.dy c)
      by (unfold Rdiv; nra).
    assert (Cfg.dt c * (2 * a * h / Cfg.dx c + 2 * b * h / Cfg.dy c)
            = h * (2 * Cfg.dt c * (a / Cfg.dx c + b / Cfg.dy c)))
      by (unfold Rdiv; ring).
    nra. }
  rewrite (st_eta _ _ _ _ _ St) by done. rewrite Esnk.
  destruct (Cfg.use_source c) eqn:Esrc; simpl in *.
  - pose proof (Hsrc eq_refl i j Hi Hj). unfold h in *. nra.
  - unfold h in *. lra.
Qed.
End Positivity.

(** ** The first pass from rest *)

Section RestStart.
Variables c c2 : Cfg.t R.
Variables n m : nat.
Local Open Scope R_scope.
Implicit Types (s : State R).

Lemma rest_velocities (c1 : Cfg.t R) s i j :
  wf_cfg n m c1 → wf n m s → u_n s = zeros n m → v_n s = zeros n m →
  (i < n)%nat → (j < m)%nat →
  ((i + 1 < n)%nat →
   get (u_np1 (coriolis_corrector c1 (momentum_predictor c1 s))) i j =
     - (Cfg.g c1 * Cfg.dt c1 / Cfg.dx c1
        * (get (eta_n s) (i + 1) j - get (eta_n s) i j))) ∧
  ((j + 1 < m)%nat →
   get (v_np1 (coriolis_corrector c1 (momentum_predictor c1 s))) i j =
     - (Cfg.g c1 * Cfg.dt c1 / Cfg.dy c1
        * (get (eta_n s) i (j + 1) - get (eta_n s) i j))).
Proof.
  intros Hc Hs Eu Ev Hi Hj.
  pose proof (momentum_predictor_wf c1 n m s Hs) as Hs1.
  assert (Pu : (i + 1 < n)%nat →
    get (u_np1 (momentum_predictor c1 s)) i j =
      - (Cfg.g c1 * Cfg.dt c1 / Cfg.dx c1
         * (get (eta_n s) (i + 1) j - get (eta_n s) i j))).
  { intros Hlt. rewrite (predictor_u_cell c1 n m) by done.
    rewrite Eu, get_zeros. simpl. lra. }
  assert (Pv : (j + 1 < m)%nat →
    get (v_np1 (momentum_predictor c1 s)) i j =
      - (Cfg.g c1 * Cfg.dt c1 / Cfg.dy c1
         * (get (eta_n s) i (j + 1) - get (eta_n s) i j))).
  { intros Hlt. rewrite (predictor_v_cell c1 n m) by done.
    rewrite Ev, get_zeros. simpl. lra. }
  destruct (Cfg.use_coriolis c1) eqn:Ec.
  - destruct (corrector_on c1 n m _ i j Hc Hs1 Ec Hi Hj) as [-> ->].
    change (v_n (momentum_predictor c1 s)) with (v_n s).
    change (u_n (momentum_predictor c1 s)) with (u_n s).
    rewrite Eu, Ev, get_zeros. split; intros Hlt.
    + rewrite Pu by done. simpl. lra.
    + rewrite Pv by done. simpl. lra.
  - rewrite corrector_off by done. by split.
Qed.

(** X10: the Coriolis term has no part in a pass that starts from rest.
    From a store with [u_n = v_n = 0] (the initial condition of lines 110
    and 111) two configurations that differ only in [use_coriolis] and [f]
    give the same store: an interior velocity is
    [-g * dt / dx * (eta[i+1, j] - eta[i, j])] (and likewise along y)
    either way. *)
Theorem rest_start_ignores_coriolis s :
  wf_cfg n m c → wf_cfg n m c2 → wf n m s → (0 < n)%nat → (0 < m)%nat →
  Cfg.g c = Cfg.g c2 → Cfg.H c = Cfg.H c2 → Cfg.dt c = Cfg.dt c2 →
  Cfg.dx c = Cfg.dx c2 → Cfg.dy c = Cfg.dy c2 →
  Cfg.use_source c = Cfg.use_source c2 → Cfg.use_sink c = Cfg.use_sink c2 →
  Cfg.source c = Cfg.source c2 → Cfg.sink c = Cfg.sink c2 →
  u_n s = zeros n m → v_n s = zeros n m →
  step c s = step c2 s ∧
  ∃ s', step c s = Some s' ∧
    ∀ i j, (i < n)%nat → (j < m)%nat →
      ((i + 1 < n)%nat →
       get (u_n s') i j =
         - (Cfg.g c * Cfg.dt c / Cfg.dx c
            * (get (eta_n s) (i + 1) j - get (eta_n s) i j))) ∧
      ((j + 1 < m)%nat →
       get (v_n s') i j =
         - (Cfg.g c * Cfg.dt c / Cfg.dy c
            * (get (eta_n s) i (j + 1) - get (eta_n s) i j))).
Proof.
  intros Hc Hc2 Hs Hn Hm Eg EH Edt Edx Edy Eus Euk Esrc Esnk Eu Ev.
  destruct (step_spec c n m s Hc Hs Hn Hm) as (t1 & E1 & St1).
  destruct (step_spec c2 n m s Hc2 Hs Hn Hm) as (t2 & E2 & St2).
  pose proof (st_wf _ _ _ _ _ St1) as W1. pose proof (st_wf _ _ _ _ _ St2) as W2.
  split.
  - rewrite E1, E2. f_equal.
    apply (stepped_agree c n m c2 s s); try done.
    + apply (array_ext n m); [apply W1|apply W2|]. intros i j Hi Hj.
      rewrite (st_u _ _ _ _ _ St1), (st_u _ _ _ _ _ St2) by done.
      case_decide; [done|].
      destruct (rest_velocities c s i j Hc Hs Eu Ev Hi Hj) as [R1 _].
      destruct (rest_velocities c2 s i j Hc2 Hs Eu Ev Hi Hj) as [R2 _].
      rewrite R1, R2 by lia.
      by rewrite Eg, Edt, Edx.
    + apply (array_ext n m); [apply W1|apply W2|]. intros i j Hi Hj.
      rewrite (st_v _ _ _ _ _ St1), (st_v _ _ _ _ _ St2) by done.
      case_decide; [done|].
      destruct (rest_velocities c s i j Hc Hs Eu Ev Hi Hj) as [_ R1].
      destruct (rest_velocities c2 s i j Hc2 Hs Eu Ev Hi Hj) as [_ R2].
      rewrite R1, R2 by lia.
      by rewrite Eg, Edt, Edy.
  - exists t1. split; [done|]. intros i j Hi Hj. split; intros Hlt.
    + rewrite (st_u _ _ _ _ _ St1) by done. case_decide; [lia|].
      by apply (rest_velocities c s i j).
    + rewrite (st_v _ _ _ _ _ St1) by done. case_decide; [lia|].
      by apply (rest_velocities c s i j).
Qed.
End RestStart.

(** ** The grid and the fields the setup builds *)

Section SetupFields.
Variable p : Par.t.
Local Open Scope R_scope.
Local Abbreviation n := (Z.to_nat (Par.N_x p)).
Local Abbreviation m := (Z.to_nat (Par.N_y p)).

Lemma get1_linspace a b N k :
  (k < N)%nat →
  get1 (Setup.linspace a b N) k = INR k * ((b - a) / INR (N - 1)) + a.
Proof.
  intros Hk. unfold get1, Setup.linspace.
  rewrite list_lookup_fmap, lookup_seq_lt by done. done.
Qed.

Lemma INR_pred_points N : (2 ≤ N)%Z → INR (Z.to_nat N - 1) = IZR (N - 1).
Proof. intros HN. rewrite INR_IZR_INZ. f_equal. lia. Qed.

(** X11: the points of an axis (line 54, 55) are [N] values that start at
    [-L / 2], end at [L / 2] and are spaced by exactly the grid spacing
    [dx = L / (N - 1)] of line 49 ([dy] of line 50), for [N >= 2]. *)
Theorem axis_points_spaced_by_dx :
  (2 ≤ Par.N_x p)%Z → (2 ≤ Par.N_y p)%Z →
  (length (Setup.x p) = n ∧ length (Setup.y p) = m) ∧
  (get1 (Setup.x p) 0 = - Par.L_x p / 2 ∧ get1 (Setup.x p) (n - 1) = Par.L_x p / 2) ∧
  (get1 (Setup.y p) 0 = - Par.L_y p / 2 ∧ get1 (Setup.y p) (m - 1) = Par.L_y p / 2) ∧
  (∀ k, (k + 1 < n)%nat →
     get1 (Setup.x p) (k + 1) - get1 (Setup.x p) k = Setup.dx p) ∧
  (∀ k, (k + 1 < m)%nat →
     get1 (Setup.y p) (k + 1) - get1 (Setup.y p) k = Setup.dy p).
Proof.
  intros Hx Hy.
  assert (Nx : IZR (Par.N_x p - 1) ≠ 0) by (apply not_0_IZR; lia).
  assert (Ny : IZR (Par.N_y p - 1) ≠ 0) by (apply not_0_IZR; lia).
  split; [split; apply length_linspace|].
  unfold Setup.x, Setup.y, Setup.dx, Setup.dy.
  split; [|split; [|split]].
  - rewrite !get1_linspace by lia. rewrite (INR_pred_points _ Hx).
    change (INR 0) with 0. split; field; done.
  - rewrite !get1_linspace by lia. rewrite (INR_pred_points _ Hy).
    change (INR 0) with 0. split; field; done.
  - intros k Hk. rewrite !get1_linspace by lia. rewrite (INR_pred_points _ Hx).
    rewrite plus_INR. change (INR 1) with 1. field. done.
  - intros k Hk. rewrite !get1_linspace by lia. rewrite (INR_pred_points _ Hy).
    rewrite plus_INR. change (INR 1) with 1. field. done.
Qed.

Lemma gaussian_bounds w t : 0 < w → 0 <= t → 0 < w * exp (- t) <= w.
Proof.
  intros Hw Ht. pose proof (exp_pos (- t)).
  assert (exp (- t) <= 1).
  { rewrite <- exp_0. destruct Ht as [Ht| <-].
    - left. apply exp_increasing. lra.
    - rewrite Ropp_0. lra. }
  nra.
Qed.

Lemma squares_over_pos u v k : 0 < k → 0 <= u ^ 2 / k + v ^ 2 / k.
Proof.
  intros Hk. assert (0 < / k) by by apply Rinv_0_lt_compat.
  pose proof (pow2_ge_0 u). pose proof (pow2_ge_0 v). unfold Rdiv. nra.
Qed.

Lemma source_cell_pos i j :
  (i < n)%nat → (j < m)%nat → 0 < get (Setup.source p) i j.
Proof.
  intros Hi Hj. unfold Setup.source.
  rewrite !(get_zip_with2 _ n m) by (apply shape_X || apply shape_Y || done).
  apply Rmult_lt_0_compat; [lra|apply exp_pos].
Qed.

(** X12: in exact arithmetic, for any parameters, the initial elevation of
    line 112 lies in (0, 1] at every cell and the source of line 71 in
    (0, 0.0001].  (The statement is about the real exponential: a
    floating-point [exp] rounds and can underflow, which is not modelled.) *)
Theorem initial_fields_bounded i j :
  (i < n)%nat → (j < m)%nat →
  0 < get (Setup.eta_0 p) i j <= 1 ∧
  0 < get (Setup.source p) i j <= 0.0001.
Proof.
  intros Hi Hj. unfold Setup.eta_0, Setup.source.
  rewrite !(get_zip_with2 _ n m) by (apply shape_X || apply shape_Y || done).
  split.
  - rewrite <- (Rmult_1_l (exp _)). apply gaussian_bounds; [lra|].
    apply squares_over_pos. lra.
  - apply gaussian_bounds; [lra|]. apply squares_over_pos. lra.
Qed.
End SetupFields.

(** ** The sampling of the loop *)

Section SamplingFacts.
Context {F : Type} {SF : Scalar F}.
Variable of_int : Z → F.
Variable c : Cfg.t F.
Variable r : Rec.t.
Variables n m : nat.
Local Open Scope scalar_scope.
Implicit Types (s : State F) (q : Samples F).

Lemma read_col_Ok (a : list (list F)) :
  shape n m a → Rec.N_y r = m → 0 < m →
  read_col r a (Rec.N_y r / 2) = Ok ((λ row, get1 row (m / 2)) <$> a).
Proof.
  intros [Hn Hr] Hy Hm. unfold read_col. rewrite Hy.
  assert (Hk : (m / 2 < m)%nat) by (apply Nat.div_lt; lia).
  rewrite decide_True by done.
  rewrite (mapM_fmap_Some _ (λ row, get1 row (m / 2))); [done|].
  eapply Forall_impl; [exact Hr|]. intros row Hrow. cbv beta in *.
  destruct (lookup_lt_is_Some_2 row (m / 2)%nat) as [x Ex]; [by rewrite Hrow|].
  rewrite Ex. f_equal. symmetry. by apply get1_lookup.
Qed.

Lemma read_cell_Ok (a : list (list F)) :
  shape n m a → Rec.N_x r = n → Rec.N_y r = m → 0 < n → 0 < m →
  read_cell a (Rec.N_x r / 2) (Rec.N_y r / 2) = Ok (get a (n / 2) (m / 2)).
Proof.
  intros Ha Hx Hy Hn Hm. unfold read_cell. rewrite Hx, Hy.
  destruct (shape_cell n m a (n / 2) (m / 2) Ha) as (row & x & E & _ & Ex & Eg);
    [apply Nat.div_lt; lia..|].
  rewrite E. cbn [mbind option_bind]. by rewrite Ex, Eg.
Qed.

Lemma sampling_Ok s q :
  wf n m s → Rec.N_x r = n → Rec.N_y r = m → 0 < n → 0 < m →
  Rec.sample_interval r ≠ 0%Z → Rec.anim_interval r ≠ 0%Z →
  res_bind (sample_series of_int c r s q) (sample_animation of_int c r s)
    = Ok (appended of_int c r n m s q).
Proof.
  intros Hs Hx Hy Hn Hm Hk Ha.
  unfold sample_series, sample_animation, py_mod.
  rewrite !decide_False by done. cbn [res_bind].
  rewrite (read_col_Ok (eta_n s)), (read_cell_Ok (eta_n s)) by (done || apply Hs).
  unfold appended. destruct q as [l1 l2 l3 l4 l5 l6 l7].
  cbn [res_bind eta_list u_list v_list hm_sample ts_sample t_sample printed].
  destruct (decide (time_step s mod Rec.sample_interval r = 0)%Z) as [E1|E1];
    destruct (decide (time_step s mod Rec.anim_interval r = 0)%Z) as [E2|E2];
    rewrite ?(bool_decide_eq_true_2 _ E1), ?(bool_decide_eq_false_2 _ E1),
            ?(bool_decide_eq_true_2 _ E2), ?(bool_decide_eq_false_2 _ E2);
    cbn [res_bind eta_list u_list v_list hm_sample ts_sample t_sample printed];
    rewrite ?decide_True, ?decide_False by done;
    rewrite ?app_nil_r; done.
Qed.
End SamplingFacts.

Section SamplingTheorems.
Context {F : Type} {SF : Scalar F}.
Variable of_int : Z → F.
Variable c : Cfg.t F.
Variable r : Rec.t.
Variables n m : nat.
Hypothesis Hc : wf_cfg n m c.
Hypothesis Hn : 0 < n.
Hypothesis Hm : 0 < m.
Hypothesis Hx : Rec.N_x r = n.
Hypothesis Hy : Rec.N_y r = m.
Local Open Scope scalar_scope.
Implicit Types (s : State F) (q : Samples F) (t : nat).

Lemma sampled_pass_spec s q :
  wf n m s →
  Rec.sample_interval r ≠ 0%Z → Rec.anim_interval r ≠ 0%Z →
  ∃ s', step c s = Some s' ∧ stepped c n m s s' ∧
    sampled_pass of_int c r (s, q) = Ok (s', appended of_int c r n m s' q).
Proof using Hc Hn Hm Hx Hy.
  intros Hs Hk Ha. destruct (step_spec c n m s Hc Hs Hn Hm) as (s' & E & St).
  exists s'. split; [done|]. split; [done|].
  unfold sampled_pass. cbn [fst snd]. rewrite E.
  pose proof (sampling_Ok of_int c r n m s' q (st_wf _ _ _ _ _ St) Hx Hy Hn Hm Hk Ha)
    as Hq.
  destruct (sample_series of_int c r s' q) as [q1|e]; cbn [res_bind] in *;
    [|done].
  by rewrite Hq.
Qed.

Lemma sampled_passes_snoc t sq :
  sampled_passes of_int c r (S t) sq
    = res_bind (sampled_passes of_int c r t sq) (sampled_pass of_int c r).
Proof using Type.
  revert sq. induction t as [|t IH]; intros sq.
  - simpl. by destruct (sampled_pass of_int c r sq).
  - cbn [sampled_passes].
    destruct (sampled_pass of_int c r sq) as [sq1|e]; cbn [res_bind]; [|done].
    apply IH.
Qed.

Lemma passes_at_S a s t :
  passes_at a s (S t) =
    passes_at a s t ++
      if bool_decide ((time_step s + Z.of_nat (S t)) mod a = 0)%Z then [S t] else [].
Proof using Type.
  unfold passes_at. rewrite seq_S, filter_app. f_equal.
  change (1 + t)%nat with (S t).
  case_bool_decide.
  - by rewrite filter_cons_True.
  - by rewrite filter_cons_False.
Qed.

Lemma after_steps t s s' : steps c t s = Some s' → after c t s = s'.
Proof using Type. intros E. unfold after. by rewrite E. Qed.

Lemma sampled_passes_spec t s q :
  wf n m s →
  Rec.sample_interval r ≠ 0%Z → Rec.anim_interval r ≠ 0%Z →
  ∃ s' q', sampled_passes of_int c r t (s, q) = Ok (s', q') ∧
    steps c t s = Some s' ∧ wf n m s' ∧
    time_step s' = (time_step s + Z.of_nat t)%Z ∧
    recorded of_int c r n m s t q q'.
Proof using Hc Hn Hm Hx Hy.
  intros Hs Hk Ha. induction t as [|t IH].
  - exists s, q. split; [done|]. split; [done|]. split; [done|].
    split; [simpl; lia|]. split; simpl; by rewrite app_nil_r.
  - destruct IH as (s1 & q1 & E1 & S1 & W1 & T1 & R1).
    destruct (sampled_pass_spec s1 q1 W1 Hk Ha) as (s' & E & St & Ep).
    exists s', (appended of_int c r n m s' q1).
    rewrite sampled_passes_snoc, E1. cbn [res_bind].
    assert (S' : steps c (S t) s = Some s') by by rewrite (steps_snoc c t s s1).
    assert (T' : time_step s' = (time_step s + Z.of_nat (S t))%Z).
    { rewrite (st_time _ _ _ _ _ St), T1. lia. }
    split; [done|]. split; [done|]. split; [apply (st_wf _ _ _ _ _ St)|].
    split; [done|].
    destruct R1. split; unfold appended; cbn [eta_list u_list v_list hm_sample
      ts_sample t_sample printed]; rewrite passes_at_S, fmap_app, app_assoc;
      rewrite T'; (f_equal; [done|]);
      case_bool_decide; cbn [fmap list_fmap]; rewrite ?(after_steps _ _ _ S');
      by rewrite <- ?T'.
Qed.

Lemma sampled_loop_spec fuel s q :
  wf n m s →
  Rec.sample_interval r ≠ 0%Z → Rec.anim_interval r ≠ 0%Z →
  sampled_loop of_int c r fuel (s, q) =
    if decide (Z.to_nat (Cfg.max_time_step c - time_step s) ≤ fuel)
    then match sampled_passes of_int c r
                 (Z.to_nat (Cfg.max_time_step c - time_step s)) (s, q) with
         | Ok sq => Done sq
         | Raise e => Raised e
         end
    else NoFuel.
Proof using Hc Hn Hm Hx Hy.
  intros Hs Hk Ha. revert s q Hs.
  induction fuel as [|fuel IH]; intros s q Hs; cbn [sampled_loop fst].
  - destruct (Z.ltb_spec (time_step s) (Cfg.max_time_step c)) as [Hlt|Hge].
    + case_decide; [lia|done].
    + replace (Z.to_nat (Cfg.max_time_step c - time_step s)) with 0%nat by lia.
      by case_decide.
  - destruct (Z.ltb_spec (time_step s) (Cfg.max_time_step c)) as [Hlt|Hge].
    + destruct (sampled_pass_spec s q Hs Hk Ha) as (s1 & E1 & St & Ep).
      rewrite Ep, (IH _ _ (st_wf _ _ _ _ _ St)), (st_time _ _ _ _ _ St).
      replace (Z.to_nat (Cfg.max_time_step c - time_step s))
        with (S (Z.to_nat (Cfg.max_time_step c - (time_step s + 1)))) by lia.
      cbn [sampled_passes]. rewrite Ep. cbn [res_bind].
      repeat case_decide; try lia; done.
    + replace (Z.to_nat (Cfg.max_time_step c - time_step s)) with 0%nat by lia.
      case_decide; [done|lia].
Qed.

Lemma sampled_run_spec fuel s q :
  wf n m s →
  Rec.sample_interval r ≠ 0%Z → Rec.anim_interval r ≠ 0%Z →
  Z.to_nat (Cfg.max_time_step c - time_step s) ≤ fuel →
  ∃ s' q', sampled_loop of_int c r fuel (s, q) = Done (s', q') ∧
    main_loop c fuel s = Finished s' ∧
    steps c (Z.to_nat (Cfg.max_time_step c - time_step s)) s = Some s' ∧
    recorded of_int c r n m s (Z.to_nat (Cfg.max_time_step c - time_step s)) q q'.
Proof using Hc Hn Hm Hx Hy.
  intros Hs Hk Ha Hf.
  destruct (sampled_passes_spec
              (Z.to_nat (Cfg.max_time_step c - time_step s)) s q Hs Hk Ha)
    as (s' & q' & E & S' & _ & _ & R').
  exists s', q'. rewrite (sampled_loop_spec fuel s q Hs Hk Ha), E.
  rewrite (main_loop_spec c n m Hc Hn Hm fuel s Hs), S'.
  by rewrite !decide_True by done.
Qed.

(** X13: with the grid sizes the sampling code reads equal to the shape of
    the arrays and both intervals non-zero, the loop with its sampling
    raises nothing and ends with the store the bare loop ends with, after
    [max_time_step - time_step] passes (none if the counter is already
    there); the animation lists and the printed lines then hold, in order,
    the fields after exactly those passes that leave the counter at a
    multiple of [anim_interval], and the series those at multiples of
    [sample_interval], each stamped with [time_step * dt]. *)
Theorem sampled_run_records fuel s q :
  wf n m s →
  Rec.sample_interval r ≠ 0%Z → Rec.anim_interval r ≠ 0%Z →
  Z.to_nat (Cfg.max_time_step c - time_step s) ≤ fuel →
  ∃ s' q', sampled_loop of_int c r fuel (s, q) = Done (s', q') ∧
    main_loop c fuel s = Finished s' ∧
    steps c (Z.to_nat (Cfg.max_time_step c - time_step s)) s = Some s' ∧
    recorded of_int c r n m s (Z.to_nat (Cfg.max_time_step c - time_step s)) q q'.
Proof using Hc Hn Hm Hx Hy. apply sampled_run_spec. Qed.

(** X14: an interval set to zero makes the first pass raise
    ZeroDivisionError (the [%] of line 204 or 210), after the fields of that
    pass have been computed. *)
Theorem zero_interval_raises fuel s q :
  wf n m s → (time_step s < Cfg.max_time_step c)%Z →
  Rec.sample_interval r = 0%Z ∨ Rec.anim_interval r = 0%Z →
  is_Some (step c s) ∧
  sampled_loop of_int c r (S fuel) (s, q) = Raised ExZeroDivisionError.
Proof using Hc Hn Hm Hx Hy.
  intros Hs Hlt H0. destruct (step_spec c n m s Hc Hs Hn Hm) as (s' & E & St).
  split; [by rewrite E|].
  cbn [sampled_loop fst]. rewrite (proj2 (Z.ltb_lt _ _) Hlt).
  unfold sampled_pass. cbn [fst snd]. rewrite E.
  unfold sample_series, sample_animation, py_mod.
  destruct (decide (Rec.sample_interval r = 0%Z)) as [Ek|Ek]; [done|].
  destruct H0 as [?|Ea]; [done|]. cbn [res_bind].
  rewrite (read_col_Ok r n m (eta_n s')), (read_cell_Ok r n m (eta_n s'))
    by (done || apply (st_wf _ _ _ _ _ St)).
  rewrite (decide_True _ _ Ea).
  by case_decide; cbn [res_bind].
Qed.
End SamplingTheorems.

Section SampleCounts.
Context {F : Type} {SF : Scalar F}.
Variable of_int : Z → F.
Variable c : Cfg.t F.
Variable r : Rec.t.
Variables n m : nat.
Implicit Types (s : State F) (q : Samples F) (t : nat).

Lemma div_succ (a x : Z) :
  (0 < a)%Z →
  ((x + 1) / a = x / a + if bool_decide ((x + 1) mod a = 0) then 1 else 0)%Z.
Proof.
  intros Ha. pose proof (Z.div_mod x a ltac:(lia)) as Hx.
  pose proof (Z.mod_pos_bound x a Ha) as Hb.
  destruct (decide (x mod a = a - 1)%Z) as [E|E].
  - assert (Hm : ((x + 1) mod a = 0)%Z).
    { symmetry. apply (Z.mod_unique _ _ (x / a + 1)); lia. }
    rewrite bool_decide_eq_true_2 by done.
    symmetry. apply (Z.div_unique _ _ _ 0); lia.
  - assert (Hm : ((x + 1) mod a = x mod a + 1)%Z).
    { symmetry. apply (Z.mod_unique _ _ (x / a)); lia. }
    rewrite bool_decide_eq_false_2 by lia.
    rewrite Z.add_0_r. symmetry. apply (Z.div_unique _ _ _ (x mod a + 1)); lia.
Qed.

Lemma passes_at_length (a : Z) s t :
  (0 < a)%Z →
  Z.of_nat (length (passes_at a s t))
    = ((time_step s + Z.of_nat t) / a - time_step s / a)%Z.
Proof.
  intros Ha. induction t as [|t IH].
  - simpl. rewrite Z.add_0_r. lia.
  - rewrite passes_at_S, length_app, Nat2Z.inj_add, IH.
    replace (time_step s + Z.of_nat (S t))%Z
      with (time_step s + Z.of_nat t + 1)%Z by lia.
    rewrite (div_succ a (time_step s + Z.of_nat t) Ha).
    case_bool_decide; simpl; lia.
Qed.

(** X15: started from the lists of lines 126-134, with positive intervals
    and the counter not beyond [max_time_step], the loop leaves
    [max_time_step // anim_interval - time_step // anim_interval] snapshots
    in each of [eta_list], [u_list], [v_list] (and as many printed lines),
    and one more than
    [max_time_step // sample_interval - time_step // sample_interval]
    entries in each of [hm_sample], [ts_sample], [t_sample]. *)
Theorem sample_counts fuel s :
  wf_cfg n m c → wf n m s → 0 < n → 0 < m →
  Rec.N_x r = n → Rec.N_y r = m →
  (0 < Rec.sample_interval r)%Z → (0 < Rec.anim_interval r)%Z →
  (time_step s ≤ Cfg.max_time_step c)%Z →
  Z.to_nat (Cfg.max_time_step c - time_step s) ≤ fuel →
  ∃ q0 s' q', initial_samples r s = Ok q0 ∧
    sampled_loop of_int c r fuel (s, q0) = Done (s', q') ∧
    let na := (Cfg.max_time_step c / Rec.anim_interval r
               - time_step s / Rec.anim_interval r)%Z in
    let nk := (Cfg.max_time_step c / Rec.sample_interval r
               - time_step s / Rec.sample_interval r)%Z in
    Z.of_nat (length (eta_list q')) = na ∧ Z.of_nat (length (u_list q')) = na ∧
    Z.of_nat (length (v_list q')) = na ∧ Z.of_nat (length (printed q')) = na ∧
    Z.of_nat (length (hm_sample q')) = (1 + nk)%Z ∧
    Z.of_nat (length (ts_sample q')) = (1 + nk)%Z ∧
    Z.of_nat (length (t_sample q')) = (1 + nk)%Z.
Proof.
  intros Hc Hs Hn Hm Hx Hy Hk Ha Hle Hf.
  set (q0 := mkSamples F [] [] []
            [(λ row, get1 row (m / 2)) <$> eta_n s]
            [get (eta_n s) (n / 2) (m / 2)] [fzero] []).
  assert (E0 : initial_samples r s = Ok q0).
  { unfold initial_samples.
    rewrite (read_col_Ok r n m (eta_n s)), (read_cell_Ok r n m (eta_n s))
      by (done || apply Hs).
    done. }
  destruct (sampled_run_spec of_int c r n m Hc Hn Hm Hx Hy fuel s q0
              Hs ltac:(lia) ltac:(lia) Hf) as (s' & q' & E & _ & _ & R').
  exists q0, s', q'. split; [exact E0|]. split; [exact E|].
  destruct R' as [R1 R2 R3 R4 R5 R6 R7]. cbn zeta.
  rewrite R1, R2, R3, R4, R5, R6, R7.
  cbn [eta_list u_list v_list hm_sample ts_sample t_sample printed].
  rewrite !length_app, !length_fmap, !Nat2Z.inj_add, !passes_at_length by done.
  replace (time_step s + Z.of_nat (Z.to_nat (Cfg.max_time_step c - time_step s)))%Z
    with (Cfg.max_time_step c) by lia.
  simpl. repeat split; lia.
Qed.
End SampleCounts.

(** ** What the printed mass shows, and the source alone *)

Section PrintedMass.
Variable c : Cfg.t R.
Variable r : Rec.t.
Variables n m : nat.
Local Open Scope R_scope.
Implicit Types (s : State R) (q : Samples R).

Lemma rsum_nonneg f k : (∀ i, (i < k)%nat → 0 <= f i) → 0 <= rsum f k.
Proof.
  induction k as [|k IH]; intros Hf; simpl; [lra|].
  pose proof (Hf k ltac:(lia)). pose proof (IH ltac:(auto with lia)). lra.
Qed.

Lemma rsum_pos f k :
  (0 < k)%nat → (∀ i, (i < k)%nat → 0 < f i) → 0 < rsum f k.
Proof.
  intros Hk Hf. destruct k as [|k]; [lia|]. simpl.
  pose proof (Hf k ltac:(lia)).
  pose proof (rsum_nonneg f k ltac:(intros; left; auto with lia)). lra.
Qed.

(** X16: with source and sink off, every "Mass:" value the loop prints is
    the total of [eta] the run started with (in exact arithmetic), and it is
    printed with a counter that is a multiple of [anim_interval], above the
    starting counter and at most [max_time_step]. *)
Theorem printed_mass_constant fuel s q :
  wf_cfg n m c → wf n m s → (0 < n)%nat → (0 < m)%nat →
  Rec.N_x r = n → Rec.N_y r = m →
  Rec.sample_interval r ≠ 0%Z → Rec.anim_interval r ≠ 0%Z →
  Cfg.use_source c = false → Cfg.use_sink c = false →
  (Z.to_nat (Cfg.max_time_step c - time_step s) ≤ fuel)%nat →
  printed q = [] →
  ∃ s' q', sampled_loop IZR c r fuel (s, q) = Done (s', q') ∧
    ∀ hours k mass, (hours, k, mass) ∈ printed q' →
      mass = arr_sum (eta_n s) ∧
      (k mod Rec.anim_interval r = 0)%Z ∧
      (time_step s < k ≤ Cfg.max_time_step c)%Z ∧
      hours = IZR k * Cfg.dt c / 3600.
Proof.
  intros Hc Hs Hn Hm Hx Hy Hk Ha Esrc Esnk Hf Hq.
  destruct (sampled_run_spec IZR c r n m Hc Hn Hm Hx Hy fuel s q Hs Hk Ha Hf)
    as (s' & q' & E & _ & _ & R').
  exists s', q'. split; [done|]. intros hours k mass Hin.
  rewrite (rec_printed _ _ _ _ _ _ _ _ _ R'), Hq in Hin. simpl in Hin.
  apply list_elem_of_fmap in Hin as (p & [= -> -> ->] & Hp).
  unfold passes_at in Hp. apply list_elem_of_filter in Hp as [Hmod Hp].
  apply elem_of_seq in Hp.
  split; [|split; [done|split; [lia|done]]].
  destruct (steps_mass c n m p s Hc Hs Hn Hm) as (sp & Ep & Hsum).
  rewrite (after_steps c p s sp Ep), Hsum. unfold net_forcing.
  rewrite Esrc, Esnk. lra.
Qed.
End PrintedMass.

Section SourceAlone.
Variable p : Par.t.
Local Open Scope R_scope.
Local Abbreviation n := (Z.to_nat (Par.N_x p)).
Local Abbreviation m := (Z.to_nat (Par.N_y p)).

Lemma source_total_pos :
  (2 ≤ Par.N_x p)%Z → (2 ≤ Par.N_y p)%Z → 0 < arr_sum (Setup.source p).
Proof.
  intros Hx Hy. rewrite (arr_sum_rsum2 n m) by apply shape_source.
  unfold rsum2. apply rsum_pos; [lia|]. intros i Hi.
  apply rsum_pos; [lia|]. intros j Hj.
  apply (source_cell_pos p i j Hi Hj).
Qed.

Lemma derived_dt_pos :
  (2 ≤ Par.N_x p)%Z → (2 ≤ Par.N_y p)%Z →
  0 < Par.L_x p → 0 < Par.L_y p → 0 < Par.g p * Par.H p → 0 < Setup.dt p.
Proof.
  intros Hx Hy HLx HLy Hgh. unfold Setup.dt.
  pose proof (spacing_pos _ _ HLx Hx). pose proof (spacing_pos _ _ HLy Hy).
  assert (0 < Rmin (Setup.dx p) (Setup.dy p)) by by apply Rmin_glb_lt.
  apply Rdiv_lt_0_compat; [lra|by apply sqrt_lt_R0].
Qed.

(** X17: when the setup enables the source without the sink (positive
    lengths, [g * H > 0]), every pass adds the same positive amount
    [dt * sum(source)] to the total of [eta]. *)
Theorem source_alone_raises_mass c s0 T :
  Setup.setup p = Some (c, s0) →
  Par.use_source p = true → Par.use_sink p = false →
  0 < Par.L_x p → 0 < Par.L_y p → 0 < Par.g p * Par.H p →
  0 < Cfg.dt c * arr_sum (Cfg.source c) ∧
  ∃ s', steps c T s0 = Some s' ∧
    arr_sum (eta_n s') =
      arr_sum (eta_n s0) + INR T * (Cfg.dt c * arr_sum (Cfg.source c)).
Proof.
  intros E Esrc Esnk HLx HLy Hgh.
  destruct (setup_wf p _ _ E) as (Hc & Hs & Hn & Hm & _).
  destruct (setup_Some p _ _ E) as (Hx & Hy & _ & -> & ->).
  split.
  - simpl. rewrite Esrc. apply Rmult_lt_0_compat;
      [by apply derived_dt_pos|by apply source_total_pos].
  - destruct (steps_mass _ _ _ T _ Hc Hs Hn Hm) as (s' & Es & Hsum).
    exists s'. split; [done|]. rewrite Hsum. unfold net_forcing.
    simpl. rewrite Esrc, Esnk. lra.
Qed.
End SourceAlone.

(** ** The further properties at the concrete runs *)

Section FurtherInstances.
Local Open Scope R_scope.

Lemma demo_cfg_plain_wf n m : wf_cfg n m demo_cfg_plain.
Proof. split; simpl; done. Qed.

Lemma demo_state_used_wf : wf 2 2 demo_state_used.
Proof.
  pose proof demo_state_wf as [].
  split; first [assumption|split; [done|]; by repeat apply Forall_cons_2].
Qed.

Lemma level_state_wf : wf 2 2 level_state.
Proof. apply init_state_wf. split; [done|]. by repeat constructor. Qed.

Lemma empty_state_wf : wf 0 2 empty_state.
Proof. apply init_state_wf. split; [done|]. by constructor. Qed.

Lemma body_raises_iff_empty_demo :
  wf_cfg 2 2 demo_cfg ∧ wf 2 2 demo_state ∧
  (step demo_cfg demo_state = None ↔ 2 = 0 ∨ 2 = 0)%nat ∧
  (∀ s', step demo_cfg demo_state = Some s' →
     wf 2 2 s' ∧ time_step s' = (time_step demo_state + 1)%Z).
Proof.
  split; [exact demo_cfg_wf|]. split; [exact demo_state_wf|].
  exact (body_raises_iff_empty demo_cfg 2 2 demo_state demo_cfg_wf demo_state_wf).
Defined.

Lemma main_loop_empty_grid_demo :
  wf_cfg 0 2 demo_cfg_plain ∧ wf 0 2 empty_state ∧ (0 = 0 ∨ 2 = 0)%nat ∧
  main_loop demo_cfg_plain 1 empty_state = IndexError.
Proof.
  split; [exact (demo_cfg_plain_wf 0 2)|]. split; [exact empty_state_wf|].
  split; [by left|].
  exact (main_loop_empty_grid demo_cfg_plain 0 2 empty_state 0
           (demo_cfg_plain_wf 0 2) empty_state_wf (or_introl eq_refl)).
Defined.

Lemma pass_reads_current_fields_demo :
  wf_cfg 2 2 demo_cfg ∧ wf 2 2 demo_state ∧ wf 2 2 demo_state_used ∧
  u_n demo_state = u_n demo_state_used ∧ v_n demo_state = v_n demo_state_used ∧
  eta_n demo_state = eta_n demo_state_used ∧
  time_step demo_state = time_step demo_state_used ∧
  h_e demo_state ≠ h_e demo_state_used ∧
  step demo_cfg demo_state = step demo_cfg demo_state_used.
Proof.
  split; [exact demo_cfg_wf|]. split; [exact demo_state_wf|].
  split; [exact demo_state_used_wf|]. do 4 (split; [reflexivity|]).
  split.
  - intros E. apply (f_equal (λ a, get a 0 0)) in E.
    change (0 = 5) in E. lra.
  - exact (pass_reads_current_fields demo_cfg 2 2 demo_state demo_state_used
             demo_cfg_wf demo_state_wf demo_state_used_wf
             ltac:(lia) ltac:(lia) eq_refl eq_refl eq_refl eq_refl).
Defined.

Lemma net_fluxes_cancel_along_lines_demo :
  wf_cfg 2 2 demo_cfg ∧ wf 2 2 demo_state ∧ (0 < 2)%nat ∧
  ∃ s', step demo_cfg demo_state = Some s' ∧
    (∀ j, (j < 2)%nat → rsum (λ i, get (uhwe s') i j) 2 = 0) ∧
    (∀ i, (i < 2)%nat → rsum (λ j, get (vhns s') i j) 2 = 0).
Proof.
  split; [exact demo_cfg_wf|]. split; [exact demo_state_wf|]. split; [lia|].
  exact (net_fluxes_cancel_along_lines demo_cfg 2 2 demo_state
           demo_cfg_wf demo_state_wf ltac:(lia) ltac:(lia)).
Defined.

Lemma forced_cfg_wf : wf_cfg 2 2 forced_cfg.
Proof. split; intros _; simpl; (done || (split; [done|]; by repeat apply Forall_cons_2)). Qed.

Lemma forced_totals :
  arr_sum (eta_n demo_state) = 1 ∧
  arr_sum (Cfg.source forced_cfg) = 10 ∧ arr_sum (Cfg.sink forced_cfg) = 2.
Proof. unfold arr_sum, sum1. simpl. repeat split; lra. Qed.

Lemma mass_budget_demo :
  wf_cfg 2 2 forced_cfg ∧ wf 2 2 demo_state ∧ (0 < 2)%nat ∧
  Cfg.use_source forced_cfg = true ∧ Cfg.use_sink forced_cfg = true ∧
  arr_sum (Cfg.source forced_cfg) = 10 ∧ arr_sum (Cfg.sink forced_cfg) = 2 ∧
  ∃ s', steps forced_cfg 2 demo_state = Some s' ∧
    arr_sum (eta_n s') = 1 + 2 * (0.01 * 10) - 2 * (0.01 * 2).
Proof.
  destruct forced_totals as (Ee & Esrc & Esnk).
  split; [exact forced_cfg_wf|]. split; [exact demo_state_wf|]. split; [lia|].
  do 2 (split; [reflexivity|]). split; [exact Esrc|]. split; [exact Esnk|].
  destruct (mass_budget forced_cfg 2 2 demo_state 2
              forced_cfg_wf demo_state_wf ltac:(lia) ltac:(lia)) as (s' & E & Hsum).
  exists s'. split; [exact E|].
  change (arr_sum (eta_n s') =
            arr_sum (eta_n demo_state)
            + INR 2 * (0.01 * arr_sum (Cfg.source forced_cfg))
            - INR 2 * (0.01 * arr_sum (Cfg.sink forced_cfg))) in Hsum.
  rewrite Ee, Esrc, Esnk in Hsum. rewrite Hsum. simpl. lra.
Defined.

Lemma level_surface_at_rest_demo :
  wf_cfg 2 2 demo_cfg ∧ wf 2 2 level_state ∧ (0 < 2)%nat ∧
  Cfg.use_source demo_cfg = false ∧ Cfg.use_sink demo_cfg = false ∧
  u_n level_state = zeros 2 2 ∧ v_n level_state = zeros 2 2 ∧
  eta_n level_state = replicate 2 (replicate 2 0.5) ∧
  ∃ s', steps demo_cfg 2 level_state = Some s' ∧
    u_n s' = zeros 2 2 ∧ v_n s' = zeros 2 2 ∧
    eta_n s' = replicate 2 (replicate 2 0.5).
Proof.
  split; [exact demo_cfg_wf|]. split; [exact level_state_wf|]. split; [lia|].
  do 5 (split; [reflexivity|]).
  exact (level_surface_at_rest demo_cfg 2 2 0.5 level_state 2
           demo_cfg_wf level_state_wf ltac:(lia) ltac:(lia)
           eq_refl eq_refl eq_refl eq_refl eq_refl).
Defined.

Lemma demo_depths i j :
  (i < 2)%nat → (j < 2)%nat →
  1 <= get (eta_n demo_state) i j + Cfg.H demo_cfg <= 2.
Proof.
  intros Hi Hj.
  destruct i as [|[|?]]; [| |lia]; (destruct j as [|[|?]]; [| |lia]).
  - change (1 <= 1 + 1 <= 2). lra.
  - change (1 <= 0 + 1 <= 2). lra.
  - change (1 <= 0 + 1 <= 2). lra.
  - change (1 <= 0 + 1 <= 2). lra.
Qed.

Lemma face_depths_within_cell_depths_demo :
  wf_cfg 2 2 demo_cfg ∧ wf 2 2 demo_state ∧ (0 < 2)%nat ∧
  (∀ i j, (i < 2)%nat → (j < 2)%nat →
     1 <= get (eta_n demo_state) i j + Cfg.H demo_cfg <= 2) ∧
  ∃ s', step demo_cfg demo_state = Some s' ∧
    ∀ i j, (i < 2)%nat → (j < 2)%nat →
      1 <= get (h_e s') i j <= 2 ∧ 1 <= get (h_w s') i j <= 2 ∧
      1 <= get (h_n s') i j <= 2 ∧ 1 <= get (h_s s') i j <= 2.
Proof.
  split; [exact demo_cfg_wf|]. split; [exact demo_state_wf|]. split; [lia|].
  split; [exact demo_depths|].
  exact (face_depths_within_cell_depths demo_cfg 2 2 1 2 demo_state
           demo_cfg_wf demo_state_wf ltac:(lia) ltac:(lia) demo_depths).
Defined.

Lemma demo_depths_nonneg i j :
  (i < 2)%nat → (j < 2)%nat → 0 <= get (eta_n demo_state) i j + Cfg.H demo_cfg.
Proof. intros Hi Hj. pose proof (demo_depths i j Hi Hj). lra. Qed.

(** the velocities of the first pass over the raised cell: 0.1 away from
    it along both axes, zero elsewhere *)
Lemma demo_velocities s' :
  step demo_cfg demo_state = Some s' →
  get (u_n s') 0 0 = 0.1 ∧ get (v_n s') 0 0 = 0.1 ∧
  ∀ i j, (i < 2)%nat → (j < 2)%nat →
    Rabs (get (u_n s') i j) <= 0.1 ∧ Rabs (get (v_n s') i j) <= 0.1.
Proof.
  intros E.
  destruct (step_spec demo_cfg 2 2 demo_state demo_cfg_wf demo_state_wf)
    as (s1 & E1 & St); [lia..|].
  assert (s1 = s') as -> by congruence.
  assert (U : ∀ i j, (i < 2)%nat → (j < 2)%nat →
    get (u_n s') i j = if decide (i = 0 ∧ j = 0)%nat then 0.1 else 0).
  { intros i j Hi Hj. rewrite (st_u _ _ _ _ _ St) by done.
    destruct i as [|[|?]]; [| |lia].
    - rewrite decide_False by lia.
      destruct (rest_velocities 2 2 demo_cfg demo_state 0 j
                  demo_cfg_wf demo_state_wf eq_refl eq_refl Hi Hj) as [R1 _].
      rewrite R1 by lia.
      destruct j as [|[|?]]; [| |lia].
      + rewrite decide_True by done.
        change (- (10 * 0.01 / 1 * (0 - 1)) = 0.1). lra.
      + rewrite decide_False by lia.
        change (- (10 * 0.01 / 1 * (0 - 0)) = 0). lra.
    - rewrite decide_True by done. by rewrite decide_False by lia. }
  assert (V : ∀ i j, (i < 2)%nat → (j < 2)%nat →
    get (v_n s') i j = if decide (i = 0 ∧ j = 0)%nat then 0.1 else 0).
  { intros i j Hi Hj. rewrite (st_v _ _ _ _ _ St) by done.
    destruct j as [|[|?]]; [| |lia].
    - rewrite decide_False by lia.
      destruct (rest_velocities 2 2 demo_cfg demo_state i 0
                  demo_cfg_wf demo_state_wf eq_refl eq_refl Hi Hj) as [_ R1].
      rewrite R1 by lia.
      destruct i as [|[|?]]; [| |lia].
      + rewrite decide_True by done.
        change (- (10 * 0.01 / 1 * (0 - 1)) = 0.1). lra.
      + rewrite decide_False by lia.
        change (- (10 * 0.01 / 1 * (0 - 0)) = 0). lra.
    - rewrite decide_True by done. by rewrite decide_False by lia. }
  split; [by rewrite U by lia|]. split; [by rewrite V by lia|].
  intros i j Hi Hj. rewrite U, V by done.
  case_decide; [rewrite Rabs_pos_eq by lra|rewrite Rabs_R0]; lra.
Qed.

Lemma depth_stays_nonnegative_demo :
  wf_cfg 2 2 demo_cfg ∧ wf 2 2 demo_state ∧ (0 < 2)%nat ∧
  Cfg.use_sink demo_cfg = false ∧
  0 <= Cfg.dt demo_cfg ∧ 0 < Cfg.dx demo_cfg ∧ 0 < Cfg.dy demo_cfg ∧
  (∀ i j, (i < 2)%nat → (j < 2)%nat →
     0 <= get (eta_n demo_state) i j + Cfg.H demo_cfg) ∧
  ∃ s', step demo_cfg demo_state = Some s' ∧
    get (u_n s') 0 0 = 0.1 ∧ get (v_n s') 0 0 = 0.1 ∧
    (∀ i j, (i < 2)%nat → (j < 2)%nat →
       Rabs (get (u_n s') i j) <= 0.1 ∧ Rabs (get (v_n s') i j) <= 0.1) ∧
    2 * Cfg.dt demo_cfg * (0.1 / Cfg.dx demo_cfg + 0.1 / Cfg.dy demo_cfg) <= 1 ∧
    ∀ i j, (i < 2)%nat → (j < 2)%nat →
      0 <= get (eta_n s') i j + Cfg.H demo_cfg.
Proof.
  assert (Hdt : 0 <= Cfg.dt demo_cfg) by (change (0 <= 0.01); lra).
  assert (Hdx : 0 < Cfg.dx demo_cfg) by (change (0 < 1); lra).
  assert (Hcfl : 2 * Cfg.dt demo_cfg * (0.1 / Cfg.dx demo_cfg + 0.1 / Cfg.dy demo_cfg) <= 1)
    by (change (2 * 0.01 * (0.1 / 1 + 0.1 / 1) <= 1); lra).
  split; [exact demo_cfg_wf|]. split; [exact demo_state_wf|]. split; [lia|].
  split; [reflexivity|]. split; [exact Hdt|]. split; [exact Hdx|].
  split; [exact Hdx|]. split; [exact demo_depths_nonneg|].
  destruct (depth_stays_nonnegative demo_cfg 2 2 0.1 0.1 demo_state
              demo_cfg_wf demo_state_wf ltac:(lia) ltac:(lia) eq_refl
              ltac:(discriminate) Hdt Hdx Hdx demo_depths_nonneg) as (s' & E & Hpos).
  destruct (demo_velocities s' E) as (U0 & V0 & Hb).
  exists s'. split; [exact E|]. split; [exact U0|]. split; [exact V0|].
  split; [exact Hb|]. split; [exact Hcfl|].
  exact (Hpos Hb Hcfl).
Defined.

Lemma rest_start_ignores_coriolis_demo :
  wf_cfg 2 2 demo_cfg ∧ wf_cfg 2 2 demo_cfg_plain ∧ wf 2 2 demo_state ∧ (0 < 2)%nat ∧
  Cfg.use_coriolis demo_cfg = true ∧ Cfg.use_coriolis demo_cfg_plain = false ∧
  u_n demo_state = zeros 2 2 ∧ v_n demo_state = zeros 2 2 ∧
  step demo_cfg demo_state = step demo_cfg_plain demo_state.
Proof.
  split; [exact demo_cfg_wf|]. split; [exact (demo_cfg_plain_wf 2 2)|].
  split; [exact demo_state_wf|]. split; [lia|]. do 4 (split; [reflexivity|]).
  exact (proj1 (rest_start_ignores_coriolis demo_cfg demo_cfg_plain 2 2 demo_state
           demo_cfg_wf (demo_cfg_plain_wf 2 2) demo_state_wf ltac:(lia) ltac:(lia)
           eq_refl eq_refl eq_refl eq_refl eq_refl eq_refl eq_refl eq_refl eq_refl
           eq_refl eq_refl)).
Defined.

Lemma axis_points_spaced_by_dx_reference :
  (2 ≤ Par.N_x reference)%Z ∧ (2 ≤ Par.N_y reference)%Z ∧
  length (Setup.x reference) = 150%nat ∧
  get1 (Setup.x reference) 0 = - Par.L_x reference / 2 ∧
  get1 (Setup.x reference) 149 = Par.L_x reference / 2 ∧
  ∀ k, (k + 1 < 150)%nat →
    get1 (Setup.x reference) (k + 1) - get1 (Setup.x reference) k = Setup.dx reference.
Proof.
  assert (Hx : (2 ≤ Par.N_x reference)%Z) by (unfold reference; simpl; lia).
  assert (Hy : (2 ≤ Par.N_y reference)%Z) by (unfold reference; simpl; lia).
  split; [exact Hx|]. split; [exact Hy|].
  destruct (axis_points_spaced_by_dx reference Hx Hy)
    as ((Lx & _) & (X0 & X1) & _ & Dx & _).
  split; [exact Lx|]. split; [exact X0|]. split; [exact X1|]. exact Dx.
Defined.

Lemma initial_fields_bounded_reference :
  (75 < 150)%nat ∧
  0 < get (Setup.eta_0 reference) 75 75 <= 1 ∧
  0 < get (Setup.source reference) 75 75 <= 0.0001.
Proof.
  assert (H : (75 < 150)%nat) by lia.
  split; [exact H|].
  exact (initial_fields_bounded reference 75 75 H H).
Defined.

Lemma sampled_run_records_demo :
  wf_cfg 2 2 demo_cfg ∧ wf 2 2 demo_state ∧ (0 < 2)%nat ∧
  Rec.N_x demo_rec = 2%nat ∧ Rec.N_y demo_rec = 2%nat ∧
  Rec.sample_interval demo_rec ≠ 0%Z ∧ Rec.anim_interval demo_rec ≠ 0%Z ∧
  (Z.to_nat (Cfg.max_time_step demo_cfg - time_step demo_state) ≤ 2)%nat ∧
  ∃ s' q', sampled_loop IZR demo_cfg demo_rec 2 (demo_state, no_samples) = Done (s', q') ∧
    main_loop demo_cfg 2 demo_state = Finished s' ∧
    recorded IZR demo_cfg demo_rec 2 2 demo_state 2 no_samples q'.
Proof.
  assert (Hk : Rec.sample_interval demo_rec ≠ 0%Z) by (simpl; lia).
  assert (Ha : Rec.anim_interval demo_rec ≠ 0%Z) by (simpl; lia).
  assert (Hf : (Z.to_nat (Cfg.max_time_step demo_cfg - time_step demo_state) ≤ 2)%nat)
    by (change (2 ≤ 2)%nat; lia).
  split; [exact demo_cfg_wf|]. split; [exact demo_state_wf|]. split; [lia|].
  do 2 (split; [reflexivity|]). split; [exact Hk|]. split; [exact Ha|].
  split; [exact Hf|].
  destruct (sampled_run_records IZR demo_cfg demo_rec 2 2 demo_cfg_wf
              ltac:(lia) ltac:(lia) eq_refl eq_refl 2 demo_state no_samples
              demo_state_wf Hk Ha Hf) as (s' & q' & E & El & _ & Hr).
  exists s', q'. split; [exact E|]. split; [exact El|]. exact Hr.
Defined.

Lemma zero_interval_raises_demo :
  wf_cfg 2 2 demo_cfg ∧ wf 2 2 demo_state ∧ (0 < 2)%nat ∧
  Rec.N_x demo_rec_zero = 2%nat ∧ Rec.N_y demo_rec_zero = 2%nat ∧
  (time_step demo_state < Cfg.max_time_step demo_cfg)%Z ∧
  Rec.anim_interval demo_rec_zero = 0%Z ∧
  is_Some (step demo_cfg demo_state) ∧
  sampled_loop IZR demo_cfg demo_rec_zero 2 (demo_state, no_samples)
    = Raised ExZeroDivisionError.
Proof.
  assert (Hlt : (time_step demo_state < Cfg.max_time_step demo_cfg)%Z)
    by (change (1 < 3)%Z; lia).
  split; [exact demo_cfg_wf|]. split; [exact demo_state_wf|]. split; [lia|].
  do 2 (split; [reflexivity|]). split; [exact Hlt|]. split; [reflexivity|].
  exact (zero_interval_raises IZR demo_cfg demo_rec_zero 2 2 demo_cfg_wf
           ltac:(lia) ltac:(lia) eq_refl eq_refl 1 demo_state no_samples
           demo_state_wf Hlt (or_intror eq_refl)).
Defined.

Lemma sample_counts_demo :
  wf_cfg 2 2 demo_cfg ∧ wf 2 2 demo_state ∧ (0 < 2)%nat ∧
  Rec.N_x demo_rec = 2%nat ∧ Rec.N_y demo_rec = 2%nat ∧
  (0 < Rec.sample_interval demo_rec)%Z ∧ (0 < Rec.anim_interval demo_rec)%Z ∧
  (time_step demo_state ≤ Cfg.max_time_step demo_cfg)%Z ∧
  (Z.to_nat (Cfg.max_time_step demo_cfg - time_step demo_state) ≤ 2)%nat ∧
  ∃ q0 s' q', initial_samples demo_rec demo_state = Ok q0 ∧
    sampled_loop IZR demo_cfg demo_rec 2 (demo_state, q0) = Done (s', q') ∧
    Z.of_nat (length (eta_list q')) = 1%Z ∧ Z.of_nat (length (printed q')) = 1%Z ∧
    Z.of_nat (length (ts_sample q')) = 2%Z ∧ Z.of_nat (length (t_sample q')) = 2%Z.
Proof.
  assert (Hk : (0 < Rec.sample_interval demo_rec)%Z) by (simpl; lia).
  assert (Ha : (0 < Rec.anim_interval demo_rec)%Z) by (simpl; lia).
  assert (Hle : (time_step demo_state ≤ Cfg.max_time_step demo_cfg)%Z)
    by (change (1 ≤ 3)%Z; lia).
  assert (Hf : (Z.to_nat (Cfg.max_time_step demo_cfg - time_step demo_state) ≤ 2)%nat)
    by (change (2 ≤ 2)%nat; lia).
  split; [exact demo_cfg_wf|]. split; [exact demo_state_wf|]. split; [lia|].
  do 2 (split; [reflexivity|]). split; [exact Hk|]. split; [exact Ha|].
  split; [exact Hle|]. split; [exact Hf|].
  destruct (sample_counts IZR demo_cfg demo_rec 2 2 2 demo_state
              demo_cfg_wf demo_state_wf ltac:(lia) ltac:(lia) eq_refl eq_refl
              Hk Ha Hle Hf)
    as (q0 & s' & q' & E0 & E & L1 & _ & _ & L4 & _ & L6 & L7).
  exists q0, s', q'. split; [exact E0|]. split; [exact E|].
  split; [exact L1|]. split; [exact L4|]. split; [exact L6|exact L7].
Defined.

Lemma printed_mass_constant_demo :
  wf_cfg 2 2 demo_cfg ∧ wf 2 2 demo_state ∧ (0 < 2)%nat ∧
  Rec.N_x demo_rec = 2%nat ∧ Rec.N_y demo_rec = 2%nat ∧
  Rec.sample_interval demo_rec ≠ 0%Z ∧ Rec.anim_interval demo_rec ≠ 0%Z ∧
  Cfg.use_source demo_cfg = false ∧ Cfg.use_sink demo_cfg = false ∧
  (Z.to_nat (Cfg.max_time_step demo_cfg - time_step demo_state) ≤ 2)%nat ∧
  printed no_samples = [] ∧
  ∃ s' q', sampled_loop IZR demo_cfg demo_rec 2 (demo_state, no_samples) = Done (s', q') ∧
    ∀ hours k mass, (hours, k, mass) ∈ printed q' →
      mass = arr_sum (eta_n demo_state).
Proof.
  assert (Hk : Rec.sample_interval demo_rec ≠ 0%Z) by (simpl; lia).
  assert (Ha : Rec.anim_interval demo_rec ≠ 0%Z) by (simpl; lia).
  assert (Hf : (Z.to_nat (Cfg.max_time_step demo_cfg - time_step demo_state) ≤ 2)%nat)
    by (change (2 ≤ 2)%nat; lia).
  split; [exact demo_cfg_wf|]. split; [exact demo_state_wf|]. split; [lia|].
  do 2 (split; [reflexivity|]). split; [exact Hk|]. split; [exact Ha|].
  do 2 (split; [reflexivity|]). split; [exact Hf|]. split; [reflexivity|].
  destruct (printed_mass_constant demo_cfg demo_rec 2 2 2 demo_state no_samples
              demo_cfg_wf demo_state_wf ltac:(lia) ltac:(lia) eq_refl eq_refl
              Hk Ha eq_refl eq_refl Hf eq_refl) as (s' & q' & E & Hp).
  exists s', q'. split; [exact E|].
  intros hours k mass Hin. exact (proj1 (Hp hours k mass Hin)).
Defined.

Lemma source_alone_raises_mass_reference :
  Setup.setup reference_source =
    Some (Setup.config reference_source,
          init_state 150 150 (Setup.eta_0 reference_source)) ∧
  Par.use_source reference_source = true ∧ Par.use_sink reference_source = false ∧
  0 < Par.L_x reference_source ∧ 0 < Par.L_y reference_source ∧
  0 < Par.g reference_source * Par.H reference_source ∧
  0 < Cfg.dt (Setup.config reference_source)
      * arr_sum (Cfg.source (Setup.config reference_source)).
Proof.
  assert (E : Setup.setup reference_source =
    Some (Setup.config reference_source,
          init_state 150 150 (Setup.eta_0 reference_source))).
  { apply (setup_succeeds reference_source); unfold reference_source; simpl;
      (lia || done). }
  assert (HL : 0 < Par.L_x reference_source) by (unfold reference_source; simpl; lra).
  assert (Hgh : 0 < Par.g reference_source * Par.H reference_source)
    by (unfold reference_source; simpl; lra).
  split; [exact E|]. do 2 (split; [reflexivity|]).
  split; [exact HL|]. split; [exact HL|]. split; [exact Hgh|].
  exact (proj1 (source_alone_raises_mass reference_source _ _ 2 E eq_refl eq_refl
                  HL HL Hgh)).
Defined.
End FurtherInstances.
